(** * Rk_Bot: the Hindi OCR core ([core/ocr_engine.py], [core/pdf_handler.py])

    A shallow embedding of the OCR pipeline: the text normalizer, the
    confidence score, the PDF classifier, the line-oriented MCQ parser, the
    answer resolver and the control flow of the image preprocessor, with
    the properties the specification states about them; then the OCR call
    of the engine and the page extraction of the PDF handler, with further
    properties read off the code.  The regular expressions of the module
    are kept as patterns and run by a backtracking matcher; the Unicode
    tables and the OpenCV, PIL and Tesseract calls are interfaces.

    Python strings are sequences of Unicode code points: a text is a
    [list N].  Literals are written in UTF-8 and decoded by [utf8]. *)

From Stdlib Require Import Ascii String.
From Stdlib Require Import List NArith ZArith QArith Bool Arith Lia.
From Stdlib Require Import Lqa.
From Stdlib Require DecimalNat.
Import ListNotations.

Set Implicit Arguments.
Unset Strict Implicit.

(** ** Text *)

Definition text := list N.

Open Scope N_scope.

(** Decoder for the UTF-8 literals of this file: [need] continuation bytes
    are still expected, [acc] holds the bits read so far. *)
Fixpoint utf8_go (need : nat) (acc : N) (bs : list N) : text :=
  match bs with
  | [] => []
  | b :: bs' =>
      match need with
      | O =>
          if b <? 0x80 then b :: utf8_go 0 0 bs'
          else if b <? 0xE0 then utf8_go 1 (N.land b 0x1F) bs'
          else if b <? 0xF0 then utf8_go 2 (N.land b 0x0F) bs'
          else utf8_go 3 (N.land b 0x07) bs'
      | S O => (acc * 64 + N.land b 0x3F) :: utf8_go 0 0 bs'
      | S n => utf8_go n (acc * 64 + N.land b 0x3F) bs'
      end
  end.

Definition utf8 (s : string) : text :=
  utf8_go 0 0 (map N_of_ascii (list_ascii_of_string s)).

Fixpoint text_eqb (a b : text) : bool :=
  match a, b with
  | [], [] => true
  | x :: a', y :: b' => (x =? y) && text_eqb a' b'
  | _, _ => false
  end.

(** [str.isspace] on one character, which is also what [\s] matches in a
    [str] pattern: the complete list of the Unicode database. *)
Definition isspace (c : N) : bool :=
  ((0x09 <=? c) && (c <=? 0x0D)) || ((0x1C <=? c) && (c <=? 0x20))
  || (c =? 0x85) || (c =? 0xA0) || (c =? 0x1680)
  || ((0x2000 <=? c) && (c <=? 0x200A))
  || (c =? 0x2028) || (c =? 0x2029) || (c =? 0x202F) || (c =? 0x205F)
  || (c =? 0x3000).

Fixpoint lstrip (s : text) : text :=
  match s with
  | [] => []
  | c :: s' => if isspace c then lstrip s' else s
  end.

Definition rstrip (s : text) : text := rev (lstrip (rev s)).

(** [s.strip()] *)
Definition strip (s : text) : text := lstrip (rstrip s).

(** [s.split('\n')]: never empty, the last piece may be. *)
Fixpoint split_lines (s : text) : list text :=
  match s with
  | [] => [[]]
  | c :: s' =>
      if c =? 10 then [] :: split_lines s'
      else match split_lines s' with
           | l :: ls => (c :: l) :: ls
           | [] => [[c]]
           end
  end.

(** ['\n'.join(lines)] *)
Fixpoint join_lines (ls : list text) : text :=
  match ls with
  | [] => []
  | [l] => l
  | l :: ls' => l ++ 10 :: join_lines ls'
  end.

Fixpoint starts_with (p s : text) : bool :=
  match p, s with
  | [], _ => true
  | a :: p', b :: s' => (a =? b) && starts_with p' s'
  | _ :: _, [] => false
  end.

(** [s.replace(old, new)] for a non-empty [old]: a left-to-right scan for
    non-overlapping occurrences; [skip] counts the characters of an
    occurrence that are still to be passed over. *)
Fixpoint replace_go (old new : text) (skip : nat) (s : text) : text :=
  match s with
  | [] => []
  | c :: s' =>
      match skip with
      | S k => replace_go old new k s'
      | O =>
          if starts_with old s
          then new ++ replace_go old new (length old - 1) s'
          else c :: replace_go old new 0 s'
      end
  end.

(** [s.replace(old, new)]; an empty [old] matches between all characters. *)
Definition str_replace (old new s : text) : text :=
  match old with
  | [] => new ++ flat_map (fun c => c :: new) s
  | _ :: _ => replace_go old new 0 s
  end.

(** ** Python dictionaries with text keys, in insertion order *)

Definition dict (V : Type) := list (text * V).

Fixpoint dict_set {V} (k : text) (v : V) (d : dict V) : dict V :=
  match d with
  | [] => [(k, v)]
  | (k', v') :: d' =>
      if text_eqb k' k then (k', v) :: d' else (k', v') :: dict_set k v d'
  end.

(** A dict display [{k1: v1, k2: v2, ...}]: a repeated key keeps its first
    position and its last value. *)
Definition dict_display {V} (items : list (text * V)) : dict V :=
  fold_left (fun d kv => dict_set (fst kv) (snd kv) d) items [].

Fixpoint dict_get {V} (k : text) (d : dict V) : option V :=
  match d with
  | [] => None
  | (k', v) :: d' => if text_eqb k' k then Some v else dict_get k d'
  end.

(** ** Regular expressions

    The fragment of Python's [re] that the module uses, with the matching
    order of a backtracking engine: alternatives left to right, greedy
    quantifiers longest first, lazy ones shortest first.  [run r k st]
    matches [r] at [st] and hands the state reached to the continuation
    [k]; a [None] from [k] makes the matcher backtrack. *)

Inductive regex :=
| Eps
| Chr (c : N)
| Cls (p : N -> bool)
| Seq (r1 r2 : regex)
| Alt (r1 r2 : regex)
| Opt (r : regex)                 (* r?  *)
| Star (r : regex)                (* r*  *)
| LazyStar (r : regex)            (* r*? *)
| Group (n : nat) (r : regex)     (* the n-th parenthesis *)
| Ahead (r : regex)               (* (?=r) *)
| Bol.                            (* ^ *)

Definition Plus (r : regex) : regex := Seq r (Star r).

Fixpoint Lit (s : text) : regex :=
  match s with
  | [] => Eps
  | [c] => Chr c
  | c :: s' => Seq (Chr c) (Lit s')
  end.

Definition Range (lo hi : N) (c : N) : bool := (lo <=? c) && (c <=? hi).

(** [.] without DOTALL *)
Definition Dot : regex := Cls (fun c => negb (c =? 10)).

(** [\s] *)
Definition space : regex := Cls isspace.

Record mstate := { pos : nat; rest : text; caps : list (nat * text) }.

Definition advance (st : mstate) (xs : text) : mstate :=
  {| pos := S (pos st); rest := xs; caps := caps st |}.

Definition capture (n : nat) (from to : mstate) : mstate :=
  {| pos := pos to; rest := rest to;
     caps := (n, firstn (pos to - pos from) (rest from)) :: caps to |}.

(** The loops of the two quantifiers over a matcher [body] for the
    quantified pattern: [n] bounds the number of rounds (every round must
    consume a character), greedy rounds first for [*], the continuation
    first for [*?]. *)
Fixpoint star_loop (body : (mstate -> option mstate) -> mstate -> option mstate)
  (k : mstate -> option mstate) (n : nat) (st : mstate) : option mstate :=
  match n with
  | O => k st
  | S n' =>
      match body (fun st' => if (pos st <? pos st')%nat
                             then star_loop body k n' st' else None) st with
      | Some m => Some m
      | None => k st
      end
  end.

Fixpoint lazy_loop (body : (mstate -> option mstate) -> mstate -> option mstate)
  (k : mstate -> option mstate) (n : nat) (st : mstate) : option mstate :=
  match k st with
  | Some m => Some m
  | None =>
      match n with
      | O => None
      | S n' => body (fun st' => if (pos st <? pos st')%nat
                                 then lazy_loop body k n' st' else None) st
      end
  end.

Fixpoint run (r : regex) (k : mstate -> option mstate) (st : mstate)
  : option mstate :=
  match r with
  | Eps => k st
  | Chr c =>
      match rest st with
      | x :: xs => if x =? c then k (advance st xs) else None
      | [] => None
      end
  | Cls p =>
      match rest st with
      | x :: xs => if p x then k (advance st xs) else None
      | [] => None
      end
  | Seq r1 r2 => run r1 (run r2 k) st
  | Alt r1 r2 =>
      match run r1 k st with
      | Some m => Some m
      | None => run r2 k st
      end
  | Opt r1 =>
      match run r1 k st with
      | Some m => Some m
      | None => k st
      end
  | Star r1 => star_loop (run r1) k (length (rest st)) st
  | LazyStar r1 => lazy_loop (run r1) k (length (rest st)) st
  | Group n r1 => run r1 (fun st' => k (capture n st st')) st
  | Ahead r1 =>
      match run r1 Some st with
      | Some _ => k st
      | None => None
      end
  | Bol => if (pos st =? 0)%nat then k st else None
  end.

(** A match object. *)
Record re_match_obj := {
  m_string : text;
  m_start : nat;
  m_end : nat;
  m_caps : list (nat * text)
}.

Fixpoint lookup_cap (n : nat) (cs : list (nat * text)) : option text :=
  match cs with
  | [] => None
  | (i, t) :: cs' => if (i =? n)%nat then Some t else lookup_cap n cs'
  end.

(** [m.group(0)] *)
Definition group0 (m : re_match_obj) : text :=
  firstn (m_end m - m_start m) (skipn (m_start m) (m_string m)).

(** [m.group(n)] for [n >= 1]: [None] when the group took no part. *)
Definition group (n : nat) (m : re_match_obj) : option text :=
  lookup_cap n (m_caps m).

(** One attempt at position [p]; with [must_advance] an empty match there
    is refused and the matcher backtracks. *)
Definition match_at (r : regex) (must_advance : bool) (p : nat) (s : text)
  : option mstate :=
  run r (fun st' => if must_advance && (pos st' =? p)%nat
                    then None else Some st')
      {| pos := p; rest := s; caps := [] |}.

(** [re.match(r, s)] *)
Definition re_match (r : regex) (s : text) : option re_match_obj :=
  match match_at r false 0 s with
  | Some st' => Some {| m_string := s; m_start := 0; m_end := pos st';
                        m_caps := caps st' |}
  | None => None
  end.

(** The scan of [re.search]: [s] is what is left of the subject at
    position [p]; [must_advance] holds for the first attempt only. *)
Fixpoint search_go (r : regex) (must_advance : bool) (p : nat) (s : text)
  : option (nat * mstate) :=
  match match_at r must_advance p s with
  | Some st' => Some (p, st')
  | None =>
      match s with
      | [] => None
      | _ :: s' => search_go r false (S p) s'
      end
  end.

(** [re.search(r, s)] *)
Definition re_search (r : regex) (s : text) : option re_match_obj :=
  match search_go r false 0 s with
  | Some (b, st') => Some {| m_string := s; m_start := b; m_end := pos st';
                             m_caps := caps st' |}
  | None => None
  end.

(** The loop of [re.sub(r, repl, s)] for a literal [repl] (Python 3.7 and
    later): the next search starts where the last match ended, and must
    advance when that match was empty. *)
Fixpoint sub_go (fuel : nat) (r : regex) (repl : text) (must_advance : bool)
  (p : nat) (s : text) : text :=
  match fuel with
  | O => s
  | S fuel' =>
      match search_go r must_advance p s with
      | None => s
      | Some (b, st') =>
          firstn (b - p) s ++ repl ++
          sub_go fuel' r repl (pos st' =? b)%nat (pos st') (rest st')
      end
  end.

Definition re_sub (r : regex) (repl s : text) : text :=
  sub_go (2 * length s + 2) r repl false 0 s.

(** ** The Unicode database

    [unicodedata.normalize] and the character classes behind [\d] and [\w]
    are tables of the Python runtime, not of the repository: the model takes
    them as an interface. *)
Class UnicodeData := {
  nfkc : text -> text;      (* unicodedata.normalize('NFKC', _) *)
  isdecimal : N -> bool;    (* category Nd: what \d matches *)
  isalnum : N -> bool       (* str.isalnum; with '_', what \w matches *)
}.

(** ** HindiOCREngine.normalize_text *)

Section Normalizer.
Context {U : UnicodeData}.

(** The characters that [[^\u0000-\u007F\u0900-\u097F\s]] does not match. *)
Definition keep_char (c : N) : bool :=
  (c <=? 0x7F) || ((0x900 <=? c) && (c <=? 0x97F)) || isspace c.

(** [re.sub(r'[^\u0000-\u007F\u0900-\u097F\s]', '', s)] *)
Definition remove_broken (s : text) : text :=
  re_sub (Cls (fun c => negb (keep_char c))) [] s.

Definition replacements : dict text :=
  dict_display
    [ (utf8 "0", utf8 "०"); (utf8 "1", utf8 "१"); (utf8 "2", utf8 "२");
      (utf8 "3", utf8 "३"); (utf8 "4", utf8 "४"); (utf8 "5", utf8 "५");
      (utf8 "6", utf8 "६"); (utf8 "7", utf8 "७"); (utf8 "8", utf8 "८");
      (utf8 "9", utf8 "९");
      (utf8 "|", utf8 "।"); (utf8 "-", utf8 "—"); (utf8 "`", utf8 "‘");
      (utf8 "'", utf8 "’");
      ([34], utf8 "“"); ([34], utf8 "”") ].

(** [for old, new in d.items(): s = s.replace(old, new)] *)
Definition replace_all (d : dict text) (s : text) : text :=
  fold_left (fun acc kv => str_replace (fst kv) (snd kv) acc) d s.

(** [re.sub(r'\s+', ' ', s)] *)
Definition collapse_spaces (s : text) : text := re_sub (Plus space) [32] s.

(** [re.sub(r'\n\s*', '\n', s)] *)
Definition normalize_linebreaks (s : text) : text :=
  re_sub (Seq (Chr 10) (Star space)) [10] s.

Definition matra_fixes : dict text :=
  dict_display
    [ (utf8 "ा ", utf8 "ा"); (utf8 "े ", utf8 "े"); (utf8 "ै ", utf8 "ै");
      (utf8 "ो ", utf8 "ो"); (utf8 "ौ ", utf8 "ौ"); (utf8 "ी ", utf8 "ी") ].

Definition fix_matras (s : text) : text := replace_all matra_fixes s.

Definition normalize_text (s : text) : text :=
  let normalized := nfkc s in
  let normalized := remove_broken normalized in
  let normalized := replace_all replacements normalized in
  let normalized := collapse_spaces normalized in
  let normalized := normalize_linebreaks normalized in
  let normalized := fix_matras normalized in
  strip normalized.

End Normalizer.

(** ** MCQDetector *)

Section MCQDetector.
Context {U : UnicodeData}.

(** [\d] and [[^\d\W]] *)
Definition digit : regex := Cls isdecimal.
Definition is_word (c : N) : bool := isalnum c || (c =? 95).
Definition letter : regex := Cls (fun c => negb (isdecimal c || negb (is_word c))).

Definition latin_lead : regex := Cls (fun c => Range 65 68 c || Range 97 100 c).

(** [self.question_patterns] *)
Definition question_patterns : list regex :=
  [ (* प्रश्न\s*(\d+)\. *)
    Seq (Lit (utf8 "प्रश्न")) (Seq (Star space) (Seq (Group 1 (Plus digit)) (Chr 46)));
    (* Q\.?\s*(\d+) *)
    Seq (Chr 81) (Seq (Opt (Chr 46)) (Seq (Star space) (Group 1 (Plus digit))));
    (* (\d+)\. *)
    Seq (Group 1 (Plus digit)) (Chr 46);
    (* \((\d+)\) *)
    Seq (Chr 40) (Seq (Group 1 (Plus digit)) (Chr 41)) ].

(** [self.option_patterns] *)
Definition option_patterns : list regex :=
  [ (* [A-Da-d]\) *)
    Seq latin_lead (Chr 41);
    (* [A-Da-d]\. *)
    Seq latin_lead (Chr 46);
    (* \((क|ख|ग|घ|च|छ|ज|झ)\) *)
    Seq (Chr 40)
      (Seq (Group 1 (Alt (Lit (utf8 "क")) (Alt (Lit (utf8 "ख")) (Alt (Lit (utf8 "ग"))
              (Alt (Lit (utf8 "घ")) (Alt (Lit (utf8 "च")) (Alt (Lit (utf8 "छ"))
              (Alt (Lit (utf8 "ज")) (Lit (utf8 "झ"))))))))))
         (Chr 41));
    (* (\d+)\. *)
    Seq (Group 1 (Plus digit)) (Chr 46) ].

(** [^.*?(?=[^\d\W])]: what [re.sub] deletes from a question line. *)
Definition question_lead : regex :=
  Seq Bol (Seq (LazyStar Dot) (Ahead letter)).

(** The loops [for pattern in ...: match = ...; if match: break]. *)
Fixpoint first_match (f : regex -> text -> option re_match_obj)
  (patterns : list regex) (line : text) : option re_match_obj :=
  match patterns with
  | [] => None
  | r :: rs =>
      match f r line with
      | Some m => Some m
      | None => first_match f rs line
      end
  end.

Definition question_match (line : text) : option re_match_obj :=
  first_match re_search question_patterns line.

Definition option_match (line : text) : option re_match_obj :=
  first_match re_match option_patterns line.

(** An entry of the returned list. *)
Record question := {
  question_number : option text;   (* match.group(1) *)
  question_text : text;
  options : list text;
  correct_answer : option text
}.

(** The dict [current_question]. *)
Record current := { number : option text; text_of : text }.

(** The variables of the loop of [extract_questions]. *)
Record parser := {
  questions : list question;
  current_question : option current;
  current_options : list text
}.

Definition start : parser :=
  {| questions := []; current_question := None; current_options := [] |}.

(** [if current_question and current_options: questions.append({...})] *)
Definition save (st : parser) : list question :=
  match current_question st, current_options st with
  | Some cq, _ :: _ =>
      questions st ++
      [ {| question_number := number cq;
           question_text := strip (text_of cq);
           options := map strip (current_options st);
           correct_answer := None |} ]
  | _, _ => questions st
  end.

(** The body of [for line in lines]. *)
Definition step (st : parser) (raw : text) : parser :=
  let line := strip raw in
  match line with
  | [] => st
  | _ :: _ =>
      match question_match line with
      | Some m =>
          {| questions := save st;
             current_question :=
               Some {| number := group 1 m;
                       text_of := re_sub question_lead [] line |};
             current_options := [] |}
      | None =>
          match option_match line, current_question st with
          | Some m, Some _ =>
              {| questions := questions st;
                 current_question := current_question st;
                 current_options :=
                   current_options st ++
                   [strip (skipn (length (group0 m)) line)] |}
          | _, Some cq =>
              {| questions := questions st;
                 current_question :=
                   Some {| number := number cq;
                           text_of := text_of cq ++ 32 :: line |};
                 current_options := current_options st |}
          | _, None => st
          end
      end
  end.

Definition parse_lines (st : parser) (lines : list text) : parser :=
  fold_left step lines st.

Definition extract_questions (t : text) : list question :=
  save (parse_lines start (split_lines t)).

End MCQDetector.

(** ** Calls that may raise

    What a call into a library (pytesseract, pdfminer, PyMuPDF) yields:
    a value, or an exception. *)
Inductive outcome (A : Type) : Type :=
| Returns (a : A)
| Raises.
Arguments Raises {A}.

(** ** HindiOCREngine.get_ocr_confidence *)

(** [pytesseract.image_to_data(..., output_type=Output.DICT)]: one list per
    column; pytesseract parses the [conf] column to integers. *)
Record ocr_data := { data_conf : list Z; data_text : list text }.

(** The loop [for i, conf in enumerate(data['conf'])]: [data['text'][i]]
    is read only when [conf != -1] holds, and raises IndexError when the
    column is too short. *)
Fixpoint confidences_from (i : nat) (confs : list Z) (texts : list text)
  (confidences : list Z) : outcome (list Z) :=
  match confs with
  | [] => Returns confidences
  | conf :: confs' =>
      if (conf =? -1)%Z then confidences_from (S i) confs' texts confidences
      else
        match nth_error texts i with
        | None => Raises
        | Some t =>
            match strip t with
            | [] => confidences_from (S i) confs' texts confidences
            | _ :: _ =>
                confidences_from (S i) confs' texts (confidences ++ [conf])
            end
        end
  end.

Definition sumZ (l : list Z) : Z := fold_left Z.add l 0%Z.

(** The score: [sum(confidences) / len(confidences)] is Python's true
    division of two integers, here the exact rational that the returned
    float rounds. *)
Definition get_ocr_confidence (data : outcome ocr_data) : Q :=
  match data with
  | Raises => 0%Q
  | Returns d =>
      match confidences_from 0 (data_conf d) (data_text d) [] with
      | Raises => 0%Q
      | Returns [] => 0%Q
      | Returns confidences =>
          (inject_Z (sumZ confidences)
           / inject_Z (Z.of_nat (length confidences)))%Q
      end
  end.

(** ** PDFHandler.is_text_based *)

(** [text.strip() and len(text.strip()) > 100] *)
Definition enough_text (t : text) : bool :=
  match strip t with
  | [] => false
  | _ :: _ => (100 <? length (strip t))%nat
  end.

(** [pdfminer] is what [extract_text(pdf_path)] yields; [fitz_pages] is what
    [fitz.open] and the [page.get_text()] calls yield, page by page, or an
    exception anywhere among them. *)
Definition is_text_based (pdfminer : outcome text)
  (fitz_pages : outcome (list text)) : bool :=
  let first :=
    match pdfminer with
    | Returns t => enough_text t
    | Raises => false
    end in
  if first then true
  else
    match fitz_pages with
    | Returns pages =>
        let t := fold_left (fun acc page => acc ++ page) pages [] in
        if enough_text t then true else false
    | Raises => false
    end.

(** ** MCQDetector.detect_correct_answer *)

Definition kha_gha : regex :=
  Alt (Lit (utf8 "क")) (Alt (Lit (utf8 "ख")) (Alt (Lit (utf8 "ग")) (Lit (utf8 "घ")))).

(** [\s*[:=]\s*([A-Da-d]|\(?(क|ख|ग|घ)\)?)] *)
Definition answer_tail : regex :=
  Seq (Star space)
    (Seq (Cls (fun c => (c =? 58) || (c =? 61)))
       (Seq (Star space)
          (Group 1 (Alt latin_lead
                      (Seq (Opt (Chr 40)) (Seq (Group 2 kha_gha) (Opt (Chr 41)))))))).

Definition answer_patterns : list regex :=
  [ Seq (Lit (utf8 "सही उत्तर")) answer_tail;
    Seq (Lit (utf8 "Answer")) answer_tail ].

(** [str.upper]: the characters group 1 can hold are the Latin letters A-D
    and a-d, the parentheses and the caseless letters क ख ग घ, on which
    upper-casing is this map. *)
Definition upper (s : text) : text :=
  map (fun c => if Range 97 122 c then c - 32 else c) s.

Fixpoint lstrip_chars (cs : text) (s : text) : text :=
  match s with
  | [] => []
  | c :: s' => if existsb (N.eqb c) cs then lstrip_chars cs s' else s
  end.

(** [s.strip(cs)] *)
Definition strip_chars (cs : text) (s : text) : text :=
  lstrip_chars cs (rev (lstrip_chars cs (rev s))).

Definition answer_map : dict text :=
  dict_display
    [ (utf8 "A", utf8 "A"); (utf8 "B", utf8 "B"); (utf8 "C", utf8 "C");
      (utf8 "D", utf8 "D");
      (utf8 "क", utf8 "A"); (utf8 "ख", utf8 "B"); (utf8 "ग", utf8 "C");
      (utf8 "घ", utf8 "D");
      (utf8 "च", utf8 "E"); (utf8 "छ", utf8 "F"); (utf8 "ज", utf8 "G");
      (utf8 "झ", utf8 "H") ].

Definition normalize_answer (answer : text) : option text :=
  dict_get (strip_chars (utf8 "()") answer) answer_map.

(** [match.group(1).strip().upper()] raises AttributeError on a group that
    took no part. *)
Fixpoint detect_in (patterns : list regex) (question_text : text)
  : outcome (option text) :=
  match patterns with
  | [] => Returns None
  | r :: rs =>
      match re_search r question_text with
      | Some m =>
          match group 1 m with
          | Some g => Returns (normalize_answer (upper (strip g)))
          | None => Raises
          end
      | None => detect_in rs question_text
      end
  end.

Definition detect_correct_answer (question_text : text) (options : list text)
  : outcome (option text) :=
  detect_in answer_patterns question_text.

(** ** HindiOCREngine.preprocess_image

    The OpenCV and numpy calls of the function, as an interface: images,
    matrices and contours are values of the library, every [cv2] call may
    raise, and the angle of [cv2.minAreaRect] is taken as a rational. *)

Definition bind {A B} (c : outcome A) (k : A -> outcome B) : outcome B :=
  match c with
  | Returns a => k a
  | Raises => Raises
  end.

Notation "x <- c ;; k" := (bind c (fun x => k))
  (at level 61, c at next level, right associativity).

Class OpenCV := {
  image : Type;
  matrix : Type;
  contour : Type;
  (* cv2.imread(path): None when the file cannot be read *)
  imread : text -> option image;
  (* cv2.cvtColor(img, cv2.COLOR_BGR2GRAY) *)
  cvtColor_gray : option image -> outcome image;
  (* cv2.medianBlur(gray, 3) and cv2.GaussianBlur(gray, (5, 5), 0) *)
  medianBlur : image -> outcome image;
  GaussianBlur : image -> outcome image;
  (* cv2.adaptiveThreshold(gray, 255, GAUSSIAN_C, THRESH_BINARY_INV, 11, 2) *)
  adaptiveThreshold : image -> outcome image;
  (* np.column_stack(np.where(thresh > 0)) *)
  nonzero_coords : image -> list (Z * Z);
  (* cv2.minAreaRect(coords)[-1] *)
  minAreaRect_angle : list (Z * Z) -> outcome Q;
  (* img.shape[:2] *)
  shape : image -> Z * Z;
  (* cv2.getRotationMatrix2D(center, angle, 1.0) *)
  getRotationMatrix2D : Z * Z -> Q -> outcome matrix;
  (* cv2.warpAffine(thresh, M, (w, h), INTER_CUBIC, BORDER_REPLICATE) *)
  warpAffine : image -> matrix -> Z * Z -> outcome image;
  (* cv2.createCLAHE(clipLimit=2.0, tileGridSize=(8, 8)).apply(rotated) *)
  clahe_apply : image -> outcome image;
  (* cv2.copyMakeBorder(rotated, 5, 5, 5, 5, BORDER_CONSTANT, [0,0,0]) *)
  copyMakeBorder : image -> outcome image;
  (* cv2.findContours(img, RETR_EXTERNAL, CHAIN_APPROX_SIMPLE)[0] *)
  findContours : image -> outcome (list contour);
  contourArea : contour -> outcome Q;
  (* cv2.boundingRect(c): x, y, w, h *)
  boundingRect : contour -> outcome (Z * Z * Z * Z);
  (* img[y:y+h, x:x+w] *)
  crop : image -> Z * Z * Z * Z -> image;
  (* cv2.resize(img, None, fx=2.0, fy=2.0, interpolation=INTER_CUBIC) *)
  resize : image -> outcome image;
  (* the number of channels of an array *)
  channels : image -> nat
}.

Section Preprocess.
Context {cv : OpenCV}.

(** [if angle < -45: angle = -(90 + angle) else: angle = -angle] *)
Definition correct_angle (angle : Q) : Q :=
  if Qle_bool (-45) angle then (- angle)%Q else (- (90 + angle))%Q.

(** [max(contours, key=cv2.contourArea)] on a non-empty sequence: the
    first contour of largest area. *)
Fixpoint max_from (best : contour) (area : Q) (cs : list contour)
  : outcome contour :=
  match cs with
  | [] => Returns best
  | c :: cs' =>
      a <- contourArea c ;;
      if Qle_bool a area then max_from best area cs' else max_from c a cs'
  end.

Definition max_contour (c : contour) (cs : list contour) : outcome contour :=
  a <- contourArea c ;; max_from c a cs.

(** The lines of the function up to the border removal: the deskewed
    binary image [rotated]. *)
Definition deskew (image_path : text) (enhance : bool) : outcome image :=
  let img := imread image_path in
  gray <- cvtColor_gray img ;;
  gray <- (if enhance
           then (g <- medianBlur gray ;; GaussianBlur g)
           else Returns gray) ;;
  thresh <- adaptiveThreshold gray ;;
  let coords := nonzero_coords thresh in
  angle <- minAreaRect_angle coords ;;
  let angle := correct_angle angle in
  match img with
  | None => Raises                      (* None has no attribute shape *)
  | Some img =>
      let '(h, w) := shape img in
      let center := ((w / 2)%Z, (h / 2)%Z) in
      M <- getRotationMatrix2D center angle ;;
      rotated <- warpAffine thresh M (w, h) ;;
      if enhance then clahe_apply rotated else Returns rotated
  end.

Definition preprocess_image (image_path : text) (enhance : bool)
  : outcome image :=
  rotated <- deskew image_path enhance ;;
  contour_img <- copyMakeBorder rotated ;;
  contours <- findContours contour_img ;;
  rotated <- match contours with
             | [] => Returns rotated
             | c :: cs =>
                 max_c <- max_contour c cs ;;
                 box <- boundingRect max_c ;;
                 Returns (crop contour_img box)
             end ;;
  resize rotated.

End Preprocess.

(** What it takes for [preprocess_image] to return: the read and every
    OpenCV call in its path return. *)
Section PreprocessCalls.
Context {cv : OpenCV}.

(** Every call of the lines up to the border removal returns, and
    [rotated] is what the last of them gives. *)
Definition deskew_calls_return (image_path : text) (enhance : bool)
  (rotated : image) : Prop :=
  exists img gray smooth thresh angle M warped,
    imread image_path = Some img
    /\ cvtColor_gray (Some img) = Returns gray
    /\ (if enhance
        then exists g, medianBlur gray = Returns g /\ GaussianBlur g = Returns smooth
        else smooth = gray)
    /\ adaptiveThreshold smooth = Returns thresh
    /\ minAreaRect_angle (nonzero_coords thresh) = Returns angle
    /\ getRotationMatrix2D ((snd (shape img) / 2)%Z, (fst (shape img) / 2)%Z)
         (correct_angle angle) = Returns M
    /\ warpAffine thresh M (snd (shape img), fst (shape img)) = Returns warped
    /\ (if enhance then clahe_apply warped = Returns rotated else rotated = warped).

(** Every call of [preprocess_image] returns, and [out] is what
    [cv2.resize] gives at the end. *)
Definition calls_return (image_path : text) (enhance : bool) (out : image) : Prop :=
  exists rotated contour_img contours cropped,
    deskew_calls_return image_path enhance rotated
    /\ copyMakeBorder rotated = Returns contour_img
    /\ findContours contour_img = Returns contours
    /\ match contours with
       | [] => cropped = rotated
       | c :: cs =>
           exists max_c box,
             max_contour c cs = Returns max_c
             /\ boundingRect max_c = Returns box
             /\ cropped = crop contour_img box
       end
    /\ resize cropped = Returns out.

End PreprocessCalls.

(** ** HindiOCREngine.extract_text

    The PIL and pytesseract calls of the engine, as an interface over the
    arrays of OpenCV; every call may raise. *)

Class Tesseract {cv : OpenCV} := {
  pil_image : Type;
  (* Image.fromarray(array) *)
  fromarray : image -> outcome pil_image;
  (* Image.open(path) *)
  image_open : text -> outcome pil_image;
  (* pytesseract.image_to_string(img, lang=lang, config='--oem 3 --psm 6') *)
  image_to_string : pil_image -> text -> outcome text;
  (* pytesseract.image_to_data(img, lang='hin', output_type=Output.DICT) *)
  image_to_data : pil_image -> outcome ocr_data
}.

Section Engine.
Context {U : UnicodeData} {cv : OpenCV} {ts : Tesseract}.

Definition extract_text (image_path : text) (enhance : bool) (lang : text)
  : outcome text :=
  preprocessed_img <- preprocess_image image_path enhance ;;
  pil_image <- fromarray preprocessed_img ;;
  t <- image_to_string pil_image lang ;;
  Returns (normalize_text t).

(** [get_ocr_confidence(image_path)]: the score of what
    [image_to_data(Image.open(image_path), ...)] yields. *)
Definition get_ocr_confidence_at (image_path : text) : Q :=
  get_ocr_confidence (img <- image_open image_path ;; image_to_data img).

End Engine.

(** ** PDFHandler: the pages of a PDF *)

(** [str(n)] for a natural number. *)
Fixpoint uint_text (d : Decimal.uint) : text :=
  match d with
  | Decimal.Nil => []
  | Decimal.D0 d' => 48 :: uint_text d'
  | Decimal.D1 d' => 49 :: uint_text d'
  | Decimal.D2 d' => 50 :: uint_text d'
  | Decimal.D3 d' => 51 :: uint_text d'
  | Decimal.D4 d' => 52 :: uint_text d'
  | Decimal.D5 d' => 53 :: uint_text d'
  | Decimal.D6 d' => 54 :: uint_text d'
  | Decimal.D7 d' => 55 :: uint_text d'
  | Decimal.D8 d' => 56 :: uint_text d'
  | Decimal.D9 d' => 57 :: uint_text d'
  end.

Definition str_of_nat (n : nat) : text := uint_text (Nat.to_uint n).

(** [f"=== Page {page_num + 1} ==="], the first line of what
    [extract_text_from_text_pdf] appends for a page. *)
Definition page_marker (page_num : nat) : text :=
  utf8 "=== Page " ++ str_of_nat (page_num + 1) ++ utf8 " ===".

(** [for page_num, page in enumerate(doc): full_text.append(...)] *)
Fixpoint full_text (page_num : nat) (pages : list text) : list text :=
  match pages with
  | [] => []
  | t :: pages' =>
      (page_marker page_num ++ 10 :: t) :: full_text (S page_num) pages'
  end.

(** [fitz_pages] is what [fitz.open] and the [page.get_text()] calls
    yield, page by page, or an exception anywhere among them. *)
Definition extract_text_from_text_pdf (fitz_pages : outcome (list text)) : text :=
  match fitz_pages with
  | Returns pages => join_lines (full_text 0 pages)
  | Raises => []
  end.

(** [os.path.join(a, b)], as [posixpath] defines it. *)
Definition os_path_join (a b : text) : text :=
  if starts_with [47] b then b
  else
    match rev a with
    | [] => b
    | c :: _ => if c =? 47 then a ++ b else a ++ 47 :: b
    end.

(** [f"page_{i+1}.png"] *)
Definition page_file (i : nat) : text :=
  utf8 "page_" ++ str_of_nat (i + 1) ++ utf8 ".png".

(** An entry of [page_texts], and the dict that [extract_text_from_pdf]
    returns; the key ['text'] of a page is [page_text] here. *)
Record page := { page_number : nat; page_text : text; confidence : Q }.

Record extraction := { type : text; pages : list page }.

Section Convert.
(** The images of [convert_from_path] and their [img.save(img_path, 'PNG')]. *)
Variable pdf_image : Type.
Variable save_png : pdf_image -> text -> outcome unit.

(** [for i, img in enumerate(images)] *)
Fixpoint save_pages (temp_dir : text) (i : nat) (images : list pdf_image)
  (image_paths : list text) : outcome (list text) :=
  match images with
  | [] => Returns image_paths
  | img :: images' =>
      let img_path := os_path_join temp_dir (page_file i) in
      _ <- save_png img img_path ;;
      save_pages temp_dir (S i) images' (image_paths ++ [img_path])
  end.

(** [images] is what [convert_from_path(pdf_path, dpi=dpi,
    output_folder=self.temp_dir, fmt='png', thread_count=4)] yields. *)
Definition convert_scanned_pdf_to_images (temp_dir : text)
  (images : outcome (list pdf_image)) : list text :=
  match (imgs <- images ;; save_pages temp_dir 0 imgs []) with
  | Returns image_paths => image_paths
  | Raises => []
  end.

Context {U : UnicodeData} {cv : OpenCV} {ts : Tesseract}.

(** The body of [for i, img_path in enumerate(image_paths)]. *)
Definition ocr_page (i : nat) (img_path : text) : page :=
  match extract_text img_path false (utf8 "hin") with
  | Returns t =>
      {| page_number := i + 1; page_text := t;
         confidence := get_ocr_confidence_at img_path |}
  | Raises => {| page_number := i + 1; page_text := []; confidence := 0 |}
  end.

Fixpoint ocr_pages (i : nat) (image_paths : list text) (page_texts : list page)
  : list page :=
  match image_paths with
  | [] => page_texts
  | img_path :: image_paths' =>
      ocr_pages (S i) image_paths' (page_texts ++ [ocr_page i img_path])
  end.

(** The clean-up loop [os.remove(img_path)] swallows its exceptions and
    does not touch [page_texts]. *)
Definition extract_text_from_scanned_pdf (temp_dir : text)
  (images : outcome (list pdf_image)) : list page :=
  ocr_pages 0 (convert_scanned_pdf_to_images temp_dir images) [].

(** [pdfminer] and [fitz_pages] are what [is_text_based] reads;
    [fitz_again] is what the second [fitz.open], in
    [extract_text_from_text_pdf], yields. *)
Definition extract_text_from_pdf (pdfminer : outcome text)
  (fitz_pages fitz_again : outcome (list text)) (temp_dir : text)
  (images : outcome (list pdf_image)) : extraction :=
  if is_text_based pdfminer fitz_pages
  then {| type := utf8 "text";
          pages := [ {| page_number := 1;
                        page_text := extract_text_from_text_pdf fitz_again;
                        confidence := 100 |} ] |}
  else {| type := utf8 "scanned";
          pages := extract_text_from_scanned_pdf temp_dir images |}.

End Convert.

(** ** A Unicode table for evaluation

    The rows of the Unicode database for U+0000..U+007F and the Devanagari
    block U+0900..U+097F (Unicode 14, as [str.isalnum] and [\d] report
    them).  Outside these two blocks the table answers [false], and [nfkc]
    leaves its argument alone: NFKC is the identity on texts of ASCII
    characters, Devanagari letters, signs, digits and danda other than the
    nukta forms, and the punctuation U+2014, U+2018, U+2019, U+201C,
    U+201D.  The instance serves the evaluations on such texts below. *)

Definition table_isdecimal (c : N) : bool :=
  Range 48 57 c || Range 0x966 0x96F c.

Definition table_isalnum (c : N) : bool :=
  Range 48 57 c || Range 65 90 c || Range 97 122 c
  || Range 0x904 0x939 c || (c =? 0x93D) || (c =? 0x950)
  || Range 0x958 0x961 c || Range 0x966 0x96F c || Range 0x971 0x97F c.

#[export] Instance ascii_devanagari : UnicodeData :=
  {| nfkc := fun s => s;
     isdecimal := table_isdecimal;
     isalnum := table_isalnum |}.

(** ** An OpenCV stand-in for evaluation

    A library in which an array is known by its number of channels and the
    only readable file is [page.png]; it has no contours to report. *)
#[export] Instance channel_count_cv : OpenCV :=
  {| image := nat;
     matrix := unit;
     contour := unit;
     imread := fun path => if text_eqb path (utf8 "page.png") then Some 3%nat else None;
     cvtColor_gray := fun img => match img with Some _ => Returns 1%nat | None => Raises end;
     medianBlur := fun i => Returns i;
     GaussianBlur := fun i => Returns i;
     adaptiveThreshold := fun _ => Returns 1%nat;
     nonzero_coords := fun _ => [];
     minAreaRect_angle := fun _ => Returns 0%Q;
     shape := fun _ => (0%Z, 0%Z);
     getRotationMatrix2D := fun _ _ => Returns tt;
     warpAffine := fun i _ _ => Returns i;
     clahe_apply := fun i => Returns i;
     copyMakeBorder := fun i => Returns i;
     findContours := fun _ => Returns [];
     contourArea := fun _ => Returns 0%Q;
     boundingRect := fun _ => Returns (0%Z, 0%Z, 0%Z, 0%Z);
     crop := fun i _ => i;
     resize := fun i => Returns i;
     channels := fun i => i |}.

(** ** A second OpenCV stand-in

    A library in which an array is known by its number of channels and its
    shape (rows, columns): [page.png] is 100 by 80 and [banner.png] 40 by
    40000, both in three channels.  Padding adds five pixels on every
    side, resizing doubles both sides, [warpAffine] raises on a target
    with a side of 32767 pixels or more, and no contour is reported. *)
Definition shape_cv : OpenCV :=
  {| image := nat * (Z * Z);
     matrix := unit;
     contour := unit;
     imread := fun path =>
       if text_eqb path (utf8 "page.png") then Some (3%nat, (100, 80)%Z)
       else if text_eqb path (utf8 "banner.png") then Some (3%nat, (40, 40000)%Z)
       else None;
     cvtColor_gray := fun img =>
       match img with Some i => Returns (1%nat, snd i) | None => Raises end;
     medianBlur := fun i => Returns i;
     GaussianBlur := fun i => Returns i;
     adaptiveThreshold := fun i => Returns (1%nat, snd i);
     nonzero_coords := fun _ => [(0, 0)%Z];
     minAreaRect_angle := fun _ => Returns 0%Q;
     shape := fun i => snd i;
     getRotationMatrix2D := fun _ _ => Returns tt;
     warpAffine := fun i _ size =>
       if ((32767 <=? fst size) || (32767 <=? snd size))%Z then Raises
       else Returns (fst i, (snd size, fst size));
     clahe_apply := fun i => Returns i;
     copyMakeBorder := fun i =>
       Returns (fst i, (fst (snd i) + 10, snd (snd i) + 10)%Z);
     findContours := fun _ => Returns [];
     contourArea := fun _ => Returns 0%Q;
     boundingRect := fun _ => Returns (0, 0, 0, 0)%Z;
     crop := fun i box => (fst i, (snd box, snd (fst box)));
     resize := fun i => Returns (fst i, (2 * fst (snd i), 2 * snd (snd i))%Z);
     channels := fun i => fst i |}.

(** ** Shapes of text used in the statements *)

(** The characters that [replacements] rewrites, and the typographic marks
    it puts in for hyphen, backtick and the two quotes. *)
Definition replaced_chars : text := flat_map fst replacements.

Definition typographic : text := [0x2014; 0x2018; 0x2019; 0x201D].

Definition no_typographic (s : text) : bool :=
  forallb (fun c => negb (existsb (N.eqb c) typographic)) s.

Definition head_nonspace (s : text) : bool :=
  match s with
  | [] => true
  | c :: _ => negb (isspace c)
  end.

(** Every whitespace character is a single U+0020 between two others. *)
Fixpoint spaced (s : text) : bool :=
  match s with
  | [] => true
  | c :: t =>
      (if isspace c then (c =? 32) && head_nonspace t else true) && spaced t
  end.

Definition head_is_space (s : text) : bool :=
  match s with
  | [] => false
  | d :: _ => d =? 32
  end.

(** No occurrence of [m] followed by U+0020. *)
Fixpoint no_pair (m : N) (s : text) : bool :=
  match s with
  | [] => true
  | c :: t => negb ((c =? m) && head_is_space t) && no_pair m t
  end.

(** The number of characters that are not whitespace. *)
Definition non_whitespace (s : text) : nat :=
  length (filter (fun c => negb (isspace c)) s).

(** What the loop over [replacements] does to one character. *)
Definition substitute (c : N) : text :=
  match dict_get [c] replacements with
  | Some v => v
  | None => [c]
  end.

Definition not_key (c : N) : bool := negb (existsb (N.eqb c) replaced_chars).

Definition ok_char (c : N) : bool :=
  keep_char c || existsb (N.eqb c) typographic.

Definition matras : text := [0x93E; 0x947; 0x948; 0x94B; 0x94C; 0x940].

Definition no_matra_space (s : text) : bool :=
  forallb (fun m => no_pair m s) matras.

(** What every text that leaves [normalize_text] looks like. *)
Record normal_form (y : text) : Prop := {
  nf_spaced : spaced y = true;
  nf_matras : no_matra_space y = true;
  nf_keys : Forall (fun c => not_key c = true) y;
  nf_chars : Forall (fun c => ok_char c = true) y;
  nf_strip : strip y = y
}.

(** ** The three substitutions of the normalizer, character by character *)

(** What [re.sub(r'\s+', ' ', s)] computes: [in_run] says that the
    previous character belonged to the run being replaced. *)
Fixpoint collapse_go (in_run : bool) (s : text) : text :=
  match s with
  | [] => []
  | c :: s' =>
      if isspace c
      then if in_run then collapse_go true s' else 32 :: collapse_go true s'
      else c :: collapse_go false s'
  end.

(** What [re.sub(r'\n\s*', '\n', s)] computes: [in_run] says that a match
    is open. *)
Fixpoint linebreaks_go (in_run : bool) (s : text) : text :=
  match s with
  | [] => []
  | c :: s' =>
      if in_run && isspace c then linebreaks_go true s'
      else if c =? 10 then 10 :: linebreaks_go true s'
      else c :: linebreaks_go false s'
  end.

(** The length of the whitespace a text starts with. *)
Fixpoint ws_len (s : text) : nat :=
  match s with
  | [] => 0%nat
  | c :: s' => if isspace c then S (ws_len s') else 0%nat
  end.

(** [re.sub] for a pattern without groups that matches, at a text [c :: s'],
    the first [S k] characters when [hm (c :: s') = Some k] and nothing
    otherwise; [n] bounds the number of characters looked at. *)
Fixpoint sub_direct (n : nat) (hm : text -> option nat) (repl s : text) : text :=
  match n with
  | O => s
  | S n' =>
      match s with
      | [] => []
      | c :: s' =>
          match hm s with
          | Some k => repl ++ sub_direct n' hm repl (skipn k s')
          | None => c :: sub_direct n' hm repl s'
          end
      end
  end.

(** How much work is left for [sub_go]: two searches per character, one
    when the next one has to advance. *)
Definition sub_measure (must_advance : bool) (s : text) : nat :=
  2 * length s + (if must_advance then 0 else 1)%nat.

(** The head matchers of the three patterns of the normalizer. *)
Definition hm_broken (s : text) : option nat :=
  match s with
  | c :: _ => if negb (keep_char c) then Some 0%nat else None
  | [] => None
  end.

Definition hm_spaces (s : text) : option nat :=
  match s with
  | c :: s' => if isspace c then Some (ws_len s') else None
  | [] => None
  end.

Definition hm_newline (s : text) : option nat :=
  match s with
  | c :: s' => if c =? 10 then Some (ws_len s') else None
  | [] => None
  end.

(** ** Lines of the parser's input *)

(** [line.strip()] is not empty. *)
Definition nonblank (t : text) : bool :=
  match strip t with
  | [] => false
  | _ :: _ => true
  end.

Section Lines.
Context {U : UnicodeData}.

(** A line that starts a question, a line that is read as an option, and a
    line that is neither (blank, or the continuation of a question). *)
Definition header (raw : text) : bool :=
  match strip raw with
  | [] => false
  | _ :: _ => match question_match (strip raw) with
              | Some _ => true
              | None => false
              end
  end.

Definition option_line (raw : text) : bool :=
  match strip raw with
  | [] => false
  | _ :: _ => match question_match (strip raw), option_match (strip raw) with
              | None, Some _ => true
              | _, _ => false
              end
  end.

Definition plain (raw : text) : bool := negb (header raw) && negb (option_line raw).

(** [option_text = line[len(option_match.group(0)):].strip()] *)
Definition option_text (raw : text) : text :=
  match option_match (strip raw) with
  | Some m => strip (skipn (length (group0 m)) (strip raw))
  | None => []
  end.

(** A line that is appended to the text of the open question, and the text
    of a question after the lines [ls]:
    [current_question['text'] += ' ' + line]. *)
Definition continuation (raw : text) : bool :=
  nonblank raw && plain raw.

Definition continued (t : text) (ls : list text) : text :=
  t ++ concat (map (fun l => 32 :: strip l) (filter continuation ls)).

(** A captured question number: set, and a non-empty run of decimal
    digits. *)
Definition is_number (n : option text) : Prop :=
  exists d, n = Some d /\ d <> [] /\ Forall (fun c => isdecimal c = true) d.

(** What [[^\d\W]] matches: a word character that is not a digit. *)
Definition is_letter (c : N) : bool := negb (isdecimal c || negb (is_word c)).

(** The text from its first letter on, when it has one. *)
Fixpoint to_letter (s : text) : option text :=
  match s with
  | [] => None
  | c :: s' => if is_letter c then Some s else to_letter s'
  end.

(** A line from the first letter after its first character on, or the
    whole line when no letter stands there. *)
Definition drop_lead (line : text) : text :=
  match line with
  | [] => []
  | _ :: l => match to_letter l with
              | Some t => t
              | None => line
              end
  end.

End Lines.

(** The letters of the third option pattern: क ख ग घ च छ ज झ. *)
Definition devanagari_leads : text :=
  [0x915; 0x916; 0x917; 0x918; 0x91A; 0x91B; 0x91C; 0x91D].

(** ** What a pattern can reach

    [reach r a b]: the pattern [r] can take the matcher from state [a] to
    state [b]. *)

Inductive reach : regex -> mstate -> mstate -> Prop :=
| reach_eps a : reach Eps a a
| reach_chr c a xs : rest a = c :: xs -> reach (Chr c) a (advance a xs)
| reach_cls p a x xs :
    rest a = x :: xs -> p x = true -> reach (Cls p) a (advance a xs)
| reach_seq r1 r2 a b c :
    reach r1 a b -> reach r2 b c -> reach (Seq r1 r2) a c
| reach_alt_l r1 r2 a b : reach r1 a b -> reach (Alt r1 r2) a b
| reach_alt_r r1 r2 a b : reach r2 a b -> reach (Alt r1 r2) a b
| reach_opt_some r a b : reach r a b -> reach (Opt r) a b
| reach_opt_none r a : reach (Opt r) a a
| reach_star_nil r a : reach (Star r) a a
| reach_star_cons r a b c :
    reach r a b -> reach (Star r) b c -> reach (Star r) a c
| reach_lazy_nil r a : reach (LazyStar r) a a
| reach_lazy_cons r a b c :
    reach r a b -> reach (LazyStar r) b c -> reach (LazyStar r) a c
| reach_group n r a b : reach r a b -> reach (Group n r) a (capture n a b)
| reach_ahead r a b : reach r a b -> reach (Ahead r) a a
| reach_bol a : pos a = 0%nat -> reach Bol a a.

(** [needs c r]: the pattern [r] cannot match without reading the
    character [c]. *)
Fixpoint needs (c : N) (r : regex) : bool :=
  match r with
  | Chr c' => c' =? c
  | Seq r1 r2 => needs c r1 || needs c r2
  | Alt r1 r2 => needs c r1 && needs c r2
  | Group _ r1 => needs c r1
  | _ => false
  end.

(** ** Confidences and answers in the statements *)

(** The confidences that count: not the sentinel -1, and on a token that
    is more than whitespace. *)
Definition qualifying (d : ocr_data) : list Z :=
  map fst (filter (fun ct => negb (fst ct =? -1)%Z && nonblank (snd ct))
             (combine (data_conf d) (data_text d))).

Definition mean (l : list Z) : Q :=
  match l with
  | [] => 0%Q
  | _ :: _ => (inject_Z (sumZ l) / inject_Z (Z.of_nat (length l)))%Q
  end.

(** What group 1 of an answer pattern can hold. *)
Definition answer_tokens : list text :=
  map (fun c => [c]) [65; 66; 67; 68; 97; 98; 99; 100]
  ++ flat_map (fun c => [[c]; [c; 41]; [40; c]; [40; c; 41]])
       [0x915; 0x916; 0x917; 0x918].

Definition answer_letters : list text :=
  [utf8 "A"; utf8 "B"; utf8 "C"; utf8 "D"].

Definition resolves_to_letter (g : text) : bool :=
  match normalize_answer (upper (strip g)) with
  | Some l => existsb (text_eqb l) answer_letters
  | None => false
  end.

(** ** Sample inputs *)

Definition raw_sample : text := utf8 "  प्रश्न 1.   भारत की  राजधानी |  ".

Definition two_headers : list text :=
  [utf8 "1. What is the capital of India?"; utf8 "of the republic";
   utf8 "2. And of Nepal?"; utf8 "A) Kathmandu"; utf8 "B) Pokhara"].

Definition spec_sample : text :=
  join_lines
    [ utf8 "प्रश्न 1. एक संख्या का 20% 25 है तो वह संख्या क्या है?";
      utf8 "A) 100"; utf8 "B) 125"; utf8 "C) 150"; utf8 "D) 175";
      utf8 "";
      utf8 "Q.2. Which of these is the largest planet?";
      utf8 "A) Earth"; utf8 "B) Jupiter" ].

(** The state after one question header. *)
Definition in_question : parser := step start (utf8 "1. How far is it?").

Definition five_tokens : ocr_data :=
  {| data_conf := [80; -1; 60; 95; 90]%Z;
     data_text := [utf8 "भारत"; utf8 ""; utf8 "की"; utf8 ""; utf8 "राजधानी"] |}.

Definition no_tokens : ocr_data :=
  {| data_conf := [-1; -1; 70]%Z; data_text := [utf8 ""; utf8 "x"; utf8 "  "] |}.

Definition padded_100 : text := [32; 10] ++ repeat 97 100 ++ [32; 32; 10].

Definition spread_100 : text := repeat 97 50 ++ [32] ++ repeat 97 50.

(** ** A Tesseract stand-in for evaluation

    An engine that reads the same text and the same word table off every
    image, and opens [page.png] only. *)
#[export] Instance one_page_tesseract : @Tesseract channel_count_cv :=
  {| pil_image := nat;
     fromarray := fun img => Returns img;
     image_open := fun path => if text_eqb path (utf8 "page.png")
                               then Returns 1%nat else Raises;
     image_to_string := fun _ _ => Returns raw_sample;
     image_to_data := fun _ => Returns five_tokens |}.

(** * Properties *)

(** ** Stripping *)

Lemma lstrip_suffix (s : text) : exists pre, s = pre ++ lstrip s.
Proof.
  induction s as [|c s [pre IH]]; simpl.
  - exists []. reflexivity.
  - destruct (isspace c).
    + exists (c :: pre). simpl. now rewrite <- IH.
    + exists []. reflexivity.
Qed.

Lemma head_nonspace_lstrip (s : text) : head_nonspace (lstrip s) = true.
Proof.
  induction s as [|c s IH]; simpl; auto.
  destruct (isspace c) eqn:E; auto. simpl. now rewrite E.
Qed.

Lemma lstrip_fixed (s : text) : head_nonspace s = true -> lstrip s = s.
Proof.
  destruct s as [|c s]; simpl; auto.
  now destruct (isspace c).
Qed.

Lemma rstrip_suffix (s : text) : exists post, s = rstrip s ++ post.
Proof.
  unfold rstrip. destruct (lstrip_suffix (rev s)) as [pre E].
  exists (rev pre).
  rewrite <- rev_app_distr, <- E. now rewrite rev_involutive.
Qed.

Lemma strip_infix (s : text) : exists pre post, s = pre ++ strip s ++ post.
Proof.
  destruct (rstrip_suffix s) as [post E].
  destruct (lstrip_suffix (rstrip s)) as [pre E'].
  exists pre, post. unfold strip. rewrite app_assoc, <- E'. exact E.
Qed.

Lemma strip_strip (s : text) : strip (strip s) = strip s.
Proof.
  unfold strip at 1.
  assert (R : rstrip (strip s) = strip s).
  { unfold rstrip. rewrite lstrip_fixed; [apply rev_involutive|].
    unfold strip. destruct (lstrip_suffix (rstrip s)) as [pre E].
    assert (H : head_nonspace (rev (rstrip s)) = true).
    { unfold rstrip. rewrite rev_involutive. apply head_nonspace_lstrip. }
    rewrite E, rev_app_distr in H.
    destruct (rev (lstrip (rstrip s))); auto. }
  rewrite R. apply lstrip_fixed. apply head_nonspace_lstrip.
Qed.

(** ** Replacing *)

Lemma replace_go_Forall (P : N -> Prop) (old new : text) :
  Forall P new ->
  forall s k, Forall P s -> Forall P (replace_go old new k s).
Proof.
  intros Hn s. induction s as [|c s IH]; intros k Hs; simpl; auto.
  inversion Hs; subst. destruct k.
  - destruct (starts_with old (c :: s)).
    + apply Forall_app; auto.
    + constructor; auto.
  - auto.
Qed.

Lemma str_replace_Forall (P : N -> Prop) (old new s : text) :
  old <> [] -> Forall P new -> Forall P s -> Forall P (str_replace old new s).
Proof.
  intros Ho Hn Hs. destruct old; [congruence|]. simpl.
  now apply replace_go_Forall.
Qed.

Lemma replace_char (k : N) (v s : text) :
  str_replace [k] v s = flat_map (fun c => if k =? c then v else [c]) s.
Proof.
  simpl. induction s as [|c s IH]; simpl; auto.
  rewrite andb_true_r. destruct (k =? c); simpl; now rewrite IH.
Qed.

Lemma flat_map_flat_map (A B C : Type) (f : A -> list B) (g : B -> list C) (l : list A) :
  flat_map g (flat_map f l) = flat_map (fun a => flat_map g (f a)) l.
Proof.
  induction l as [|a l IH]; simpl; auto.
  now rewrite flat_map_app, IH.
Qed.

Lemma flat_map_single (A : Type) (f : A -> list A) (l : list A) :
  Forall (fun a => f a = [a]) l -> flat_map f l = l.
Proof.
  induction 1 as [|a l Ha _ IH]; simpl; auto.
  now rewrite Ha, IH.
Qed.

Ltac split_on_key c :=
  repeat (cbn [flat_map app]; rewrite ?app_nil_r;
          match goal with
          | |- context [?k =? c] =>
              destruct (N.eqb_spec k c); [subst c; vm_compute; reflexivity|]
          end).

Lemma replace_all_replacements (s : text) :
  replace_all replacements s = flat_map substitute s.
Proof.
  unfold replace_all.
  change replacements with
    [([48], [0x966]); ([49], [0x967]); ([50], [0x968]); ([51], [0x969]);
     ([52], [0x96A]); ([53], [0x96B]); ([54], [0x96C]); ([55], [0x96D]);
     ([56], [0x96E]); ([57], [0x96F]);
     ([124], [0x964]); ([45], [0x2014]); ([96], [0x2018]); ([39], [0x2019]);
     ([34], [0x201D])].
  cbn [fold_left fst snd].
  rewrite !replace_char, !flat_map_flat_map.
  apply flat_map_ext. intros c.
  unfold substitute.
  change replacements with
    [([48], [0x966]); ([49], [0x967]); ([50], [0x968]); ([51], [0x969]);
     ([52], [0x96A]); ([53], [0x96B]); ([54], [0x96C]); ([55], [0x96D]);
     ([56], [0x96E]); ([57], [0x96F]);
     ([124], [0x964]); ([45], [0x2014]); ([96], [0x2018]); ([39], [0x2019]);
     ([34], [0x201D])].
  cbn [dict_get text_eqb].
  split_on_key c. reflexivity.
Qed.

Ltac unfold_substitute c :=
  unfold substitute;
  change replacements with
    [([48], [0x966]); ([49], [0x967]); ([50], [0x968]); ([51], [0x969]);
     ([52], [0x96A]); ([53], [0x96B]); ([54], [0x96C]); ([55], [0x96D]);
     ([56], [0x96E]); ([57], [0x96F]);
     ([124], [0x964]); ([45], [0x2014]); ([96], [0x2018]); ([39], [0x2019]);
     ([34], [0x201D])];
  cbn [dict_get text_eqb].

Lemma not_key_unfold (c : N) :
  not_key c =
    negb ((48 =? c) || (49 =? c) || (50 =? c) || (51 =? c) || (52 =? c)
          || (53 =? c) || (54 =? c) || (55 =? c) || (56 =? c) || (57 =? c)
          || (124 =? c) || (45 =? c) || (96 =? c) || (39 =? c) || (34 =? c)).
Proof.
  unfold not_key.
  change replaced_chars with [48; 49; 50; 51; 52; 53; 54; 55; 56; 57; 124; 45; 96; 39; 34].
  cbn [existsb]. rewrite orb_false_r, !orb_assoc.
  now rewrite !(N.eqb_sym c).
Qed.

Lemma substitute_fixed (c : N) : not_key c = true -> substitute c = [c].
Proof.
  rewrite not_key_unfold. unfold_substitute c.
  repeat match goal with
         | |- context [?k =? c] => destruct (N.eqb_spec k c); [subst c; vm_compute; discriminate|]
         end.
  reflexivity.
Qed.

Lemma substitute_not_key (c : N) : Forall (fun d => not_key d = true) (substitute c).
Proof.
  unfold_substitute c.
  repeat match goal with
         | |- context [?k =? c] =>
             destruct (N.eqb_spec k c);
             [subst c; cbn; repeat constructor|]
         end.
  constructor; [|constructor].
  rewrite not_key_unfold.
  repeat match goal with
         | H : ?k <> c |- _ => apply N.eqb_neq in H; rewrite H; clear H
         end.
  reflexivity.
Qed.

Lemma substitute_ok (c : N) :
  keep_char c = true -> Forall (fun d => ok_char d = true) (substitute c).
Proof.
  intros Hc. unfold_substitute c.
  repeat match goal with
         | |- context [?k =? c] =>
             destruct (N.eqb_spec k c);
             [subst c; cbn; repeat constructor|]
         end.
  constructor; [|constructor].
  unfold ok_char. now rewrite Hc.
Qed.

Lemma Forall_flat_map_intro (A B : Type) (P : A -> Prop) (Q : B -> Prop)
  (f : A -> list B) (l : list A) :
  (forall a, P a -> Forall Q (f a)) -> Forall P l -> Forall Q (flat_map f l).
Proof.
  intros H. induction 1; simpl; [constructor|].
  apply Forall_app; auto.
Qed.

(** ** Collapsing whitespace *)

Lemma collapse_go_Forall (P : N -> Prop) :
  P 32 -> forall s f, Forall P s -> Forall P (collapse_go f s).
Proof.
  intros H32 s. induction s as [|c s IH]; intros f Hs; simpl; auto.
  inversion Hs; subst.
  destruct (isspace c); [destruct f|]; auto.
Qed.

Lemma collapse_go_spaced (s : text) (f : bool) :
  spaced (collapse_go f s) = true
  /\ (f = true -> head_nonspace (collapse_go f s) = true).
Proof.
  revert f. induction s as [|c s IH]; intros f; simpl; auto.
  destruct (isspace c) eqn:E.
  - destruct f.
    + apply IH.
    + destruct (IH true) as [H1 H2]. split; [|discriminate].
      simpl. now rewrite H1, H2.
  - destruct (IH false) as [H1 _]. split.
    + simpl. now rewrite E, H1.
    + intros _. simpl. now rewrite E.
Qed.

Lemma collapse_go_fixed (s : text) :
  forall f, spaced s = true -> (f = true -> head_nonspace s = true) ->
  collapse_go f s = s.
Proof.
  induction s as [|c s IH]; intros f Hs Hf; simpl in *; auto.
  apply andb_prop in Hs. destruct Hs as [Hc Hs].
  destruct (isspace c) eqn:E.
  - apply andb_prop in Hc. destruct Hc as [Hc Hh].
    apply N.eqb_eq in Hc. subst c.
    destruct f; [specialize (Hf eq_refl); discriminate|].
    now rewrite IH.
  - now rewrite IH.
Qed.

Lemma linebreaks_go_fixed (s : text) :
  forall f, spaced s = true -> (f = true -> head_nonspace s = true) ->
  linebreaks_go f s = s.
Proof.
  induction s as [|c s IH]; intros f Hs Hf; simpl in *; auto.
  apply andb_prop in Hs. destruct Hs as [Hc Hs].
  assert (Hrun : f && isspace c = false).
  { destruct f; auto. specialize (Hf eq_refl).
    simpl. now destruct (isspace c). }
  rewrite Hrun.
  destruct (N.eqb_spec c 10) as [->|_].
  - simpl in Hc. discriminate.
  - now rewrite IH.
Qed.

(** ** Matra fixes *)

Lemma replace_pair_cons (m c : N) (t : text) :
  replace_go [m; 32] [m] 0 (c :: t) =
    if (c =? m) && head_is_space t
    then m :: replace_go [m; 32] [m] 0 (tl t)
    else c :: replace_go [m; 32] [m] 0 t.
Proof.
  cbn [replace_go starts_with length Nat.sub app].
  rewrite (N.eqb_sym m c).
  destruct t as [|d t]; cbn [head_is_space tl replace_go].
  - now rewrite andb_false_r.
  - now rewrite (N.eqb_sym 32 d), andb_true_r.
Qed.

Lemma replace_pair_hd (m : N) (s : text) :
  hd_error (replace_go [m; 32] [m] 0 s) = hd_error s.
Proof.
  destruct s as [|c t]; [reflexivity|].
  rewrite replace_pair_cons.
  destruct ((c =? m) && head_is_space t) eqn:E; [|reflexivity].
  apply andb_prop in E. destruct E as [E _].
  apply N.eqb_eq in E. now subst.
Qed.

Lemma head_nonspace_hd (a b : text) :
  hd_error a = hd_error b -> head_nonspace a = head_nonspace b.
Proof. destruct a, b; simpl; congruence. Qed.

Lemma head_is_space_hd (a b : text) :
  hd_error a = hd_error b -> head_is_space a = head_is_space b.
Proof. destruct a, b; simpl; congruence. Qed.

Lemma head_nonspace_not_space (t : text) :
  head_nonspace t = true -> head_is_space t = false.
Proof.
  destruct t as [|d t]; simpl; auto.
  destruct (N.eqb_spec d 32) as [->|]; auto.
Qed.

Lemma list_length_ind (A : Type) (P : list A -> Prop) :
  (forall s, (forall t, (length t < length s)%nat -> P t) -> P s) ->
  forall s, P s.
Proof.
  intros H s.
  assert (G : forall n t, (length t < n)%nat -> P t).
  { induction n; intros t Ht; [lia|]. apply H. intros u Hu. apply IHn. lia. }
  apply (G (S (length s))). lia.
Qed.

Lemma replace_pair_spaced (m : N) (s : text) :
  isspace m = false -> spaced s = true ->
  spaced (replace_go [m; 32] [m] 0 s) = true
  /\ no_pair m (replace_go [m; 32] [m] 0 s) = true.
Proof.
  intros Hm. induction s as [s IH] using list_length_ind.
  destruct s as [|c t]; [auto|]. intros Hs.
  rewrite replace_pair_cons.
  cbn [spaced] in Hs. apply andb_prop in Hs. destruct Hs as [Hc Ht].
  destruct ((c =? m) && head_is_space t) eqn:E.
  - apply andb_prop in E. destruct E as [E1 E2].
    apply N.eqb_eq in E1. subst c.
    destruct t as [|d t']; [discriminate|].
    cbn [head_is_space] in E2. apply N.eqb_eq in E2. subst d.
    cbn [tl]. cbn [spaced] in Ht. change (isspace 32) with true in Ht.
    cbn in Ht. apply andb_prop in Ht. destruct Ht as [Hh Ht'].
    destruct (IH t') as [I1 I2]; [simpl; lia|assumption|].
    cbn [spaced no_pair]. rewrite Hm, I1, I2, N.eqb_refl.
    rewrite (head_is_space_hd (replace_pair_hd m t')).
    now rewrite (head_nonspace_not_space Hh).
  - destruct (IH t) as [I1 I2]; [simpl; lia|assumption|].
    cbn [spaced no_pair]. rewrite I1, I2.
    rewrite (head_nonspace_hd (replace_pair_hd m t)).
    rewrite (head_is_space_hd (replace_pair_hd m t)).
    now rewrite Hc, E.
Qed.

Lemma replace_pair_no_pair (m m' : N) (s : text) :
  no_pair m' s = true -> no_pair m' (replace_go [m; 32] [m] 0 s) = true.
Proof.
  induction s as [s IH] using list_length_ind.
  destruct s as [|c t]; [auto|]. intros Hs.
  rewrite replace_pair_cons.
  cbn [no_pair] in Hs. apply andb_prop in Hs. destruct Hs as [Hc Ht].
  destruct ((c =? m) && head_is_space t) eqn:E.
  - apply andb_prop in E. destruct E as [E1 E2].
    apply N.eqb_eq in E1. subst c. rewrite E2, andb_true_r in Hc.
    destruct t as [|d t']; [discriminate|].
    cbn [tl]. cbn [no_pair] in Ht. apply andb_prop in Ht. destruct Ht as [_ Ht'].
    cbn [no_pair]. rewrite IH; [|simpl; lia|assumption].
    apply negb_true_iff in Hc. now rewrite Hc.
  - cbn [no_pair]. rewrite IH; [|simpl; lia|assumption].
    rewrite (head_is_space_hd (replace_pair_hd m t)). now rewrite Hc.
Qed.

Lemma replace_pair_fixed (m : N) (s : text) :
  no_pair m s = true -> replace_go [m; 32] [m] 0 s = s.
Proof.
  induction s as [|c t IH]; [auto|]. intros Hs.
  rewrite replace_pair_cons.
  cbn [no_pair] in Hs. apply andb_prop in Hs. destruct Hs as [Hc Ht].
  apply negb_true_iff in Hc. rewrite Hc. now rewrite IH.
Qed.

Lemma fix_matras_unfold (s : text) :
  fix_matras s =
    fold_left (fun acc m => replace_go [m; 32] [m] 0 acc) matras s.
Proof. reflexivity. Qed.

Lemma fix_matras_Forall (P : N -> Prop) (s : text) :
  Forall P s -> Forall (fun m => P m) matras -> Forall P (fix_matras s).
Proof.
  rewrite fix_matras_unfold. intros Hs Hm. revert s Hs.
  induction Hm as [|m ms Pm _ IH]; intros s Hs; simpl; auto.
  apply IH. apply replace_go_Forall; auto.
Qed.

Lemma fix_matras_spaced (s : text) :
  spaced s = true ->
  spaced (fix_matras s) = true /\ no_matra_space (fix_matras s) = true.
Proof.
  rewrite fix_matras_unfold. unfold no_matra_space.
  assert (G : forall ms done s,
             Forall (fun m => isspace m = false) ms ->
             spaced s = true -> forallb (fun m => no_pair m s) done = true ->
             let r := fold_left (fun acc m => replace_go [m; 32] [m] 0 acc) ms s in
             spaced r = true /\ forallb (fun m => no_pair m r) (done ++ ms) = true).
  { induction ms as [|m ms IH]; intros done s0 Hms Hs Hd; simpl.
    - now rewrite app_nil_r.
    - inversion Hms; subst.
      destruct (replace_pair_spaced (m := m) (s := s0)) as [S1 S2]; auto.
      specialize (IH (done ++ [m]) (replace_go [m; 32] [m] 0 s0)).
      rewrite <- app_assoc in IH. simpl in IH. apply IH; auto.
      rewrite forallb_app. simpl. rewrite S2, andb_true_r.
      rewrite forallb_forall in *. intros m' Hm'.
      apply replace_pair_no_pair. auto. }
  intros Hs. apply (G matras [] s); auto.
  repeat constructor.
Qed.

Lemma fix_matras_fixed (s : text) :
  no_matra_space s = true -> fix_matras s = s.
Proof.
  rewrite fix_matras_unfold. unfold no_matra_space.
  generalize matras. intros ms. induction ms as [|m ms IH]; simpl; auto.
  intros H. apply andb_prop in H. destruct H as [H1 H2].
  rewrite replace_pair_fixed; auto.
Qed.

Lemma spaced_app (a b : text) :
  spaced (a ++ b) = true -> spaced a = true /\ spaced b = true.
Proof.
  induction a as [|c a IH]; simpl; auto.
  intros H. apply andb_prop in H. destruct H as [Hc H].
  destruct (IH H) as [Ha Hb]. split; auto.
  rewrite Ha, andb_true_r.
  destruct (isspace c); auto.
  apply andb_prop in Hc. destruct Hc as [Hc Hh]. rewrite Hc.
  destruct a; auto.
Qed.

Lemma no_pair_app (m : N) (a b : text) :
  no_pair m (a ++ b) = true -> no_pair m a = true /\ no_pair m b = true.
Proof.
  induction a as [|c a IH]; simpl; auto.
  intros H. apply andb_prop in H. destruct H as [Hc H].
  destruct (IH H) as [Ha Hb]. split; auto.
  rewrite Ha, andb_true_r.
  destruct a; simpl in *; auto.
  now rewrite andb_false_r.
Qed.

Lemma no_matra_space_infix (pre s post : text) :
  no_matra_space (pre ++ s ++ post) = true -> no_matra_space s = true.
Proof.
  unfold no_matra_space. rewrite !forallb_forall.
  intros H m Hm. specialize (H m Hm).
  apply no_pair_app in H. destruct H as [_ H].
  apply no_pair_app in H. tauto.
Qed.

(** ** The substitutions of the normalizer

    [re.sub] with each of the three patterns of [normalize_text] is the
    character-by-character function given for it. *)

Lemma search_go_start (r : regex) (s : text) :
  forall f p b st, search_go r f p s = Some (b, st) -> (p <= b)%nat.
Proof.
  induction s as [|c s IH]; intros f p b st H; cbn [search_go] in H.
  - destruct (match_at r f p []); [|discriminate]. injection H as <- _. lia.
  - destruct (match_at r f p (c :: s)).
    + injection H as <- _. lia.
    + apply IH in H. lia.
Qed.

Section HeadMatcher.
Variable r : regex.
Variable hm : text -> option nat.
Hypothesis hm_nil : hm [] = None.
Hypothesis match_at_hm : forall f p s,
    match_at r f p s =
      match hm s with
      | Some k => Some {| pos := p + S k; rest := skipn (S k) s; caps := [] |}
      | None => None
      end.

Lemma sub_go_direct (repl : text) :
  forall n s fuel f p,
    (length s <= n)%nat -> (length s < fuel)%nat ->
    sub_go fuel r repl f p s = sub_direct n hm repl s.
Proof.
  induction n as [|n IH]; intros s fuel f p Hn Hf.
  - destruct s; [|simpl in Hn; lia].
    destruct fuel; [lia|].
    cbn [sub_go search_go sub_direct]. now rewrite match_at_hm, hm_nil.
  - destruct fuel as [|fuel]; [lia|].
    destruct s as [|c s].
    + cbn [sub_go search_go sub_direct]. now rewrite match_at_hm, hm_nil.
    + cbn [sub_go search_go sub_direct]. rewrite match_at_hm.
      destruct (hm (c :: s)) as [k|] eqn:E.
      * cbn [pos rest]. rewrite Nat.sub_diag. cbn [firstn app skipn].
        f_equal. apply IH.
        -- rewrite length_skipn. simpl in Hn. lia.
        -- rewrite length_skipn. simpl in Hf. lia.
      * simpl in Hn, Hf.
        rewrite <- (IH s (S fuel) false (S p)) by lia.
        cbn [sub_go].
        destruct (search_go r false (S p) s) as [[b st]|] eqn:Es; [|reflexivity].
        apply search_go_start in Es.
        replace (b - p)%nat with (S (b - S p)) by lia.
        reflexivity.
Qed.

Lemma re_sub_direct (repl s : text) :
  re_sub r repl s = sub_direct (length s) hm repl s.
Proof. unfold re_sub. apply sub_go_direct; lia. Qed.

End HeadMatcher.

Lemma lstrip_skipn (s : text) : lstrip s = skipn (ws_len s) s.
Proof.
  induction s as [|c s IH]; simpl; [reflexivity|].
  destruct (isspace c); simpl; auto.
Qed.

Lemma ws_len_le (s : text) : (ws_len s <= length s)%nat.
Proof.
  induction s as [|c s IH]; simpl; [lia|].
  destruct (isspace c); simpl; lia.
Qed.

(** The greedy [\s*] takes all the whitespace there is, when the
    continuation accepts whatever follows. *)
Lemma star_space_run (k : mstate -> option mstate) :
  forall n a,
    (length (rest a) <= n)%nat ->
    (forall b, (pos a <= pos b)%nat -> k b = Some b) ->
    star_loop (run space) k n a =
      Some {| pos := pos a + ws_len (rest a);
              rest := skipn (ws_len (rest a)) (rest a);
              caps := caps a |}.
Proof.
  induction n as [|n IH]; intros [p s cs] Hn Hk; cbn [pos rest caps] in *.
  - destruct s; [|simpl in Hn; lia].
    cbn [star_loop ws_len skipn]. rewrite Hk by (simpl; lia).
    now rewrite Nat.add_0_r.
  - cbn [star_loop run space rest].
    destruct s as [|c s].
    + cbn [ws_len skipn]. rewrite Hk by (simpl; lia). now rewrite Nat.add_0_r.
    + cbn [ws_len]. destruct (isspace c).
      * cbn [advance pos caps]. rewrite (proj2 (Nat.ltb_lt p (S p))) by lia.
        rewrite IH.
        -- cbn [pos rest caps skipn]. now rewrite Nat.add_succ_r.
        -- simpl in *. lia.
        -- intros b Hb. apply Hk. simpl in *. lia.
      * cbn [skipn]. rewrite Hk by (simpl; lia). now rewrite Nat.add_0_r.
Qed.

Lemma accept_later (f : bool) (p q : nat) (st : mstate) :
  (p < q)%nat -> (q <= pos st)%nat ->
  (if f && (pos st =? p)%nat then None else Some st) = Some st.
Proof.
  intros H1 H2. rewrite (proj2 (Nat.eqb_neq (pos st) p)) by lia.
  now rewrite andb_false_r.
Qed.

Lemma match_at_broken (f : bool) (p : nat) (s : text) :
  match_at (Cls (fun c => negb (keep_char c))) f p s =
    match hm_broken s with
    | Some k => Some {| pos := p + S k; rest := skipn (S k) s; caps := [] |}
    | None => None
    end.
Proof.
  unfold match_at, hm_broken. cbn [run rest].
  destruct s as [|c s]; [reflexivity|].
  destruct (negb (keep_char c)); [|reflexivity].
  cbn [advance pos rest caps].
  rewrite (proj2 (Nat.eqb_neq (S p) p)) by lia.
  rewrite andb_false_r. cbn [skipn]. now rewrite Nat.add_1_r.
Qed.

Lemma match_at_spaces (f : bool) (p : nat) (s : text) :
  match_at (Plus space) f p s =
    match hm_spaces s with
    | Some k => Some {| pos := p + S k; rest := skipn (S k) s; caps := [] |}
    | None => None
    end.
Proof.
  unfold match_at, hm_spaces, Plus. cbn [run space rest].
  destruct s as [|c s]; [reflexivity|].
  destruct (isspace c); [|reflexivity].
  fold space. rewrite star_space_run.
  - cbn [advance pos rest caps skipn]. now rewrite Nat.add_succ_comm.
  - reflexivity.
  - intros b Hb. apply accept_later with (q := S p); [lia|exact Hb].
Qed.

Lemma match_at_newline (f : bool) (p : nat) (s : text) :
  match_at (Seq (Chr 10) (Star space)) f p s =
    match hm_newline s with
    | Some k => Some {| pos := p + S k; rest := skipn (S k) s; caps := [] |}
    | None => None
    end.
Proof.
  unfold match_at, hm_newline. cbn [run rest].
  destruct s as [|c s]; [reflexivity|].
  destruct (c =? 10); [|reflexivity].
  rewrite star_space_run.
  - cbn [advance pos rest caps skipn]. now rewrite Nat.add_succ_comm.
  - reflexivity.
  - intros b Hb. apply accept_later with (q := S p); [lia|exact Hb].
Qed.

Lemma sub_direct_broken (n : nat) :
  forall s, (length s <= n)%nat -> sub_direct n hm_broken [] s = filter keep_char s.
Proof.
  induction n as [|n IH]; intros s Hn.
  - destruct s; [reflexivity|simpl in Hn; lia].
  - destruct s as [|c s]; [reflexivity|].
    simpl in Hn. cbn [sub_direct hm_broken filter].
    destruct (keep_char c); cbn [negb skipn app]; rewrite IH by lia; reflexivity.
Qed.

Lemma collapse_go_in_run (s : text) :
  collapse_go true s = collapse_go false (lstrip s).
Proof.
  induction s as [|c s IH]; simpl; [reflexivity|].
  destruct (isspace c) eqn:E; [exact IH|].
  simpl. now rewrite E.
Qed.

Lemma linebreaks_go_in_run (s : text) :
  linebreaks_go true s = linebreaks_go false (lstrip s).
Proof.
  induction s as [|c s IH]; simpl; [reflexivity|].
  destruct (isspace c) eqn:E; [exact IH|].
  simpl. reflexivity.
Qed.

Lemma sub_direct_spaces (n : nat) :
  forall s, (length s <= n)%nat ->
            sub_direct n hm_spaces [32] s = collapse_go false s.
Proof.
  induction n as [|n IH]; intros s Hn.
  - destruct s; [reflexivity|simpl in Hn; lia].
  - destruct s as [|c s]; [reflexivity|].
    simpl in Hn. cbn [sub_direct hm_spaces collapse_go].
    destruct (isspace c).
    + cbn [app]. rewrite collapse_go_in_run, lstrip_skipn.
      rewrite IH; [reflexivity|].
      rewrite length_skipn. lia.
    + now rewrite IH by lia.
Qed.

Lemma sub_direct_newline (n : nat) :
  forall s, (length s <= n)%nat ->
            sub_direct n hm_newline [10] s = linebreaks_go false s.
Proof.
  induction n as [|n IH]; intros s Hn.
  - destruct s; [reflexivity|simpl in Hn; lia].
  - destruct s as [|c s]; [reflexivity|].
    simpl in Hn. cbn [sub_direct hm_newline linebreaks_go andb].
    destruct (c =? 10) eqn:E.
    + apply N.eqb_eq in E. subst c.
      cbn [app]. rewrite linebreaks_go_in_run, lstrip_skipn.
      rewrite IH; [reflexivity|].
      rewrite length_skipn. lia.
    + now rewrite IH by lia.
Qed.

Lemma remove_broken_filter (s : text) : remove_broken s = filter keep_char s.
Proof.
  unfold remove_broken.
  rewrite (re_sub_direct (hm := hm_broken)); auto using match_at_broken.
  now apply sub_direct_broken.
Qed.

Lemma collapse_spaces_direct (s : text) : collapse_spaces s = collapse_go false s.
Proof.
  unfold collapse_spaces.
  rewrite (re_sub_direct (hm := hm_spaces)); auto using match_at_spaces.
  now apply sub_direct_spaces.
Qed.

Lemma normalize_linebreaks_direct (s : text) :
  normalize_linebreaks s = linebreaks_go false s.
Proof.
  unfold normalize_linebreaks.
  rewrite (re_sub_direct (hm := hm_newline)); auto using match_at_newline.
  now apply sub_direct_newline.
Qed.

(** ** The normalizer's output *)

Section NormalizerFacts.
Context {U : UnicodeData}.

Lemma normalize_text_normal_form (x : text) : normal_form (normalize_text x).
Proof.
  unfold normalize_text. cbv zeta.
  rewrite normalize_linebreaks_direct, collapse_spaces_direct, remove_broken_filter.
  set (a := filter keep_char (nfkc x)).
  assert (Ha : Forall (fun c => keep_char c = true) a).
  { apply Forall_forall. intros c Hc. apply filter_In in Hc. tauto. }
  rewrite replace_all_replacements.
  set (b := flat_map substitute a).
  assert (Hb1 : Forall (fun c => not_key c = true) b).
  { apply Forall_flat_map_intro with (P := fun _ => True).
    - intros c _. apply substitute_not_key.
    - apply Forall_forall. auto. }
  assert (Hb2 : Forall (fun c => ok_char c = true) b).
  { eapply Forall_flat_map_intro; [|exact Ha]. apply substitute_ok. }
  destruct (collapse_go_spaced b false) as [Hc _].
  rewrite linebreaks_go_fixed; [|assumption|discriminate].
  set (c := collapse_go false b) in *.
  assert (Hc1 : Forall (fun c => not_key c = true) c)
    by (apply collapse_go_Forall; auto).
  assert (Hc2 : Forall (fun c => ok_char c = true) c)
    by (apply collapse_go_Forall; auto).
  destruct (fix_matras_spaced Hc) as [He He'].
  assert (He1 : Forall (fun c => not_key c = true) (fix_matras c))
    by (apply fix_matras_Forall; [assumption|repeat constructor]).
  assert (He2 : Forall (fun c => ok_char c = true) (fix_matras c))
    by (apply fix_matras_Forall; [assumption|repeat constructor]).
  destruct (strip_infix (fix_matras c)) as (pre & post & E).
  rewrite E in He, He', He1, He2.
  constructor.
  - apply spaced_app in He. destruct He as [_ He].
    apply spaced_app in He. tauto.
  - eapply no_matra_space_infix; eauto.
  - apply Forall_app in He1. destruct He1 as [_ He1].
    apply Forall_app in He1. tauto.
  - apply Forall_app in He2. destruct He2 as [_ He2].
    apply Forall_app in He2. tauto.
  - apply strip_strip.
Qed.

Lemma normal_form_fixed (y : text) :
  normal_form y -> nfkc y = y -> no_typographic y = true ->
  normalize_text y = y.
Proof.
  intros [Hs Hm Hk Hc Hst] Hn Ht.
  unfold normalize_text. rewrite Hn.
  assert (Hkeep : remove_broken y = y).
  { rewrite remove_broken_filter. apply forallb_filter_id.
    unfold no_typographic in Ht. rewrite forallb_forall in *.
    rewrite Forall_forall in Hc.
    intros c Hin. specialize (Ht c Hin). specialize (Hc c Hin).
    unfold ok_char in Hc. apply negb_true_iff in Ht.
    rewrite Ht, orb_false_r in Hc. exact Hc. }
  rewrite Hkeep, replace_all_replacements.
  rewrite flat_map_single.
  2:{ eapply Forall_impl; [|exact Hk]. apply substitute_fixed. }
  rewrite collapse_spaces_direct, collapse_go_fixed by (auto; discriminate).
  rewrite normalize_linebreaks_direct, linebreaks_go_fixed by (auto; discriminate).
  rewrite fix_matras_fixed; auto.
Qed.

End NormalizerFacts.

(** ** normalize_text: idempotence *)

(** C1 (as amended).  Normalizing a text that already went through
    [normalize_text] returns it unchanged, provided the normalized text is
    in NFKC form and holds none of the typographic marks that the
    normalizer itself writes for hyphen, backtick and the quotes. *)
Theorem normalize_text_idempotent_on_stable {U : UnicodeData} (x : text) :
  nfkc (normalize_text x) = normalize_text x ->
  no_typographic (normalize_text x) = true ->
  normalize_text (normalize_text x) = normalize_text x.
Proof.
  intros Hn Ht.
  apply normal_form_fixed; auto.
  apply normalize_text_normal_form.
Qed.

Lemma normalize_text_idempotent_on_stable_witness :
  nfkc (normalize_text raw_sample) = normalize_text raw_sample
  /\ no_typographic (normalize_text raw_sample) = true
  /\ normalize_text (normalize_text raw_sample) = normalize_text raw_sample.
Proof.
  split; [reflexivity|].
  split; [vm_compute; reflexivity|].
  apply (normalize_text_idempotent_on_stable (x := raw_sample)).
  - reflexivity.
  - vm_compute; reflexivity.
Defined.

(** Whatever the Unicode tables are, as long as NFKC leaves a hyphen and an
    em dash alone (it does), the hyphen breaks idempotence: the first pass
    writes an em dash, the second removes it as a broken character. *)
Lemma hyphen_then_dash {U : UnicodeData} :
  nfkc [45] = [45] -> nfkc [0x2014] = [0x2014] ->
  normalize_text [45] = [0x2014] /\ normalize_text [0x2014] = [].
Proof.
  intros H1 H2. unfold normalize_text. rewrite H1, H2. split; reflexivity.
Qed.

(** C1 (as stated) fails: normalizing "-" gives an em dash, and normalizing
    that again gives the empty text. *)
Lemma normalize_text_not_idempotent :
  normalize_text (normalize_text (utf8 "-")) <> normalize_text (utf8 "-").
Proof.
  destruct (@hyphen_then_dash ascii_devanagari eq_refl eq_refl) as [E1 E2].
  change (utf8 "-") with [45]. rewrite E1, E2. discriminate.
Qed.

(** ** normalize_text: line breaks *)

Lemma spaced_no_newline (s : text) : spaced s = true -> ~ In 10 s.
Proof.
  induction s as [|c s IH]; simpl; [tauto|].
  intros H. apply andb_prop in H. destruct H as [Hc Hs].
  intros [->|Hin]; [discriminate|]. now apply IH.
Qed.

Lemma split_lines_single (s : text) : ~ In 10 s -> split_lines s = [s].
Proof.
  induction s as [|c s IH]; simpl; [reflexivity|].
  intros H. destruct (N.eqb_spec c 10) as [->|_]; [tauto|].
  rewrite IH; tauto.
Qed.

(** C2 (where the code departs from the specification).  No line break survives
    [normalize_text]: whatever the input, the output is one line, because
    [\s+] has already turned every newline into a space when the
    line-break pattern runs.  A question and its option, on two lines,
    come out on one. *)
Theorem normalize_text_single_line :
  (forall (U : UnicodeData) (x : text),
      split_lines (normalize_text x) = [normalize_text x])
  /\ normalize_text (join_lines [utf8 "Q.1 Capital?"; utf8 "A) Delhi"])
     = utf8 "Q.१ Capital? A) Delhi".
Proof.
  split.
  - intros U x. apply split_lines_single, spaced_no_newline.
    apply (nf_spaced (normalize_text_normal_form x)).
  - vm_compute. reflexivity.
Qed.

(** ** The parser *)

Section ParserFacts.
Context {U : UnicodeData}.

Lemma save_Forall (P : question -> Prop) (st : parser) :
  (forall n t o, o <> [] -> P {| question_number := n; question_text := t;
                                 options := map strip o; correct_answer := None |}) ->
  Forall P (questions st) -> Forall P (save st).
Proof.
  intros HP Hq. unfold save.
  destruct (current_question st) as [cq|]; [|assumption].
  destruct (current_options st) as [|o os] eqn:E; [assumption|].
  apply Forall_app. split; [assumption|].
  constructor; [|constructor]. apply HP. discriminate.
Qed.

Lemma step_Forall (P : question -> Prop) (st : parser) (raw : text) :
  (forall n t o, o <> [] -> P {| question_number := n; question_text := t;
                                 options := map strip o; correct_answer := None |}) ->
  Forall P (questions st) -> Forall P (questions (step st raw)).
Proof.
  intros HP Hq. unfold step.
  destruct (strip raw) as [|c l]; [assumption|].
  destruct (question_match (c :: l)).
  - simpl. now apply save_Forall.
  - destruct (option_match (c :: l)), (current_question st); assumption.
Qed.

Lemma parse_lines_Forall (P : question -> Prop) (lines : list text) :
  (forall n t o, o <> [] -> P {| question_number := n; question_text := t;
                                 options := map strip o; correct_answer := None |}) ->
  forall st, Forall P (questions st) -> Forall P (questions (parse_lines st lines)).
Proof.
  intros HP. unfold parse_lines.
  induction lines as [|l ls IH]; intros st Hq; simpl; [assumption|].
  apply IH. now apply step_Forall.
Qed.

Lemma extract_questions_Forall (P : question -> Prop) (t : text) :
  (forall n t o, o <> [] -> P {| question_number := n; question_text := t;
                                 options := map strip o; correct_answer := None |}) ->
  Forall P (extract_questions t).
Proof.
  intros HP. unfold extract_questions.
  apply save_Forall; [assumption|].
  apply parse_lines_Forall; [assumption|]. constructor.
Qed.

Lemma step_header (st : parser) (raw : text) :
  header raw = true ->
  questions (step st raw) = save st /\ current_options (step st raw) = []
  /\ current_question (step st raw) <> None.
Proof.
  unfold header, step.
  destruct (strip raw) as [|c l]; [discriminate|].
  destruct (question_match (c :: l)); [|discriminate].
  intros _. simpl. repeat split. discriminate.
Qed.

Lemma step_header_state (st st' : parser) (raw : text) :
  header raw = true -> save st = save st' -> step st raw = step st' raw.
Proof.
  unfold header, step.
  destruct (strip raw) as [|c l]; [discriminate|].
  destruct (question_match (c :: l)); [|discriminate].
  intros _ E. now rewrite E.
Qed.

Lemma step_plain (st : parser) (raw : text) :
  plain raw = true ->
  questions (step st raw) = questions st
  /\ current_options (step st raw) = current_options st
  /\ (current_question st <> None -> current_question (step st raw) <> None).
Proof.
  unfold plain, header, option_line, step.
  destruct (strip raw) as [|c l]; [auto|].
  destruct (question_match (c :: l)); [discriminate|].
  destruct (option_match (c :: l)); [discriminate|].
  intros _. destruct (current_question st); simpl; repeat split; auto; discriminate.
Qed.

Lemma parse_plain (cs : list text) :
  forallb plain cs = true ->
  forall st,
    questions (parse_lines st cs) = questions st
    /\ current_options (parse_lines st cs) = current_options st.
Proof.
  unfold parse_lines.
  induction cs as [|l ls IH]; intros H st; simpl in *; [auto|].
  apply andb_prop in H. destruct H as [Hl Hls].
  destruct (step_plain st Hl) as (E1 & E2 & _).
  destruct (IH Hls (step st l)) as [I1 I2].
  rewrite I1, I2. auto.
Qed.

Lemma save_no_options (st : parser) :
  current_options st = [] -> save st = questions st.
Proof.
  unfold save. intros ->. now destruct (current_question st).
Qed.

(** A header followed by plain lines leaves nothing to save. *)
Lemma header_then_plain (st : parser) (h : text) (cs : list text) :
  header h = true -> forallb plain cs = true ->
  save (parse_lines st (h :: cs)) = save st.
Proof.
  intros Hh Hcs. unfold parse_lines. simpl.
  destruct (step_header st Hh) as (E1 & E2 & _).
  destruct (parse_plain Hcs (step st h)) as [I1 I2].
  unfold parse_lines in *.
  rewrite save_no_options; [|now rewrite I2].
  now rewrite I1.
Qed.

End ParserFacts.

Lemma split_lines_app (l s : text) :
  ~ In 10 l -> split_lines (l ++ 10 :: s) = l :: split_lines s.
Proof.
  induction l as [|c l IH]; simpl; [reflexivity|].
  intros H. destruct (N.eqb_spec c 10) as [->|_]; [tauto|].
  rewrite IH; tauto.
Qed.

Lemma split_join_lines (ls : list text) :
  ls <> [] -> Forall (fun l => ~ In 10 l) ls -> split_lines (join_lines ls) = ls.
Proof.
  induction ls as [|l ls IH]; [congruence|].
  intros _ H. inversion H; subst.
  destruct ls as [|l' ls'].
  - simpl. now apply split_lines_single.
  - change (join_lines (l :: l' :: ls')) with (l ++ 10 :: join_lines (l' :: ls')).
    rewrite split_lines_app; [|assumption].
    rewrite IH; [reflexivity|discriminate|assumption].
Qed.

Lemma parse_lines_app {U : UnicodeData} (st : parser) (a b : list text) :
  parse_lines st (a ++ b) = parse_lines (parse_lines st a) b.
Proof. apply fold_left_app. Qed.

(** A header with no option line before the next header leaves no trace:
    the parser goes on as if the header and its continuation lines were
    not there. *)
Lemma header_dropped {U : UnicodeData} (st : parser) (h1 h2 : text)
  (cs rest : list text) :
  header h1 = true -> forallb plain cs = true -> header h2 = true ->
  parse_lines st (h1 :: cs ++ h2 :: rest) = parse_lines st (h2 :: rest).
Proof.
  intros H1 Hcs H2.
  change (h1 :: cs ++ h2 :: rest) with ((h1 :: cs) ++ h2 :: rest).
  rewrite parse_lines_app.
  change (parse_lines (parse_lines st (h1 :: cs)) (h2 :: rest))
    with (parse_lines (step (parse_lines st (h1 :: cs)) h2) rest).
  change (parse_lines st (h2 :: rest)) with (parse_lines (step st h2) rest).
  f_equal. apply step_header_state; [assumption|].
  now apply header_then_plain.
Qed.

(** C4.  Every record that [extract_questions] returns has at least one
    option.  A question header that is followed by no option line before
    the next header, or before the end of the input, is never saved: the
    output is the one of the input without that header and its
    continuation lines; a later question with options is returned. *)
Theorem every_question_has_an_option :
  (forall (U : UnicodeData) (t : text),
      Forall (fun q => options q <> []) (extract_questions t))
  /\ (forall (U : UnicodeData) (before cs rest : list text) (h1 h2 : text),
         Forall (fun l => ~ In 10 l) (before ++ h1 :: cs ++ h2 :: rest) ->
         header h1 = true -> forallb plain cs = true -> header h2 = true ->
         extract_questions (join_lines (before ++ h1 :: cs ++ h2 :: rest))
         = extract_questions (join_lines (before ++ h2 :: rest)))
  /\ (forall (U : UnicodeData) (st : parser) (h1 : text) (cs : list text),
         header h1 = true -> forallb plain cs = true ->
         save (parse_lines st (h1 :: cs)) = save st)
  /\ map (fun q => (question_number q, options q))
         (extract_questions (join_lines two_headers))
     = [(Some (utf8 "2"), [utf8 "Kathmandu"; utf8 "Pokhara"])].
Proof.
  split; [|split; [|split]].
  - intros U t. apply extract_questions_Forall.
    intros n t' o Ho. simpl. destruct o; [congruence|discriminate].
  - intros U before cs rest h1 h2 Hnl H1 Hcs H2.
    unfold extract_questions.
    rewrite !split_join_lines.
    + rewrite !parse_lines_app. f_equal. now apply header_dropped.
    + destruct before; discriminate.
    + apply Forall_app in Hnl. destruct Hnl as [Hb Hnl].
      apply Forall_app. split; [assumption|].
      inversion Hnl; subst.
      match goal with H : Forall _ (cs ++ _) |- _ => apply Forall_app in H; tauto end.
    + destruct before; discriminate.
    + assumption.
  - intros U st h1 cs. apply header_then_plain.
  - vm_compute. reflexivity.
Qed.

Lemma every_question_has_an_option_witness :
  header (utf8 "1. What is the capital of India?") = true
  /\ forallb plain [utf8 "of the republic"] = true
  /\ header (utf8 "2. And of Nepal?") = true
  /\ extract_questions (join_lines two_headers)
     = extract_questions (join_lines (skipn 2 two_headers)).
Proof.
  split; [vm_compute; reflexivity|].
  split; [vm_compute; reflexivity|].
  split; [vm_compute; reflexivity|].
  apply (proj1 (proj2 every_question_has_an_option) ascii_devanagari
           [] [utf8 "of the republic"] [utf8 "A) Kathmandu"; utf8 "B) Pokhara"]).
  - repeat constructor; vm_compute; intuition discriminate.
  - vm_compute; reflexivity.
  - vm_compute; reflexivity.
  - vm_compute; reflexivity.
Defined.

(** C9.  The parser never resolves an answer: every record it returns has
    [correct_answer] unset. *)
Theorem extract_questions_no_answer :
  forall (U : UnicodeData) (t : text),
    Forall (fun q => correct_answer q = None) (extract_questions t).
Proof.
  intros U t. apply extract_questions_Forall. reflexivity.
Qed.

(** C3.  On the sample of the specification the parser returns exactly two
    records: number "1" with the four options, number "2" with two. *)
Theorem extract_questions_spec_sample :
  map (fun q => (question_number q, options q)) (extract_questions spec_sample)
  = [ (Some (utf8 "1"), [utf8 "100"; utf8 "125"; utf8 "150"; utf8 "175"]);
      (Some (utf8 "2"), [utf8 "Earth"; utf8 "Jupiter"]) ]
  /\ length (extract_questions spec_sample) = 2%nat
  /\ map (fun q => length (options q)) (extract_questions spec_sample)
     = [4%nat; 2%nat].
Proof.
  assert (E : map (fun q => (question_number q, options q))
                (extract_questions spec_sample)
              = [ (Some (utf8 "1"), [utf8 "100"; utf8 "125"; utf8 "150"; utf8 "175"]);
                  (Some (utf8 "2"), [utf8 "Earth"; utf8 "Jupiter"]) ])
    by (vm_compute; reflexivity).
  split; [exact E|].
  split.
  - apply (f_equal (@length _)) in E. rewrite length_map in E. exact E.
  - apply (f_equal (map (fun p => length (snd p)))) in E.
    rewrite map_map in E. exact E.
Qed.

(** ** Option leads *)

(** C10 (as amended).  While a question is open, a line that holds no
    question-start pattern and begins with one of a-d or A-D followed by
    ")" or "." is appended to the options, with the two-character lead
    stripped; lower-case and upper-case leads are treated alike. *)
Theorem latin_lead_appends_option {U : UnicodeData} (st : parser)
  (raw body : text) (lead punct : N) :
  current_question st <> None ->
  strip raw = lead :: punct :: body ->
  Range 65 68 lead || Range 97 100 lead = true ->
  punct = 41 \/ punct = 46 ->
  question_match (strip raw) = None ->
  step st raw =
    {| questions := questions st;
       current_question := current_question st;
       current_options := current_options st ++ [strip body] |}.
Proof.
  intros Hq Hraw Hlead Hpunct Hno.
  unfold step. rewrite Hno, Hraw.
  destruct (current_question st) as [cq|]; [|congruence].
  unfold option_match, option_patterns, re_match, match_at, latin_lead.
  destruct Hpunct as [-> | ->].
  - cbn [first_match run rest pos caps advance]. rewrite Hlead. reflexivity.
  - cbn [first_match run rest pos caps advance]. rewrite Hlead.
    cbn. reflexivity.
Qed.

Lemma latin_lead_appends_option_witness :
  current_options (step in_question (utf8 "  b. 12 km ")) = [utf8 "12 km"].
Proof.
  rewrite (@latin_lead_appends_option ascii_devanagari in_question
             (utf8 "  b. 12 km ") (utf8 " 12 km") 98 46).
  - reflexivity.
  - vm_compute. discriminate.
  - vm_compute. reflexivity.
  - vm_compute. reflexivity.
  - right. reflexivity.
  - vm_compute. reflexivity.
Defined.

(** C10 (as stated) fails: with a question open, the line "a) 3.5 km"
    holds the question-start pattern [(\d+)\.], so it opens question "3"
    instead of being appended as the option "3.5 km". *)
Lemma latin_lead_taken_for_question :
  current_question in_question <> None
  /\ current_options (step in_question (utf8 "a) 3.5 km"))
     <> current_options in_question ++ [utf8 "3.5 km"]
  /\ option_map number (current_question (step in_question (utf8 "a) 3.5 km")))
     = Some (Some (utf8 "3")).
Proof.
  split; [vm_compute; discriminate|].
  split; [vm_compute; discriminate|].
  vm_compute. reflexivity.
Qed.

(** ** The confidence score *)

Lemma skipn_nth_error (A : Type) (l : list A) (i : nat) (a : A) :
  nth_error l i = Some a -> skipn i l = a :: skipn (S i) l.
Proof.
  revert i. induction l as [|b l IH]; intros [|i] H; simpl in *; try discriminate.
  - congruence.
  - now apply IH.
Qed.

Lemma confidences_from_filter (confs : list Z) (texts : list text) :
  forall (i : nat) (acc : list Z),
    (i + length confs <= length texts)%nat ->
    confidences_from i confs texts acc =
      Returns (acc ++ map fst
                 (filter (fun ct => negb (fst ct =? -1)%Z && nonblank (snd ct))
                    (combine confs (skipn i texts)))).
Proof.
  induction confs as [|c confs IH]; intros i acc Hlen; simpl in *.
  - now rewrite app_nil_r.
  - destruct (nth_error texts i) as [t|] eqn:E.
    2:{ apply nth_error_None in E. lia. }
    rewrite (skipn_nth_error E). simpl.
    destruct (c =? -1)%Z; simpl.
    + apply IH. lia.
    + unfold nonblank. destruct (strip t); simpl.
      * apply IH. lia.
      * rewrite IH by lia. now rewrite <- app_assoc.
Qed.

(** C5.  The score is the arithmetic mean of the confidences of the tokens
    that are neither reported with -1 nor blank, and 0 when there is none
    (or when the recognizer raises); on the five tokens 80, -1, 60, an
    empty token and 90 it is (80+60+90)/3. *)
Theorem get_ocr_confidence_is_mean :
  (forall d : ocr_data,
      length (data_text d) = length (data_conf d) ->
      get_ocr_confidence (Returns d) = mean (qualifying d))
  /\ (qualifying five_tokens = [80; 60; 90]%Z
      /\ get_ocr_confidence (Returns five_tokens) == (80 + 60 + 90) / 3)%Q
  /\ (forall d : ocr_data,
         length (data_text d) = length (data_conf d) ->
         qualifying d = [] -> get_ocr_confidence (Returns d) = 0%Q)
  /\ get_ocr_confidence Raises = 0%Q.
Proof.
  assert (G : forall d : ocr_data,
             length (data_text d) = length (data_conf d) ->
             get_ocr_confidence (Returns d) = mean (qualifying d)).
  { intros d Hlen. unfold get_ocr_confidence, qualifying.
    rewrite confidences_from_filter by (simpl; lia).
    reflexivity. }
  split; [exact G|].
  split; [split; [reflexivity|vm_compute; reflexivity]|].
  split; [|reflexivity].
  intros d Hlen Hq. rewrite (G d Hlen), Hq. reflexivity.
Qed.

Lemma get_ocr_confidence_is_mean_witness :
  length (data_text no_tokens) = length (data_conf no_tokens)
  /\ qualifying no_tokens = []
  /\ get_ocr_confidence (Returns no_tokens) = 0%Q
  /\ get_ocr_confidence (Returns five_tokens) = mean (qualifying five_tokens).
Proof.
  split; [reflexivity|].
  split; [reflexivity|].
  split.
  - apply (proj1 (proj2 (proj2 get_ocr_confidence_is_mean)) no_tokens); reflexivity.
  - apply (proj1 get_ocr_confidence_is_mean five_tokens); reflexivity.
Defined.

(** ** The classifier *)

Lemma fold_left_app_concat (pages : list text) (acc : text) :
  fold_left (fun a page => a ++ page) pages acc = acc ++ concat pages.
Proof.
  revert acc. induction pages as [|p ps IH]; intros acc; simpl.
  - now rewrite app_nil_r.
  - now rewrite IH, app_assoc.
Qed.

Lemma enough_text_spec (t : text) :
  enough_text t = true <-> (100 < length (strip t))%nat.
Proof.
  unfold enough_text. destruct (strip t) eqn:E.
  - simpl. split; [discriminate|lia].
  - apply Nat.ltb_lt.
Qed.

(** C6 (as amended).  A document is classified text-native exactly when
    one of the two extractions returns a text that, once stripped of
    leading and trailing whitespace, is longer than 100 characters,
    whitespace inside the text included; a stripped text of exactly 100
    characters is classified scanned, whatever whitespace surrounds it. *)
Theorem is_text_based_threshold :
  (forall (pdfminer : outcome text) (fitz_pages : outcome (list text)),
      is_text_based pdfminer fitz_pages = true <->
        (exists t, pdfminer = Returns t /\ (100 < length (strip t))%nat)
        \/ (exists pages, fitz_pages = Returns pages
                          /\ (100 < length (strip (concat pages)))%nat))
  /\ (forall t : text,
         length (strip t) = 100%nat ->
         is_text_based (Returns t) (Returns [t]) = false).
Proof.
  assert (G : forall (pdfminer : outcome text) (fitz_pages : outcome (list text)),
      is_text_based pdfminer fitz_pages = true <->
        (exists t, pdfminer = Returns t /\ (100 < length (strip t))%nat)
        \/ (exists pages, fitz_pages = Returns pages
                          /\ (100 < length (strip (concat pages)))%nat)).
  { intros a b. unfold is_text_based. split.
    - destruct a as [t|].
      + destruct (enough_text t) eqn:E.
        * intros _. left. exists t. split; [reflexivity|]. now apply enough_text_spec.
        * destruct b as [pages|]; [|discriminate].
          rewrite fold_left_app_concat. simpl.
          destruct (enough_text (concat pages)) eqn:E'; [|discriminate].
          intros _. right. exists pages. split; [reflexivity|]. now apply enough_text_spec.
      + destruct b as [pages|]; [|discriminate].
        rewrite fold_left_app_concat. simpl.
        destruct (enough_text (concat pages)) eqn:E'; [|discriminate].
        intros _. right. exists pages. split; [reflexivity|]. now apply enough_text_spec.
    - intros [(t & -> & H)|(pages & -> & H)].
      + apply enough_text_spec in H. now rewrite H.
      + apply enough_text_spec in H.
        rewrite fold_left_app_concat. simpl. rewrite H.
        now destruct (match a with Returns t => enough_text t | Raises => false end). }
  split; [exact G|].
  intros t Ht.
  destruct (is_text_based (Returns t) (Returns [t])) eqn:E; [|reflexivity].
  apply G in E. destruct E as [(t' & E & H)|(pages & E & H)].
  - injection E as <-. lia.
  - injection E as <-. simpl in H. rewrite app_nil_r in H. lia.
Qed.

Lemma is_text_based_threshold_witness :
  length (strip padded_100) = 100%nat
  /\ is_text_based (Returns padded_100) (Returns [padded_100]) = false.
Proof.
  split; [vm_compute; reflexivity|].
  apply (proj2 is_text_based_threshold padded_100).
  vm_compute; reflexivity.
Defined.

(** C6 (as stated) fails: a text of 100 characters that are not whitespace
    is classified text-native as soon as one space stands between them. *)
Lemma hundred_spread_is_text_based :
  non_whitespace spread_100 = 100%nat
  /\ is_text_based (Returns spread_100) Raises = true.
Proof. split; vm_compute; reflexivity. Qed.

(** ** Soundness of the matcher

    [reach r a b]: the pattern [r] can take the matcher from state [a] to
    state [b].  Whatever [run] hands to its continuation is reached. *)

Lemma run_sound (r : regex) :
  forall k a m, run r k a = Some m -> exists b, reach r a b /\ k b = Some m.
Proof.
  induction r as [|c|p|r1 IH1 r2 IH2|r1 IH1 r2 IH2|r1 IH1|r1 IH1|r1 IH1|n r1 IH1|r1 IH1|];
    intros k a m H; cbn [run] in H.
  - exists a. split; [constructor|assumption].
  - destruct (rest a) as [|x xs] eqn:E; [discriminate|].
    destruct (N.eqb_spec x c) as [->|]; [|discriminate].
    exists (advance a xs). split; [now constructor|assumption].
  - destruct (rest a) as [|x xs] eqn:E; [discriminate|].
    destruct (p x) eqn:Ep; [|discriminate].
    exists (advance a xs). split; [now apply reach_cls with (x := x)|assumption].
  - apply IH1 in H. destruct H as (b & Hb & H).
    apply IH2 in H. destruct H as (c & Hc & H).
    exists c. split; [now apply reach_seq with (b := b)|assumption].
  - destruct (run r1 k a) eqn:E.
    + injection H as <-. apply IH1 in E. destruct E as (b & Hb & E).
      exists b. split; [now apply reach_alt_l|assumption].
    + apply IH2 in H. destruct H as (b & Hb & H).
      exists b. split; [now apply reach_alt_r|assumption].
  - destruct (run r1 k a) eqn:E.
    + injection H as <-. apply IH1 in E. destruct E as (b & Hb & E).
      exists b. split; [now apply reach_opt_some|assumption].
    + exists a. split; [apply reach_opt_none|assumption].
  - revert H. generalize (length (rest a)). intros n. revert a.
    induction n as [|n IHn]; intros a H; cbn [star_loop] in H.
    + exists a. split; [apply reach_star_nil|assumption].
    + match type of H with
      | match ?x with _ => _ end = _ => destruct x eqn:E
      end.
      * injection H as <-. apply IH1 in E. destruct E as (b & Hb & E).
        destruct (pos a <? pos b)%nat; [|discriminate].
        apply IHn in E. destruct E as (c & Hc & E).
        exists c. split; [now apply reach_star_cons with (b := b)|assumption].
      * exists a. split; [apply reach_star_nil|assumption].
  - revert H. generalize (length (rest a)). intros n. revert a.
    induction n as [|n IHn]; intros a H; cbn [lazy_loop] in H.
    + destruct (k a) eqn:E; [|discriminate].
      injection H as <-. exists a. split; [apply reach_lazy_nil|assumption].
    + destruct (k a) eqn:E.
      * injection H as <-. exists a. split; [apply reach_lazy_nil|assumption].
      * apply IH1 in H. destruct H as (b & Hb & H).
        destruct (pos a <? pos b)%nat; [|discriminate].
        apply IHn in H. destruct H as (c & Hc & H).
        exists c. split; [now apply reach_lazy_cons with (b := b)|assumption].
  - apply IH1 in H. destruct H as (b & Hb & H).
    exists (capture n a b). split; [now constructor|assumption].
  - destruct (run r1 Some a) eqn:E; [|discriminate].
    apply IH1 in E. destruct E as (b & Hb & _).
    exists a. split; [now apply reach_ahead with (b := b)|assumption].
  - destruct (pos a =? 0)%nat eqn:E; [|discriminate].
    apply Nat.eqb_eq in E.
    exists a. split; [now constructor|assumption].
Qed.

Lemma match_at_sound (r : regex) (f : bool) (p : nat) (s : text) (b : mstate) :
  match_at r f p s = Some b ->
  reach r {| pos := p; rest := s; caps := [] |} b.
Proof.
  unfold match_at. intros H. apply run_sound in H.
  destruct H as (b' & Hb & H).
  destruct (f && (pos b' =? p)%nat); [discriminate|].
  now injection H as <-.
Qed.

Lemma search_go_sound (r : regex) (s : text) :
  forall f p b st, search_go r f p s = Some (b, st) ->
                   exists p' s', reach r {| pos := p'; rest := s'; caps := [] |} st.
Proof.
  induction s as [|c s IH]; intros f p b st H; cbn [search_go] in H.
  - destruct (match_at r f p []) eqn:E; [|discriminate].
    injection H as _ <-. apply match_at_sound in E. eauto.
  - destruct (match_at r f p (c :: s)) eqn:E.
    + injection H as _ <-. apply match_at_sound in E. eauto.
    + apply IH in H. exact H.
Qed.

Lemma re_search_sound (r : regex) (s : text) (m : re_match_obj) :
  re_search r s = Some m ->
  exists a b, reach r a b /\ m_caps m = caps b.
Proof.
  unfold re_search. destruct (search_go r false 0 s) as [[b st]|] eqn:E; [|discriminate].
  intros H. injection H as <-. simpl.
  apply search_go_sound in E. destruct E as (p' & s' & E). eauto.
Qed.

(** ** The fuel of [re_sub] *)

Lemma reach_offset (r : regex) (a b : mstate) :
  reach r a b ->
  exists k, pos b = (pos a + k)%nat /\ rest b = skipn k (rest a)
            /\ (k <= length (rest a))%nat.
Proof.
  induction 1 as
    [a|c a xs E|p a x xs E Hp|r1 r2 a b c _ IH1 _ IH2|r1 r2 a b _ IH|r1 r2 a b _ IH
    |r a b _ IH|r a|r a|r a b c _ IH1 _ IH2|r a|r a b c _ IH1 _ IH2
    |n r a b _ IH|r a b _ IH|a E].
  all: try (exists 0%nat; rewrite Nat.add_0_r; repeat split; lia).
  all: try (exists 1%nat; cbn [advance pos rest]; rewrite E; cbn;
            repeat split; lia).
  all: try exact IH.
  all: try (destruct IH1 as (k1 & P1 & R1 & L1); destruct IH2 as (k2 & P2 & R2 & L2);
            exists (k1 + k2)%nat; rewrite P2, P1, R2, R1, skipn_skipn;
            rewrite R1, length_skipn in L2;
            repeat split; [lia|f_equal; lia|lia]).
Qed.

Lemma search_go_offset (r : regex) (s : text) :
  forall f p b st,
    search_go r f p s = Some (b, st) ->
    exists k, pos st = (p + k)%nat /\ rest st = skipn k s
              /\ (k <= length s)%nat /\ (p <= b <= pos st)%nat
              /\ (f = true -> k <> 0%nat).
Proof.
  induction s as [|c s IH]; intros f p b st H; cbn [search_go] in H.
  - destruct (match_at r f p []) as [st'|] eqn:E; [|discriminate].
    injection H as <- <-.
    unfold match_at in E. apply run_sound in E. destruct E as (b' & Hr & E).
    apply reach_offset in Hr. cbn [pos rest] in Hr.
    destruct Hr as (k & P & R & L).
    destruct (f && (pos b' =? p)%nat) eqn:A; [discriminate|].
    injection E as <-. exists k. repeat split; try assumption; try lia.
    intros -> ->. rewrite Nat.add_0_r in P. rewrite P, Nat.eqb_refl in A.
    discriminate.
  - destruct (match_at r f p (c :: s)) as [st'|] eqn:E.
    + injection H as <- <-.
      unfold match_at in E. apply run_sound in E. destruct E as (b' & Hr & E).
      apply reach_offset in Hr. cbn [pos rest] in Hr.
      destruct Hr as (k & P & R & L).
      destruct (f && (pos b' =? p)%nat) eqn:A; [discriminate|].
      injection E as <-. exists k. repeat split; try assumption; try lia.
      intros -> ->. rewrite Nat.add_0_r in P. rewrite P, Nat.eqb_refl in A.
      discriminate.
    + apply IH in H. destruct H as (k & P & R & L & B & _).
      exists (S k). cbn [skipn length]. repeat split; try assumption; try lia.
Qed.

Lemma sub_go_enough (r : regex) (repl : text) :
  forall fuel fuel' f p s,
    (sub_measure f s < fuel)%nat -> (sub_measure f s < fuel')%nat ->
    sub_go fuel r repl f p s = sub_go fuel' r repl f p s.
Proof.
  induction fuel as [|fuel IH]; intros fuel' f p s H1 H2; [lia|].
  destruct fuel' as [|fuel']; [lia|].
  cbn [sub_go].
  destruct (search_go r f p s) as [[b st]|] eqn:E; [|reflexivity].
  apply search_go_offset in E.
  destruct E as (k & P & R & L & B & A).
  do 2 f_equal.
  assert (M : (sub_measure (pos st =? b)%nat (rest st) < sub_measure f s)%nat).
  { unfold sub_measure. rewrite R, length_skipn.
    destruct k as [|k].
    - destruct f; [now specialize (A eq_refl)|].
      replace b with p by lia. rewrite P, Nat.add_0_r, Nat.eqb_refl.
      simpl. lia.
    - destruct (pos st =? b)%nat; lia. }
  apply IH; lia.
Qed.

(** More fuel than [re_sub] takes changes nothing: its loop has ended. *)
Lemma re_sub_fuel (r : regex) (repl s : text) (more : nat) :
  sub_go (2 * length s + 2 + more) r repl false 0 s = re_sub r repl s.
Proof.
  unfold re_sub. apply sub_go_enough; unfold sub_measure; lia.
Qed.

(** ** The answer resolver *)

Lemma kha_gha_chars :
  kha_gha = Alt (Chr 0x915) (Alt (Chr 0x916) (Alt (Chr 0x917) (Chr 0x918))).
Proof. reflexivity. Qed.

Lemma sub_1 (p : nat) : (S p - p = 1)%nat.
Proof. lia. Qed.

Lemma sub_2 (p : nat) : (S (S p) - p = 2)%nat.
Proof. lia. Qed.

Lemma sub_3 (p : nat) : (S (S (S p)) - p = 3)%nat.
Proof. lia. Qed.

Ltac invert_reach :=
  repeat match goal with
         | H : reach (Seq _ _) _ _ |- _ => inversion H; subst; clear H
         | H : reach (Alt _ _) _ _ |- _ => inversion H; subst; clear H
         | H : reach (Opt _) _ _ |- _ => inversion H; subst; clear H
         | H : reach (Group _ _) _ _ |- _ => inversion H; subst; clear H
         | H : reach (Chr _) _ _ |- _ => inversion H; subst; clear H
         | H : reach (Cls _) _ _ |- _ => inversion H; subst; clear H
         end.

Lemma latin_lead_cases (x : N) :
  Range 65 68 x || Range 97 100 x = true ->
  In x [65; 66; 67; 68; 97; 98; 99; 100].
Proof.
  unfold Range. intros H. apply orb_prop in H.
  assert (R : (65 <= x <= 68 \/ 97 <= x <= 100)%N).
  { destruct H as [H|H]; apply andb_prop in H; destruct H as [H1 H2];
      apply N.leb_le in H1, H2; lia. }
  assert (C : x = 65 \/ x = 66 \/ x = 67 \/ x = 68
              \/ x = 97 \/ x = 98 \/ x = 99 \/ x = 100) by lia.
  simpl. intuition.
Qed.

Lemma answer_body_token (a b : mstate) :
  reach (Alt latin_lead
           (Seq (Opt (Chr 40)) (Seq (Group 2 kha_gha) (Opt (Chr 41))))) a b ->
  In (firstn (pos b - pos a) (rest a)) answer_tokens.
Proof.
  rewrite kha_gha_chars. unfold latin_lead. intros H.
  inversion H as [| | | |r1 r2 a' b' Hl|r1 r2 a' b' Hr| | | | | | | | |]; subst; clear H.
  - inversion Hl; subst; clear Hl.
    cbn [pos advance]. rewrite sub_1.
    match goal with E : rest a = _ |- _ => rewrite E end.
    cbn [firstn].
    match goal with E : _ = true |- _ => apply latin_lead_cases in E; cbn in E end.
    unfold answer_tokens. apply in_or_app. left.
    intuition (subst; cbn; tauto).
  - invert_reach;
      cbn [pos rest caps advance capture] in *;
      repeat match goal with
             | E : ?xs = _ :: _ |- _ => is_var xs; subst xs
             end;
      match goal with E : rest _ = _ |- _ => rewrite E end;
      rewrite ?sub_1, ?sub_2, ?sub_3; cbn [firstn];
      unfold answer_tokens; apply in_or_app; right; cbn; tauto.
Qed.

Lemma answer_tail_group (a b : mstate) :
  reach answer_tail a b ->
  exists g, lookup_cap 1 (caps b) = Some g /\ In g answer_tokens.
Proof.
  unfold answer_tail. intros H.
  inversion H as [| | |r1 r2 a0 a1 b0 H1 H2| | | | | | | | | | |]; subst; clear H H1.
  inversion H2 as [| | |r1 r2 a0 a2 b0 H1 H3| | | | | | | | | | |]; subst; clear H2 H1.
  inversion H3 as [| | |r1 r2 a0 a3 b0 H1 H4| | | | | | | | | | |]; subst; clear H3 H1.
  inversion H4 as [| | | | | | | | | | | |n r a0 b0 H5| |]; subst; clear H4.
  eexists. split; [cbn; reflexivity|].
  now apply answer_body_token.
Qed.

Lemma answer_tokens_resolve :
  forallb resolves_to_letter answer_tokens = true.
Proof. vm_compute. reflexivity. Qed.

Lemma detect_in_letter (patterns : list regex) (t : text) :
  Forall (fun r => exists lit, r = Seq lit answer_tail) patterns ->
  detect_in patterns t = Returns None
  \/ exists l, In l answer_letters /\ detect_in patterns t = Returns (Some l).
Proof.
  induction 1 as [|r rs [lit ->] _ IH]; cbn [detect_in]; [now left|].
  destruct (re_search (Seq lit answer_tail) t) as [m|] eqn:E; [|exact IH].
  apply re_search_sound in E. destruct E as (a & b & Hr & Hc).
  inversion Hr as [| | |r1 r2 a0 a1 b0 H1 H2| | | | | | | | | | |]; subst; clear Hr.
  apply answer_tail_group in H2. destruct H2 as (g & Hg & Hin).
  unfold group. rewrite Hc, Hg.
  pose proof answer_tokens_resolve as R.
  rewrite forallb_forall in R. specialize (R g Hin).
  unfold resolves_to_letter in R.
  destruct (normalize_answer (upper (strip g))) as [l|]; [|discriminate].
  right. exists l. split; [|reflexivity].
  apply existsb_exists in R. destruct R as (l' & Hl' & Heq).
  assert (l = l').
  { clear - Heq. revert l' Heq. induction l as [|x l IHl]; intros [|y l'] H; simpl in H;
      try discriminate; auto.
    apply andb_prop in H. destruct H as [H1 H2].
    apply N.eqb_eq in H1. subst. f_equal. auto. }
  now subst.
Qed.

(** C7 (where the code departs from the specification).  The resolver answers "A" on
    [सही उत्तर: क] and "D" on [Answer: D], and leaves the field unset
    without a marker.  It never answers E, F, G or H: whatever the text,
    it returns nothing or one of A, B, C, D, because the two patterns
    capture only A-D, a-d and क ख ग घ.  A marker with च, which the table
    of [normalize_answer] maps to "E", is not found. *)
Theorem detect_correct_answer_letters :
  (forall (t : text) (opts : list text),
      detect_correct_answer t opts = Returns None
      \/ exists l, In l answer_letters
                   /\ detect_correct_answer t opts = Returns (Some l))
  /\ detect_correct_answer (utf8 "भारत की राजधानी? सही उत्तर: क") [] = Returns (Some (utf8 "A"))
  /\ detect_correct_answer (utf8 "Capital of India? Answer: D") [] = Returns (Some (utf8 "D"))
  /\ detect_correct_answer (utf8 "Capital of India?") [] = Returns None
  /\ normalize_answer (utf8 "च") = Some (utf8 "E")
  /\ detect_correct_answer (utf8 "भारत की राजधानी? सही उत्तर: च") [] = Returns None
  /\ detect_correct_answer (utf8 "भारत की राजधानी? सही उत्तर: (च)") [] = Returns None.
Proof.
  split.
  - intros t opts. unfold detect_correct_answer, answer_patterns.
    apply detect_in_letter. repeat constructor; eexists; reflexivity.
  - repeat split; vm_compute; reflexivity.
Qed.

(** ** preprocess_image *)

Section PreprocessFacts.
Context {cv : OpenCV}.

(** The one guarded step: with no contour the crop is skipped, and the
    deskewed image, not the padded copy, is resized. *)
Lemma preprocess_no_contours (image_path : text) (enhance : bool)
  (rotated contour_img : image) :
  deskew image_path enhance = Returns rotated ->
  copyMakeBorder rotated = Returns contour_img ->
  findContours contour_img = Returns [] ->
  preprocess_image image_path enhance = resize rotated.
Proof.
  intros H1 H2 H3. unfold preprocess_image.
  rewrite H1. cbn [bind]. rewrite H2. cbn [bind]. rewrite H3. reflexivity.
Qed.

(** Nothing is caught: an exception of the first call is the caller's. *)
Lemma preprocess_unreadable (image_path : text) (enhance : bool) :
  cvtColor_gray (imread image_path) = Raises ->
  preprocess_image image_path enhance = Raises.
Proof.
  intros H. unfold preprocess_image, deskew. rewrite H. reflexivity.
Qed.

(** What returns is the result of [cv2.resize]. *)
Lemma preprocess_returns_resized (image_path : text) (enhance : bool)
  (out : image) :
  preprocess_image image_path enhance = Returns out ->
  exists rotated contour_img contours,
    deskew image_path enhance = Returns rotated
    /\ copyMakeBorder rotated = Returns contour_img
    /\ findContours contour_img = Returns contours
    /\ ((contours = [] /\ resize rotated = Returns out)
        \/ (exists box, contours <> [] /\ resize (crop contour_img box) = Returns out)).
Proof.
  unfold preprocess_image. intros H.
  destruct (deskew image_path enhance) as [rotated|] eqn:E1; [|discriminate].
  cbn [bind] in H.
  destruct (copyMakeBorder rotated) as [contour_img|] eqn:E2; [|discriminate].
  cbn [bind] in H.
  destruct (findContours contour_img) as [contours|] eqn:E3; [|discriminate].
  cbn [bind] in H.
  exists rotated, contour_img, contours.
  split; [reflexivity|]. split; [assumption|]. split; [assumption|].
  clear E3. destruct contours as [|c cs].
  - left. split; [reflexivity|exact H].
  - right. cbn [bind] in H.
    destruct (max_contour c cs) as [m|]; [|discriminate]. cbn [bind] in H.
    destruct (boundingRect m) as [box|]; [|discriminate]. cbn [bind] in H.
    exists box. split; [discriminate|exact H].
Qed.

Lemma deskew_channels (image_path : text) (enhance : bool) (rotated : image) :
  (forall g t, adaptiveThreshold g = Returns t -> channels t = 1%nat) ->
  (forall t M size r, warpAffine t M size = Returns r -> channels r = channels t) ->
  (forall r e, clahe_apply r = Returns e -> channels e = channels r) ->
  deskew image_path enhance = Returns rotated ->
  channels rotated = 1%nat.
Proof.
  intros Ht Hw Hc. unfold deskew.
  destruct (cvtColor_gray (imread image_path)) as [gray|]; [|discriminate].
  cbn [bind].
  destruct (if enhance then g <- medianBlur gray;; GaussianBlur g else Returns gray)
    as [gray'|]; [|discriminate].
  cbn [bind].
  destruct (adaptiveThreshold gray') as [thresh|] eqn:Eth; [|discriminate].
  cbn [bind].
  destruct (minAreaRect_angle (nonzero_coords thresh)) as [angle|]; [|discriminate].
  cbn [bind].
  destruct (imread image_path) as [img|]; [|discriminate].
  destruct (shape img) as [h w].
  destruct (getRotationMatrix2D _ _) as [M|]; [|discriminate].
  cbn [bind].
  destruct (warpAffine thresh M (w, h)) as [r|] eqn:Ew; [|discriminate].
  cbn [bind].
  apply Hw in Ew. apply Ht in Eth.
  destruct enhance.
  - intros He. apply Hc in He. congruence.
  - intros He. injection He as <-. congruence.
Qed.

End PreprocessFacts.

Section PreprocessCallFacts.
Context {cv : OpenCV}.

Lemma deskew_returns (image_path : text) (enhance : bool) (rotated : image) :
  deskew image_path enhance = Returns rotated
  <-> deskew_calls_return image_path enhance rotated.
Proof.
  unfold deskew, deskew_calls_return. split.
  - destruct (imread image_path) as [img|] eqn:Ei.
    + destruct (cvtColor_gray (Some img)) as [gray|] eqn:Eg; [|discriminate].
      cbn [bind].
      destruct (if enhance then g <- medianBlur gray;; GaussianBlur g else Returns gray)
        as [smooth|] eqn:Es; [|discriminate].
      cbn [bind].
      destruct (adaptiveThreshold smooth) as [thresh|] eqn:Et; [|discriminate].
      cbn [bind].
      destruct (minAreaRect_angle (nonzero_coords thresh)) as [angle|] eqn:Ea;
        [|discriminate].
      cbn [bind].
      destruct (shape img) as [h w] eqn:Esh. cbn [fst snd].
      destruct (getRotationMatrix2D ((w / 2)%Z, (h / 2)%Z) (correct_angle angle))
        as [M|] eqn:EM; [|discriminate].
      cbn [bind].
      destruct (warpAffine thresh M (w, h)) as [warped|] eqn:Ew; [|discriminate].
      cbn [bind]. intros Hc.
      exists img, gray, smooth, thresh, angle, M, warped.
      rewrite Esh. cbn [fst snd].
      split; [reflexivity|]. split; [exact Eg|].
      split.
      { destruct enhance.
        - destruct (medianBlur gray) as [g|] eqn:Em; [|discriminate Es].
          cbn [bind] in Es. exists g. split; [reflexivity|exact Es].
        - injection Es as <-. reflexivity. }
      split; [exact Et|]. split; [exact Ea|]. split; [exact EM|].
      split; [exact Ew|].
      destruct enhance; [exact Hc|]. injection Hc as <-. reflexivity.
    + destruct (cvtColor_gray None) as [gray|]; [|discriminate].
      cbn [bind].
      destruct (if enhance then g <- medianBlur gray;; GaussianBlur g else Returns gray)
        as [smooth|]; [|discriminate].
      cbn [bind].
      destruct (adaptiveThreshold smooth) as [thresh|]; [|discriminate].
      cbn [bind].
      destruct (minAreaRect_angle (nonzero_coords thresh)); discriminate.
  - intros (img & gray & smooth & thresh & angle & M & warped
            & Ei & Eg & Es & Et & Ea & EM & Ew & Ec).
    rewrite Ei, Eg. cbn [bind].
    assert (Es' : (if enhance then g <- medianBlur gray;; GaussianBlur g
                   else Returns gray) = Returns smooth).
    { destruct enhance.
      - destruct Es as (g & E1 & E2). rewrite E1. cbn [bind]. exact E2.
      - now subst. }
    rewrite Es'. cbn [bind]. rewrite Et. cbn [bind]. rewrite Ea. cbn [bind].
    destruct (shape img) as [h w]. cbn [fst snd] in EM, Ew.
    rewrite EM. cbn [bind]. rewrite Ew. cbn [bind].
    destruct enhance; [exact Ec|now subst].
Qed.

Lemma preprocess_returns (image_path : text) (enhance : bool) (out : image) :
  preprocess_image image_path enhance = Returns out
  <-> calls_return image_path enhance out.
Proof.
  unfold preprocess_image, calls_return. split.
  - destruct (deskew image_path enhance) as [rotated|] eqn:Ed; [|discriminate].
    cbn [bind].
    destruct (copyMakeBorder rotated) as [contour_img|] eqn:Eb; [|discriminate].
    cbn [bind].
    destruct (findContours contour_img) as [contours|] eqn:Ef; [|discriminate].
    cbn [bind]. apply deskew_returns in Ed.
    destruct contours as [|c cs]; cbn [bind].
    + intros Hr. exists rotated, contour_img, [], rotated. auto.
    + destruct (max_contour c cs) as [max_c|] eqn:Em; [|discriminate].
      cbn [bind].
      destruct (boundingRect max_c) as [box|] eqn:Ebox; [|discriminate].
      cbn [bind]. intros Hr.
      exists rotated, contour_img, (c :: cs), (crop contour_img box).
      split; [exact Ed|]. split; [exact Eb|]. split; [exact Ef|].
      split; [|exact Hr]. exists max_c, box. auto.
  - intros (rotated & contour_img & contours & cropped & Ed & Eb & Ef & Ec & Er).
    apply deskew_returns in Ed. rewrite Ed. cbn [bind].
    rewrite Eb. cbn [bind]. rewrite Ef. cbn [bind].
    destruct contours as [|c cs].
    + subst cropped. cbn [bind]. exact Er.
    + destruct Ec as (max_c & box & Em & Ebox & ->).
      rewrite Em. cbn [bind]. rewrite Ebox. cbn [bind]. exact Er.
Qed.

Lemma max_from_raises (cs : list contour) :
  forall best area,
    max_from best area cs = Raises
    <-> exists c', In c' cs /\ contourArea c' = Raises.
Proof.
  induction cs as [|c cs IH]; intros best area; cbn [max_from].
  - split; [discriminate|]. intros (c' & [] & _).
  - destruct (contourArea c) as [a|] eqn:E; cbn [bind].
    + assert (R : (exists c', In c' cs /\ contourArea c' = Raises)
                  <-> exists c', In c' (c :: cs) /\ contourArea c' = Raises).
      { split.
        - intros (c' & Hin & Hr). exists c'. split; [now right|exact Hr].
        - intros (c' & [<-|Hin] & Hr).
          + rewrite E in Hr. discriminate Hr.
          + exists c'. split; assumption. }
      destruct (Qle_bool a area); rewrite IH; exact R.
    + split; [|reflexivity]. intros _. exists c. split; [now left|exact E].
Qed.

Lemma max_from_returns (cs : list contour) :
  forall best area m,
    contourArea best = Returns area ->
    max_from best area cs = Returns m ->
    (m = best \/ In m cs)
    /\ exists am, contourArea m = Returns am /\ (area <= am)%Q
                  /\ forall c' a', In c' cs -> contourArea c' = Returns a' ->
                                   (a' <= am)%Q.
Proof.
  induction cs as [|c cs IH]; intros best area m Hb; cbn [max_from].
  - intros H. injection H as <-. split; [now left|].
    exists area. split; [exact Hb|]. split; [lra|]. intros c' a' [].
  - destruct (contourArea c) as [a|] eqn:E; cbn [bind]; [|discriminate].
    destruct (Qle_bool a area) eqn:L; intros H.
    + apply Qle_bool_iff in L.
      destruct (IH best area m Hb H) as (Hin & am & Ham & Hle & Hall).
      split; [destruct Hin; [now left|right; now right]|].
      exists am. split; [exact Ham|]. split; [exact Hle|].
      intros c' a' [<-|Hc'] Ha'.
      * rewrite E in Ha'. injection Ha' as <-. lra.
      * exact (Hall c' a' Hc' Ha').
    + assert (L' : (area < a)%Q).
      { apply Qnot_le_lt. intros X. apply Qle_bool_iff in X. congruence. }
      destruct (IH c a m E H) as (Hin & am & Ham & Hle & Hall).
      split; [destruct Hin as [->|Hin]; right; [now left|now right]|].
      exists am. split; [exact Ham|]. split; [lra|].
      intros c' a' [<-|Hc'] Ha'.
      * rewrite E in Ha'. injection Ha' as <-. exact Hle.
      * exact (Hall c' a' Hc' Ha').
Qed.

Lemma max_contour_raises (c : contour) (cs : list contour) :
  max_contour c cs = Raises
  <-> exists c', In c' (c :: cs) /\ contourArea c' = Raises.
Proof.
  unfold max_contour. destruct (contourArea c) as [a|] eqn:E; cbn [bind].
  - rewrite max_from_raises. split.
    + intros (c' & Hin & Hr). exists c'. split; [now right|exact Hr].
    + intros (c' & [<-|Hin] & Hr).
      * rewrite E in Hr. discriminate Hr.
      * exists c'. split; assumption.
  - split; [|reflexivity]. intros _. exists c. split; [now left|exact E].
Qed.

Lemma max_contour_returns (c : contour) (cs : list contour) (m : contour) :
  max_contour c cs = Returns m ->
  In m (c :: cs)
  /\ exists am, contourArea m = Returns am
                /\ forall c' a', In c' (c :: cs) -> contourArea c' = Returns a' ->
                                 (a' <= am)%Q.
Proof.
  unfold max_contour. destruct (contourArea c) as [a|] eqn:E; cbn [bind];
    [|discriminate].
  intros H. destruct (max_from_returns E H) as (Hin & am & Ham & Hle & Hall).
  split; [destruct Hin as [->|Hin]; [now left|now right]|].
  exists am. split; [exact Ham|].
  intros c' a' [<-|Hc'] Ha'.
  - rewrite E in Ha'. injection Ha' as <-. exact Hle.
  - exact (Hall c' a' Hc' Ha').
Qed.

End PreprocessCallFacts.

(** C8 (as amended).  [preprocess_image] guards one step: when no contour
    is found the crop is skipped and the deskewed image, without the
    padding, is resized and returned.  It catches nothing: it returns
    exactly when the read and every OpenCV call in its path return
    ([cv2.cvtColor], the two blurs and the equalization under [enhance],
    [cv2.adaptiveThreshold], [cv2.minAreaRect], [cv2.getRotationMatrix2D],
    [cv2.warpAffine], [cv2.copyMakeBorder], [cv2.findContours], every
    [cv2.contourArea], [cv2.boundingRect], [cv2.resize]), and raises as
    soon as one of them does; with contours, the crop is the bounding box
    of a contour of largest area.  When it returns, the image is the
    result of [cv2.resize], single-channel as long as thresholding yields
    one channel and warping, equalization, padding, cropping and resizing
    keep the number of channels. *)
Theorem preprocess_image_guards_crop_only {cv : OpenCV}
  (image_path : text) (enhance : bool) :
  (forall rotated contour_img,
      deskew image_path enhance = Returns rotated ->
      copyMakeBorder rotated = Returns contour_img ->
      findContours contour_img = Returns [] ->
      preprocess_image image_path enhance = resize rotated)
  /\ (cvtColor_gray (imread image_path) = Raises ->
      preprocess_image image_path enhance = Raises)
  /\ (forall out, preprocess_image image_path enhance = Returns out
                  <-> calls_return image_path enhance out)
  /\ (preprocess_image image_path enhance = Raises
      <-> forall out, ~ calls_return image_path enhance out)
  /\ (forall c cs,
         (max_contour c cs = Raises
          <-> exists c', In c' (c :: cs) /\ contourArea c' = Raises)
         /\ forall m, max_contour c cs = Returns m ->
              In m (c :: cs)
              /\ exists am, contourArea m = Returns am
                   /\ forall c' a', In c' (c :: cs) ->
                        contourArea c' = Returns a' -> (a' <= am)%Q)
  /\ ((forall g t, adaptiveThreshold g = Returns t -> channels t = 1%nat) ->
      (forall t M size r, warpAffine t M size = Returns r -> channels r = channels t) ->
      (forall r e, clahe_apply r = Returns e -> channels e = channels r) ->
      (forall r p, copyMakeBorder r = Returns p -> channels p = channels r) ->
      (forall p box, channels (crop p box) = channels p) ->
      (forall r out, resize r = Returns out -> channels out = channels r) ->
      forall out, preprocess_image image_path enhance = Returns out ->
                  channels out = 1%nat).
Proof.
  split; [|split; [|split; [|split; [|split]]]].
  - intros rotated contour_img. apply preprocess_no_contours.
  - apply preprocess_unreadable.
  - intros out. apply preprocess_returns.
  - split.
    + intros Hr out Hc. apply preprocess_returns in Hc.
      rewrite Hr in Hc. discriminate Hc.
    + intros Hn. destruct (preprocess_image image_path enhance) as [out|] eqn:E;
        [|reflexivity].
      apply preprocess_returns in E. destruct (Hn out E).
  - intros c cs. split; [apply max_contour_raises|].
    intros m. apply max_contour_returns.
  - intros Ht Hw Hc Hb Hcrop Hr out Hout.
    apply preprocess_returns_resized in Hout.
    destruct Hout as (rotated & contour_img & contours & Hd & Hp & _ & Hres).
    pose proof (deskew_channels Ht Hw Hc Hd) as H1.
    apply Hb in Hp.
    destruct Hres as [[_ Hres]|(box & _ & Hres)]; apply Hr in Hres.
    + congruence.
    + rewrite Hcrop in Hres. congruence.
Qed.

Lemma preprocess_image_guards_crop_only_witness :
  deskew (utf8 "page.png") false = Returns 1%nat
  /\ preprocess_image (utf8 "page.png") false = Returns 1%nat
  /\ preprocess_image (utf8 "missing.png") false = Raises
  /\ calls_return (utf8 "page.png") false 1%nat
  /\ (forall out : image,
         preprocess_image (utf8 "page.png") false = Returns out ->
         channels out = 1%nat).
Proof.
  pose proof (@preprocess_image_guards_crop_only channel_count_cv
                (utf8 "page.png") false) as (Hskip & _ & Hret & _ & _ & Hch).
  pose proof (@preprocess_image_guards_crop_only channel_count_cv
                (utf8 "missing.png") false) as (_ & Hraise & _).
  split; [reflexivity|].
  split; [apply (Hskip 1%nat 1%nat); reflexivity|].
  split; [apply Hraise; reflexivity|].
  split; [apply Hret; reflexivity|].
  apply Hch.
  - intros g t E. injection E as <-. reflexivity.
  - intros t M size r E. injection E as <-. reflexivity.
  - intros r e E. injection E as <-. reflexivity.
  - intros r p E. injection E as <-. reflexivity.
  - intros p box. reflexivity.
  - intros r out E. injection E as <-. reflexivity.
Defined.

(** C8 (as stated) fails on images that can be read.  On the banner the
    rotation raises and the whole function raises with it: nothing
    degrades gracefully.  On the page, where no contour is found, the
    image that is resized is the deskewed one of 100 by 80, not its padded
    copy of 110 by 90: the result is 200 by 160, not 220 by 180. *)
Lemma preprocess_image_raises :
  @imread shape_cv (utf8 "banner.png") = Some (3%nat, (40, 40000)%Z)
  /\ @preprocess_image shape_cv (utf8 "banner.png") false = Raises
  /\ @preprocess_image shape_cv (utf8 "banner.png") true = Raises
  /\ @deskew shape_cv (utf8 "page.png") false = Returns (1%nat, (100, 80)%Z)
  /\ @copyMakeBorder shape_cv (1%nat, (100, 80)%Z) = Returns (1%nat, (110, 90)%Z)
  /\ @findContours shape_cv (1%nat, (110, 90)%Z) = Returns []
  /\ @preprocess_image shape_cv (utf8 "page.png") false
     = Returns (1%nat, (200, 160)%Z)
  /\ @resize shape_cv (1%nat, (110, 90)%Z) = Returns (1%nat, (220, 180)%Z).
Proof. repeat split. Qed.

(** * Further properties *)

(** ** What normalize_text returns *)

Lemma spaced_only_u0020 (s : text) (c : N) :
  spaced s = true -> In c s -> isspace c = true -> c = 32.
Proof.
  induction s as [|d s IH]; simpl; [tauto|].
  intros H [->|Hin] Hc.
  - apply andb_prop in H. destruct H as [H _]. rewrite Hc in H.
    apply andb_prop in H. destruct H as [H _]. now apply N.eqb_eq.
  - apply andb_prop in H. destruct H as [_ H]. auto.
Qed.

Lemma spaced_no_double (s a b : text) :
  spaced s = true -> s <> a ++ 32 :: 32 :: b.
Proof.
  intros H E. subst s. apply spaced_app in H. destruct H as [_ H].
  simpl in H. discriminate.
Qed.

Lemma no_pair_spec (m : N) (s : text) :
  no_pair m s = true <-> forall a b, s <> a ++ m :: 32 :: b.
Proof.
  split.
  - intros H a b E. subst s. apply no_pair_app in H. destruct H as [_ H].
    simpl in H. now rewrite N.eqb_refl in H.
  - induction s as [|c s IH]; intros H; simpl; [reflexivity|].
    rewrite IH.
    + rewrite andb_true_r. apply negb_true_iff.
      destruct (N.eqb_spec c m) as [->|]; [|reflexivity].
      destruct s as [|d s]; [reflexivity|]. simpl.
      destruct (N.eqb_spec d 32) as [->|]; [|reflexivity].
      exfalso. apply (H [] s). reflexivity.
    + intros a b E. apply (H (c :: a) b). simpl. now rewrite E.
Qed.

(** X1.  The text that [normalize_text] returns has no whitespace at either
    end, and inside it every whitespace character is one U+0020 standing
    alone: no tab, no line break, no two spaces in a row. *)
Theorem normalize_text_whitespace {U : UnicodeData} (x : text) :
  strip (normalize_text x) = normalize_text x
  /\ (forall c, In c (normalize_text x) -> isspace c = true -> c = 32)
  /\ (forall a b, normalize_text x <> a ++ 32 :: 32 :: b).
Proof.
  destruct (normalize_text_normal_form x) as [Hs _ _ _ Hst].
  split; [exact Hst|]. split.
  - intros c. now apply spaced_only_u0020.
  - intros a b. now apply spaced_no_double.
Qed.

(** X2.  The text that [normalize_text] returns holds none of the
    characters the replacement table rewrites (the ASCII digits, the pipe,
    the hyphen, the backtick and the two ASCII quotes), and each of its
    characters is ASCII, Devanagari, or one of the four typographic marks
    the table writes. *)
Theorem normalize_text_alphabet {U : UnicodeData} (x : text) (c : N) :
  In c (normalize_text x) ->
  ~ In c replaced_chars
  /\ (c <= 0x7F \/ 0x900 <= c <= 0x97F \/ In c typographic).
Proof.
  intros Hin.
  destruct (normalize_text_normal_form x) as [Hs _ Hk Hc _].
  rewrite Forall_forall in Hk, Hc. specialize (Hk c Hin). specialize (Hc c Hin).
  split.
  - unfold not_key in Hk. apply negb_true_iff in Hk.
    intros Hr.
    assert (T : existsb (N.eqb c) replaced_chars = true).
    { apply existsb_exists. exists c. split; [assumption|apply N.eqb_refl]. }
    congruence.
  - unfold ok_char in Hc. apply orb_prop in Hc. destruct Hc as [Hc|Hc].
    + unfold keep_char in Hc. apply orb_prop in Hc. destruct Hc as [Hc|Hc].
      * apply orb_prop in Hc. destruct Hc as [Hc|Hc].
        -- left. apply N.leb_le. exact Hc.
        -- right. left. apply andb_prop in Hc. destruct Hc as [H1 H2].
           apply N.leb_le in H1, H2. split; assumption.
      * left. rewrite (spaced_only_u0020 Hs Hin Hc).
        apply N.leb_le. reflexivity.
    + right. right. apply existsb_exists in Hc. destruct Hc as (d & Hd & E).
      apply N.eqb_eq in E. subst d. exact Hd.
Qed.

Lemma normalize_text_alphabet_witness :
  In 0x967 (normalize_text raw_sample)
  /\ ~ In 0x967 replaced_chars
  /\ (0x967 <= 0x7F \/ 0x900 <= 0x967 <= 0x97F \/ In 0x967 typographic).
Proof.
  assert (H : In 0x967 (normalize_text raw_sample)).
  { vm_compute. tauto. }
  split; [exact H|].
  exact (normalize_text_alphabet (x := raw_sample) H).
Defined.

(** X3.  In the text that [normalize_text] returns, none of the six vowel
    signs of [matra_fixes] is followed by a space: a word that ends in one
    of them is joined to the word after it. *)
Theorem normalize_text_joins_after_matra {U : UnicodeData} (x : text) :
  forall m a b, In m matras -> normalize_text x <> a ++ m :: 32 :: b.
Proof.
  intros m a b Hm.
  destruct (normalize_text_normal_form x) as [_ Hp _ _ _].
  unfold no_matra_space in Hp. rewrite forallb_forall in Hp.
  apply (proj1 (no_pair_spec m (normalize_text x))). auto.
Qed.

Lemma normalize_text_joins_after_matra_witness :
  In 0x940 matras
  /\ normalize_text (utf8 "भारत की राजधानी") = utf8 "भारत कीराजधानी"
  /\ normalize_text (utf8 "भारत की राजधानी") <> utf8 "भारत " ++ 0x940 :: 32 :: utf8 "राजधानी".
Proof.
  assert (H : In 0x940 matras) by (vm_compute; tauto).
  split; [exact H|].
  split; [vm_compute; reflexivity|].
  apply (normalize_text_joins_after_matra (x := utf8 "भारत की राजधानी") H).
Defined.

(** ** fix_matras *)

Lemma replace_pair_length (m : N) (s : text) :
  le (length (replace_go [m; 32] [m] 0 s)) (length s)
  /\ (no_pair m s = false ->
      lt (length (replace_go [m; 32] [m] 0 s)) (length s)).
Proof.
  induction s as [s IH] using list_length_ind.
  destruct s as [|c t]; [simpl; split; [lia|discriminate]|].
  rewrite replace_pair_cons. cbn [no_pair].
  destruct ((c =? m) && head_is_space t) eqn:E.
  - destruct t as [|d t']; [rewrite andb_false_r in E; discriminate|].
    cbn [tl]. destruct (IH t') as [L _]; [simpl; lia|].
    simpl. split; [lia|intros _; lia].
  - destruct (IH t) as [L S]; [simpl; lia|].
    simpl. split; [lia|]. intros H. specialize (S H). lia.
Qed.

(** X4.  [fix_matras] never makes a text longer, and the texts it leaves
    unchanged are exactly those in which none of its six vowel signs is
    followed by a space. *)
Theorem fix_matras_fixpoints (s : text) :
  (length (fix_matras s) <= length s)%nat
  /\ (fix_matras s = s <-> no_matra_space s = true).
Proof.
  rewrite fix_matras_unfold. unfold no_matra_space.
  revert s. generalize matras. intros ms.
  induction ms as [|m ms IH]; intros s; cbn [fold_left forallb].
  - split; [lia|tauto].
  - destruct (IH (replace_go [m; 32] [m] 0 s)) as [L F].
    destruct (replace_pair_length m s) as [L1 S1].
    split; [lia|]. split.
    + intros E. destruct (no_pair m s) eqn:P.
      * rewrite (replace_pair_fixed P) in E, F. simpl. now apply F.
      * specialize (S1 eq_refl). rewrite E in L. lia.
    + intros H. apply andb_prop in H. destruct H as [P H].
      rewrite (replace_pair_fixed P). rewrite (replace_pair_fixed P) in F.
      now apply F.
Qed.

(** ** The confidence score: range and short columns *)

Lemma confidences_from_Forall (P : Z -> Prop) (confs : list Z) (texts : list text) :
  Forall (fun c => c <> (-1)%Z -> P c) confs ->
  forall i acc l, Forall P acc ->
                  confidences_from i confs texts acc = Returns l -> Forall P l.
Proof.
  induction 1 as [|c confs Hc _ IH]; intros i acc l Hacc E; cbn [confidences_from] in E.
  - injection E as <-. exact Hacc.
  - destruct (Z.eqb_spec c (-1)) as [->|Hne].
    + eapply IH; eassumption.
    + destruct (nth_error texts i) as [t|]; [|discriminate].
      destruct (strip t).
      * eapply IH; eassumption.
      * eapply IH; [|exact E]. apply Forall_app. split; [assumption|].
        constructor; [auto|constructor].
Qed.

Lemma sumZ_from (l : list Z) (a : Z) : fold_left Z.add l a = (a + sumZ l)%Z.
Proof.
  unfold sumZ. revert a. induction l as [|x l IH]; intros a; simpl; [lia|].
  rewrite IH, (IH x). lia.
Qed.

Lemma sumZ_bounds (l : list Z) :
  Forall (fun c => (0 <= c <= 100)%Z) l ->
  (0 <= sumZ l <= 100 * Z.of_nat (length l))%Z.
Proof.
  induction 1 as [|c l Hc _ IH].
  - unfold sumZ. simpl. lia.
  - unfold sumZ. cbn [fold_left length]. rewrite sumZ_from. lia.
Qed.

(** X5.  When every reported confidence is -1 or lies between 0 and 100,
    as Tesseract reports them, the score lies between 0 and 100, whatever
    the recognizer returned or raised. *)
Theorem get_ocr_confidence_range (d : ocr_data) :
  Forall (fun c => (-1 <= c <= 100)%Z) (data_conf d) ->
  (0 <= get_ocr_confidence (Returns d) <= 100)%Q.
Proof.
  intros H. unfold get_ocr_confidence.
  destruct (confidences_from 0 (data_conf d) (data_text d) []) as [l|] eqn:E.
  2:{ split; unfold Qle; simpl; lia. }
  assert (B : Forall (fun c => (0 <= c <= 100)%Z) l).
  { eapply confidences_from_Forall; [| |exact E]; [|constructor].
    eapply Forall_impl; [|exact H]. simpl. intros c Hc Hne. lia. }
  apply sumZ_bounds in B.
  destruct l as [|c l]; [split; unfold Qle; simpl; lia|].
  remember (c :: l) as cs eqn:Ecs.
  assert (N : (0 < Z.of_nat (length cs))%Z) by (subst cs; simpl; lia).
  destruct (Z.of_nat (length cs)) as [|p|p] eqn:Ep; try lia.
  unfold Qle, Qdiv, Qmult, Qinv, inject_Z. simpl. split; nia.
Qed.

Lemma get_ocr_confidence_range_witness :
  Forall (fun c => (-1 <= c <= 100)%Z) (data_conf five_tokens)
  /\ (0 <= get_ocr_confidence (Returns five_tokens) <= 100)%Q.
Proof.
  assert (H : Forall (fun c => (-1 <= c <= 100)%Z) (data_conf five_tokens)).
  { repeat constructor; simpl; lia. }
  split; [exact H|]. exact (get_ocr_confidence_range H).
Defined.

Lemma confidences_from_short (confs : list Z) (texts : list text) :
  forall (k i : nat) (c : Z) (acc : list Z),
    nth_error confs k = Some c -> c <> (-1)%Z ->
    (length texts <= i + k)%nat ->
    confidences_from i confs texts acc = Raises.
Proof.
  induction confs as [|c0 confs IH]; intros k i c acc Hk Hc Hlen.
  - destruct k; discriminate.
  - cbn [confidences_from].
    destruct k as [|k]; simpl in Hk.
    + injection Hk as ->.
      destruct (Z.eqb_spec c (-1)); [contradiction|].
      rewrite (proj2 (nth_error_None texts i)); [reflexivity|lia].
    + destruct (c0 =? -1)%Z.
      * apply (IH k (S i) c); auto. lia.
      * destruct (nth_error texts i) as [t|]; [|reflexivity].
        destruct (strip t); apply (IH k (S i) c); auto; lia.
Qed.

(** X6.  When the text column is too short for a token whose confidence is
    not -1, reading the token's text raises inside the function and the
    score is 0, whatever the other tokens are. *)
Theorem get_ocr_confidence_short_column (d : ocr_data) (k : nat) (c : Z) :
  nth_error (data_conf d) k = Some c -> c <> (-1)%Z ->
  (length (data_text d) <= k)%nat ->
  get_ocr_confidence (Returns d) = 0%Q.
Proof.
  intros Hk Hc Hlen. unfold get_ocr_confidence.
  rewrite (confidences_from_short (k := k) (i := 0) (c := c)); auto.
Qed.

Lemma get_ocr_confidence_short_column_witness :
  get_ocr_confidence
    (Returns {| data_conf := [90; 80]%Z; data_text := [utf8 "भारत"] |}) = 0%Q.
Proof.
  apply (get_ocr_confidence_short_column (k := 1) (c := 80%Z)).
  - reflexivity.
  - discriminate.
  - simpl. lia.
Defined.

(** ** The parser: lines that do not count *)

Section ParserLines.
Context {U : UnicodeData}.

Lemma step_strip (st : parser) (raw : text) : step st (strip raw) = step st raw.
Proof. unfold step. now rewrite strip_strip. Qed.

Lemma step_blank (st : parser) (raw : text) : nonblank raw = false -> step st raw = st.
Proof. unfold nonblank, step. now destruct (strip raw). Qed.

Lemma parse_lines_tidy (lines : list text) :
  forall st, parse_lines st (map strip (filter nonblank lines)) = parse_lines st lines.
Proof.
  unfold parse_lines.
  induction lines as [|l ls IH]; intros st; cbn [filter map fold_left]; [reflexivity|].
  destruct (nonblank l) eqn:E.
  - cbn [map fold_left]. now rewrite step_strip, IH.
  - now rewrite (step_blank st E), IH.
Qed.

Lemma extract_questions_join_lines (ls : list text) :
  Forall (fun l => ~ In 10 l) ls ->
  extract_questions (join_lines ls) = save (parse_lines start ls).
Proof.
  intros H. unfold extract_questions.
  destruct ls as [|l ls]; [reflexivity|].
  rewrite split_join_lines; [reflexivity|discriminate|assumption].
Qed.

Lemma strip_no_newline (l : text) : ~ In 10 l -> ~ In 10 (strip l).
Proof.
  destruct (strip_infix l) as (pre & post & E). intros H Hin. apply H.
  rewrite E. apply in_or_app. right. apply in_or_app. now left.
Qed.

Lemma step_start_no_header (raw : text) : header raw = false -> step start raw = start.
Proof.
  unfold header, step. destruct (strip raw) as [|c l]; [reflexivity|].
  destruct (question_match (c :: l)); [discriminate|].
  intros _. cbn [current_question start]. now destruct (option_match (c :: l)).
Qed.

Lemma parse_lines_no_header (lines : list text) :
  forallb (fun l => negb (header l)) lines = true -> parse_lines start lines = start.
Proof.
  unfold parse_lines.
  induction lines as [|l ls IH]; cbn [forallb fold_left]; [reflexivity|].
  intros H. apply andb_prop in H. destruct H as [Hl Hls].
  apply negb_true_iff in Hl. now rewrite (step_start_no_header Hl), IH.
Qed.

End ParserLines.

(** X7.  Blank lines and the whitespace around a line do not count: the
    parser returns the same records for a text and for the text with its
    blank lines removed and every line stripped. *)
Theorem extract_questions_ignores_blank_and_indent {U : UnicodeData}
  (lines : list text) :
  Forall (fun l => ~ In 10 l) lines ->
  extract_questions (join_lines (map strip (filter nonblank lines)))
  = extract_questions (join_lines lines).
Proof.
  intros H. rewrite !extract_questions_join_lines.
  - now rewrite parse_lines_tidy.
  - exact H.
  - apply Forall_forall. intros l Hl. apply in_map_iff in Hl.
    destruct Hl as (l' & <- & Hl'). apply filter_In in Hl'.
    apply strip_no_newline. rewrite Forall_forall in H. apply H. tauto.
Qed.

Lemma extract_questions_ignores_blank_and_indent_witness :
  extract_questions
    (join_lines (map strip (filter nonblank
       [utf8 "   1. Capital of India?"; utf8 "  "; utf8 "	A) Delhi "; utf8 ""])))
  = extract_questions
      (join_lines [utf8 "   1. Capital of India?"; utf8 "  "; utf8 "	A) Delhi "; utf8 ""]).
Proof.
  apply extract_questions_ignores_blank_and_indent.
  repeat constructor; vm_compute; intuition discriminate.
Defined.

(** X8.  What comes before the first question header is discarded: the
    lines of a text up to its first header change nothing, and a text
    without any header gives no record. *)
Theorem extract_questions_skips_preamble {U : UnicodeData}
  (before lines : list text) :
  Forall (fun l => ~ In 10 l) (before ++ lines) ->
  forallb (fun l => negb (header l)) before = true ->
  extract_questions (join_lines (before ++ lines))
  = extract_questions (join_lines lines)
  /\ extract_questions (join_lines before) = [].
Proof.
  intros Hnl Hb. pose proof Hnl as Hnl'.
  apply Forall_app in Hnl'. destruct Hnl' as [H1 H2].
  rewrite !extract_questions_join_lines by assumption.
  rewrite parse_lines_app, (parse_lines_no_header Hb). split; reflexivity.
Qed.

Lemma extract_questions_skips_preamble_witness :
  extract_questions
    (join_lines ([utf8 "General knowledge"; utf8 "A) stray option"]
                 ++ [utf8 "1. Capital of India?"; utf8 "A) Delhi"]))
  = extract_questions (join_lines [utf8 "1. Capital of India?"; utf8 "A) Delhi"])
  /\ extract_questions (join_lines [utf8 "General knowledge"; utf8 "A) stray option"]) = [].
Proof.
  apply extract_questions_skips_preamble.
  - repeat constructor; vm_compute; intuition discriminate.
  - vm_compute. reflexivity.
Defined.

(** ** The parser: one line, and a text cut at a header *)

Section ParserBlocks.
Context {U : UnicodeData}.

Lemma save_step_start (raw : text) : save (step start raw) = [].
Proof.
  destruct (header raw) eqn:E.
  - destruct (step_header start E) as (Q & O & _).
    rewrite (save_no_options O). exact Q.
  - rewrite (step_start_no_header E). reflexivity.
Qed.

Lemma split_lines_cons (s : text) : exists l ls, split_lines s = l :: ls.
Proof.
  destruct s as [|c s]; simpl; [eauto|].
  destruct (c =? 10); [eauto|].
  destruct (split_lines s); eauto.
Qed.

Lemma split_lines_newline (a b : text) :
  split_lines (a ++ 10 :: b) = split_lines a ++ split_lines b.
Proof.
  induction a as [|c a IH]; [reflexivity|].
  cbn [app split_lines]. rewrite IH.
  destruct (c =? 10); [reflexivity|].
  destruct (split_lines_cons a) as (l & ls & E). rewrite E. reflexivity.
Qed.

(** Two runs that differ only by records already saved stay so. *)
Lemma step_saved (before : list question) (st1 st2 : parser) (raw : text) :
  questions st1 = before ++ questions st2 ->
  current_question st1 = current_question st2 ->
  current_options st1 = current_options st2 ->
  questions (step st1 raw) = before ++ questions (step st2 raw)
  /\ current_question (step st1 raw) = current_question (step st2 raw)
  /\ current_options (step st1 raw) = current_options (step st2 raw).
Proof.
  intros Q C O. unfold step.
  destruct (strip raw) as [|c l]; [auto|].
  destruct (question_match (c :: l)).
  - cbn [questions current_question current_options].
    split; [|split; reflexivity].
    unfold save. rewrite Q, C, O.
    destruct (current_question st2); [|reflexivity].
    destruct (current_options st2); [reflexivity|].
    now rewrite app_assoc.
  - rewrite C.
    destruct (option_match (c :: l)), (current_question st2) eqn:E;
      cbn [questions current_question current_options];
      rewrite ?O, ?E; auto.
Qed.

Lemma parse_lines_saved (before : list question) (lines : list text) :
  forall st1 st2,
    questions st1 = before ++ questions st2 ->
    current_question st1 = current_question st2 ->
    current_options st1 = current_options st2 ->
    save (parse_lines st1 lines) = before ++ save (parse_lines st2 lines).
Proof.
  unfold parse_lines.
  induction lines as [|l ls IH]; intros st1 st2 Q C O; cbn [fold_left].
  - unfold save. rewrite Q, C, O.
    destruct (current_question st2); [|reflexivity].
    destruct (current_options st2); [reflexivity|].
    now rewrite app_assoc.
  - destruct (step_saved l Q C O) as (Q' & C' & O'). now apply IH.
Qed.

Lemma parse_lines_at_header (before lines : list text) (h : text) :
  header h = true ->
  save (parse_lines start (before ++ h :: lines))
  = save (parse_lines start before) ++ save (parse_lines start (h :: lines)).
Proof.
  intros H. rewrite parse_lines_app.
  change (parse_lines (parse_lines start before) (h :: lines))
    with (parse_lines (step (parse_lines start before) h) lines).
  change (parse_lines start (h :: lines)) with (parse_lines (step start h) lines).
  destruct (step_header (parse_lines start before) H) as (Q1 & O1 & _).
  destruct (step_header start H) as (Q2 & O2 & _).
  apply parse_lines_saved.
  - rewrite Q1, Q2. cbn. now rewrite app_nil_r.
  - unfold header in H. unfold step.
    destruct (strip h) as [|c l]; [discriminate|].
    destruct (question_match (c :: l)); [reflexivity|discriminate].
  - now rewrite O1, O2.
Qed.

End ParserBlocks.

(** X9.  A text without a line break gives no record, so a question and
    its options have to stand on lines of their own; and since
    [normalize_text] returns a single line, parsing a normalized text
    never gives a record. *)
Theorem extract_questions_needs_lines {U : UnicodeData} :
  (forall t : text, ~ In 10 t -> extract_questions t = [])
  /\ (forall x : text, extract_questions (normalize_text x) = []).
Proof.
  assert (G : forall t : text, ~ In 10 t -> extract_questions t = []).
  { intros t H. unfold extract_questions. rewrite (split_lines_single H).
    apply save_step_start. }
  split; [exact G|].
  intros x. apply G. apply spaced_no_newline.
  exact (nf_spaced (normalize_text_normal_form x)).
Qed.

Lemma extract_questions_needs_lines_witness :
  ~ In 10 (utf8 "1. Capital of India? A) Delhi B) Agra")
  /\ extract_questions (utf8 "1. Capital of India? A) Delhi B) Agra") = []
  /\ extract_questions (normalize_text spec_sample) = [].
Proof.
  assert (H : ~ In 10 (utf8 "1. Capital of India? A) Delhi B) Agra")).
  { vm_compute. intuition discriminate. }
  split; [exact H|].
  split.
  - exact (proj1 extract_questions_needs_lines _ H).
  - exact (proj2 extract_questions_needs_lines spec_sample).
Defined.

(** X10.  Parsing is block-wise: when the line after a line break is a
    question header, the records of the whole text are the records of the
    part before the break followed by the records of the part after it. *)
Theorem extract_questions_at_header {U : UnicodeData} (a b : text) :
  header (hd [] (split_lines b)) = true ->
  extract_questions (a ++ 10 :: b) = extract_questions a ++ extract_questions b.
Proof.
  intros H. unfold extract_questions. rewrite split_lines_newline.
  destruct (split_lines_cons b) as (h & ls & E). rewrite E in *.
  cbn [hd] in H. now apply parse_lines_at_header.
Qed.

Lemma extract_questions_at_header_witness :
  header (hd [] (split_lines (join_lines (skipn 2 two_headers)))) = true
  /\ extract_questions (utf8 "1. One?" ++ 10 :: utf8 "A) yes" ++ 10 :: join_lines (skipn 2 two_headers))
     = extract_questions (utf8 "1. One?" ++ 10 :: utf8 "A) yes")
       ++ extract_questions (join_lines (skipn 2 two_headers)).
Proof.
  assert (H : header (hd [] (split_lines (join_lines (skipn 2 two_headers)))) = true).
  { vm_compute. reflexivity. }
  split; [exact H|].
  exact (extract_questions_at_header (utf8 "1. One?" ++ 10 :: utf8 "A) yes") H).
Defined.

(** ** The parser: question numbers *)

Lemma reach_seq_inv (r1 r2 : regex) (a c : mstate) :
  reach (Seq r1 r2) a c -> exists b, reach r1 a b /\ reach r2 b c.
Proof. intros H. inversion H; subst. eauto. Qed.

Lemma reach_chr_caps (c : N) (a b : mstate) : reach (Chr c) a b -> caps b = caps a.
Proof. intros H. inversion H; subst. reflexivity. Qed.

(** A repeated character class takes characters of the class and leaves
    the groups alone. *)
Lemma reach_star_cls (p : N -> bool) (a b : mstate) :
  reach (Star (Cls p)) a b ->
  caps b = caps a
  /\ exists k, pos b = (pos a + k)%nat /\ rest b = skipn k (rest a)
               /\ Forall (fun c => p c = true) (firstn k (rest a)).
Proof.
  intros H. remember (Star (Cls p)) as r eqn:E.
  induction H as
    [a|c a xs E0|q a x xs E0 Hq|r1 r2 a b c _ _ _ _|r1 r2 a b _ _|r1 r2 a b _ _
    |r a b _ _|r a|r a|r a b c H1 _ _ IH2|r a|r a b c _ _ _ _
    |n r a b _ _|r a b _ _|a E0]; try discriminate.
  - split; [reflexivity|]. exists 0%nat.
    rewrite Nat.add_0_r. repeat split. constructor.
  - injection E as ->. destruct (IH2 eq_refl) as (C & k & P & R & F).
    inversion H1; subst.
    cbn [advance pos rest caps] in *.
    split; [exact C|]. exists (S k).
    match goal with E1 : rest a = _ |- _ => rewrite E1 end.
    cbn [skipn firstn]. repeat split; [lia|assumption|].
    constructor; assumption.
Qed.

Lemma reach_number_group (p : N -> bool) (a b : mstate) :
  reach (Group 1 (Plus (Cls p))) a b ->
  exists d, caps b = (1%nat, d) :: caps a /\ d <> []
            /\ Forall (fun c => p c = true) d.
Proof.
  intros H. inversion H as [| | | | | | | | | | | |n r a0 b0 H0| |]; subst; clear H.
  unfold Plus in H0. apply reach_seq_inv in H0. destruct H0 as (m & H1 & H2).
  inversion H1 as [| |q a0 x xs E0 Hq| | | | | | | | | | | |]; subst; clear H1.
  apply reach_star_cls in H2. destruct H2 as (C & k & P & R & F).
  cbn [advance pos rest caps] in *.
  exists (x :: firstn k xs). unfold capture. cbn [caps pos rest].
  rewrite C, P, E0.
  replace (S (pos a) + k - pos a)%nat with (S k) by lia.
  cbn [firstn]. split; [reflexivity|].
  split; [discriminate|]. constructor; assumption.
Qed.

Section QuestionNumbers.
Context {U : UnicodeData}.

Lemma question_pattern_number (r : regex) (a b : mstate) :
  In r question_patterns -> reach r a b ->
  exists d, lookup_cap 1 (caps b) = Some d /\ d <> []
            /\ Forall (fun c => isdecimal c = true) d.
Proof.
  unfold question_patterns, digit. intros [<-|[<-|[<-|[<-|[]]]]] H.
  - apply reach_seq_inv in H. destruct H as (b1 & _ & H).
    apply reach_seq_inv in H. destruct H as (b2 & _ & H).
    apply reach_seq_inv in H. destruct H as (b3 & H & H').
    apply reach_number_group in H. destruct H as (d & C & D).
    apply reach_chr_caps in H'. exists d. rewrite H', C. cbn. auto.
  - apply reach_seq_inv in H. destruct H as (b1 & _ & H).
    apply reach_seq_inv in H. destruct H as (b2 & _ & H).
    apply reach_seq_inv in H. destruct H as (b3 & _ & H).
    apply reach_number_group in H. destruct H as (d & C & D).
    exists d. rewrite C. cbn. auto.
  - apply reach_seq_inv in H. destruct H as (b3 & H & H').
    apply reach_number_group in H. destruct H as (d & C & D).
    apply reach_chr_caps in H'. exists d. rewrite H', C. cbn. auto.
  - apply reach_seq_inv in H. destruct H as (b1 & _ & H).
    apply reach_seq_inv in H. destruct H as (b3 & H & H').
    apply reach_number_group in H. destruct H as (d & C & D).
    apply reach_chr_caps in H'. exists d. rewrite H', C. cbn. auto.
Qed.

Lemma first_match_In (f : regex -> text -> option re_match_obj)
  (patterns : list regex) (line : text) (m : re_match_obj) :
  first_match f patterns line = Some m ->
  exists r, In r patterns /\ f r line = Some m.
Proof.
  induction patterns as [|r rs IH]; cbn [first_match]; [discriminate|].
  destruct (f r line) as [m'|] eqn:E.
  - intros H. injection H as <-. exists r. split; [now left|assumption].
  - intros H. destruct (IH H) as (r' & Hin & Hr). exists r'. split; [now right|assumption].
Qed.

Lemma question_match_number (line : text) (m : re_match_obj) :
  question_match line = Some m -> is_number (group 1 m).
Proof.
  unfold question_match. intros H.
  apply first_match_In in H. destruct H as (r & Hin & H).
  apply re_search_sound in H. destruct H as (a & b & Hr & Hc).
  destruct (question_pattern_number Hin Hr) as (d & L & D).
  exists d. unfold group. rewrite Hc. auto.
Qed.

Lemma step_numbers (st : parser) (raw : text) :
  Forall (fun q => is_number (question_number q)) (questions st) ->
  (forall cq, current_question st = Some cq -> is_number (number cq)) ->
  Forall (fun q => is_number (question_number q)) (questions (step st raw))
  /\ (forall cq, current_question (step st raw) = Some cq -> is_number (number cq)).
Proof.
  intros HQ HC.
  assert (HS : Forall (fun q => is_number (question_number q)) (save st)).
  { unfold save. destruct (current_question st) as [cq|] eqn:E; [|assumption].
    destruct (current_options st); [assumption|].
    apply Forall_app. split; [assumption|].
    constructor; [|constructor]. cbn. auto. }
  unfold step. destruct (strip raw) as [|c l]; [auto|].
  destruct (question_match (c :: l)) as [m|] eqn:E.
  - cbn [questions current_question]. split; [assumption|].
    intros cq H. injection H as <-. cbn. now apply question_match_number with (line := c :: l).
  - destruct (option_match (c :: l)), (current_question st) as [cq0|] eqn:E0;
      cbn [questions current_question]; (split; [assumption|]);
      intros cq H;
      first [discriminate H | congruence | injection H as <-; cbn; eauto].
Qed.

End QuestionNumbers.

(** X11.  The number of every record that [extract_questions] returns is
    set, and is a non-empty string of decimal digits: the digits that the
    question-start pattern captured. *)
Theorem question_numbers_are_digits {U : UnicodeData} (t : text) :
  Forall (fun q => exists d, question_number q = Some d /\ d <> []
                             /\ Forall (fun c => isdecimal c = true) d)
    (extract_questions t).
Proof.
  unfold extract_questions, parse_lines.
  assert (G : forall lines st,
             Forall (fun q => is_number (question_number q)) (questions st) ->
             (forall cq, current_question st = Some cq -> is_number (number cq)) ->
             Forall (fun q => is_number (question_number q))
               (save (fold_left step lines st))).
  { induction lines as [|l ls IH]; intros st HQ HC; cbn [fold_left].
    - unfold save. destruct (current_question st) as [cq|] eqn:E; [|assumption].
      destruct (current_options st); [assumption|].
      apply Forall_app. split; [assumption|].
      constructor; [|constructor]. cbn. auto.
    - destruct (step_numbers l HQ HC) as [HQ' HC']. now apply IH. }
  apply G; [constructor|discriminate].
Qed.

(** ** The parser: what an option line looks like *)

Lemma re_match_search (r : regex) (s : text) (m : re_match_obj) :
  re_match r s = Some m -> re_search r s <> None.
Proof.
  unfold re_match, re_search. destruct (match_at r false 0 s) as [st|] eqn:E; [|discriminate].
  intros _. destruct s; cbn [search_go]; rewrite E; discriminate.
Qed.

Section OptionLeads.
Context {U : UnicodeData}.

Lemma numbered_is_question (line : text) (m : re_match_obj) :
  re_match (Seq (Group 1 (Plus digit)) (Chr 46)) line = Some m ->
  question_match line <> None.
Proof.
  intros H. apply re_match_search in H.
  unfold question_match, question_patterns. cbn [first_match].
  repeat match goal with
         | |- match re_search ?r line with _ => _ end <> None =>
             destruct (re_search r line) eqn:?; [discriminate|]
         end.
  contradiction.
Qed.

Lemma latin_option_shape (punct : N) (line : text) (m : re_match_obj) :
  re_match (Seq latin_lead (Chr punct)) line = Some m ->
  exists lead body, line = lead :: punct :: body
                    /\ Range 65 68 lead || Range 97 100 lead = true.
Proof.
  unfold re_match. destruct (match_at _ false 0 line) as [st|] eqn:E; [|discriminate].
  intros _. apply match_at_sound in E. unfold latin_lead in E.
  invert_reach. cbn [pos rest caps advance] in *. subst. eauto.
Qed.

Lemma devanagari_option_shape (line : text) (m : re_match_obj) :
  re_match (nth 2 option_patterns Eps) line = Some m ->
  exists l body, line = 40 :: l :: 41 :: body /\ In l devanagari_leads.
Proof.
  change (nth 2 option_patterns Eps)
    with (Seq (Chr 40)
            (Seq (Group 1 (Alt (Chr 0x915) (Alt (Chr 0x916) (Alt (Chr 0x917)
               (Alt (Chr 0x918) (Alt (Chr 0x91A) (Alt (Chr 0x91B)
               (Alt (Chr 0x91C) (Chr 0x91D)))))))))
               (Chr 41))).
  unfold re_match. destruct (match_at _ false 0 line) as [st|] eqn:E; [|discriminate].
  intros _. apply match_at_sound in E.
  invert_reach; cbn [pos rest caps advance capture] in *; subst;
    eexists; eexists; (split; [reflexivity|]); cbn; tauto.
Qed.

End OptionLeads.

(** X12.  A line is read as an option only if, once stripped, it begins
    with one of a-d or A-D followed by ")" or ".", or with one of
    क ख ग घ च छ ज झ between parentheses.  The numbered pattern at the end
    of [option_patterns] never decides: a line that begins with digits and
    a dot holds the question-start pattern of the same shape, so it opens
    a question. *)
Theorem option_line_leads {U : UnicodeData} (raw : text) :
  (option_line raw = true ->
   (exists lead punct body,
       strip raw = lead :: punct :: body
       /\ Range 65 68 lead || Range 97 100 lead = true
       /\ (punct = 41 \/ punct = 46))
   \/ (exists l body, strip raw = 40 :: l :: 41 :: body /\ In l devanagari_leads))
  /\ (re_match (Seq (Group 1 (Plus digit)) (Chr 46)) (strip raw) <> None ->
      header raw = true /\ option_line raw = false).
Proof.
  split.
  - unfold option_line. destruct (strip raw) as [|c l]; [discriminate|].
    destruct (question_match (c :: l)) eqn:Q; [discriminate|].
    unfold option_match. unfold option_patterns at 1. cbn [first_match].
    destruct (re_match (Seq latin_lead (Chr 41)) (c :: l)) as [m|] eqn:E1.
    { intros _. left. apply latin_option_shape in E1.
      destruct E1 as (lead & body & E & L). exists lead, 41, body. auto. }
    destruct (re_match (Seq latin_lead (Chr 46)) (c :: l)) as [m|] eqn:E2.
    { intros _. left. apply latin_option_shape in E2.
      destruct E2 as (lead & body & E & L). exists lead, 46, body. auto. }
    match goal with
    | |- context [match re_match ?r (c :: l) with _ => _ end] =>
        destruct (re_match r (c :: l)) as [m|] eqn:E3
    end.
    { intros _. right. exact (devanagari_option_shape E3). }
    destruct (re_match (Seq (Group 1 (Plus digit)) (Chr 46)) (c :: l)) as [m|] eqn:E4;
      [|discriminate].
    apply numbered_is_question in E4. contradiction.
  - intros H.
    destruct (re_match (Seq (Group 1 (Plus digit)) (Chr 46)) (strip raw)) as [m|] eqn:E;
      [|contradiction].
    assert (Q := numbered_is_question E).
    unfold header, option_line.
    destruct (strip raw) as [|c l]; [discriminate E|].
    destruct (question_match (c :: l)); [split; reflexivity|contradiction].
Qed.

Lemma option_line_leads_witness :
  option_line (utf8 "  (ख) दिल्ली") = true
  /\ (exists l body, strip (utf8 "  (ख) दिल्ली") = 40 :: l :: 41 :: body
                     /\ In l devanagari_leads)
  /\ header (utf8 "2. Agra") = true /\ option_line (utf8 "2. Agra") = false.
Proof.
  assert (H : option_line (utf8 "  (ख) दिल्ली") = true) by (vm_compute; reflexivity).
  split; [exact H|].
  split.
  - destruct (proj1 (option_line_leads (utf8 "  (ख) दिल्ली")) H)
      as [(lead & punct & body & E & L & _)|R]; [|exact R].
    vm_compute in E. injection E as <- _ _. discriminate L.
  - apply (proj2 (option_line_leads (utf8 "2. Agra"))).
    vm_compute. discriminate.
Defined.

(** ** The parser: the record of one block *)

Section Blocks.
Context {U : UnicodeData}.

Lemma step_block (l : text) (qs : list question) (n : option text)
  (t : text) (opts : list text) :
  header l = false ->
  step {| questions := qs;
          current_question := Some {| number := n; text_of := t |};
          current_options := opts |} l
  = {| questions := qs;
       current_question :=
         Some {| number := n;
                 text_of := t ++ (if continuation l then 32 :: strip l else []) |};
       current_options :=
         opts ++ (if option_line l then [option_text l] else []) |}.
Proof.
  unfold continuation, plain, option_line, nonblank, option_text, header, step.
  destruct (strip l) as [|c l'] eqn:El.
  - intros _. cbn. now rewrite !app_nil_r.
  - destruct (question_match (c :: l')); [discriminate|]. intros _.
    cbn [current_question questions current_options number text_of].
    destruct (option_match (c :: l')) as [m|]; cbn [negb andb];
      now rewrite ?app_nil_r.
Qed.

Lemma parse_lines_block (ls : list text) :
  forallb (fun l => negb (header l)) ls = true ->
  forall (qs : list question) (n : option text) (t : text) (opts : list text),
    parse_lines
      {| questions := qs;
         current_question := Some {| number := n; text_of := t |};
         current_options := opts |} ls
    = {| questions := qs;
         current_question := Some {| number := n; text_of := continued t ls |};
         current_options := opts ++ map option_text (filter option_line ls) |}.
Proof.
  unfold parse_lines, continued.
  induction ls as [|l ls IH]; intros H qs n t opts.
  - cbn. now rewrite !app_nil_r.
  - cbn [forallb] in H. apply andb_prop in H. destruct H as [Hl Hls].
    apply negb_true_iff in Hl.
    cbn [fold_left filter]. rewrite (step_block qs n t opts Hl), (IH Hls).
    destruct (continuation l), (option_line l); cbn [map concat app];
      now rewrite <- ?app_assoc, ?app_nil_r.
Qed.

End Blocks.

(** X13.  The record of one block.  For a header line followed by lines
    that are not headers, the parser returns nothing when none of the
    lines is an option line, and otherwise one record: the number captured
    in the header, the text of the header after its lead followed by every
    other non-blank line of the block (each after one space, wherever it
    stands, also after an option), and the texts of the option lines in
    their order. *)
Theorem extract_questions_block {U : UnicodeData} (h : text) (ls : list text)
  (m : re_match_obj) :
  Forall (fun l => ~ In 10 l) (h :: ls) ->
  strip h <> [] ->
  question_match (strip h) = Some m ->
  forallb (fun l => negb (header l)) ls = true ->
  extract_questions (join_lines (h :: ls)) =
    match filter option_line ls with
    | [] => []
    | _ :: _ =>
        [ {| question_number := group 1 m;
             question_text :=
               strip (continued (re_sub question_lead [] (strip h)) ls);
             options := map option_text (filter option_line ls);
             correct_answer := None |} ]
    end.
Proof.
  intros Hnl Hh Hm Hls.
  rewrite extract_questions_join_lines by exact Hnl.
  unfold parse_lines. cbn [fold_left].
  assert (E : step start h =
              {| questions := [];
                 current_question :=
                   Some {| number := group 1 m;
                           text_of := re_sub question_lead [] (strip h) |};
                 current_options := [] |}).
  { unfold step. destruct (strip h) as [|c l]; [contradiction|].
    rewrite Hm. reflexivity. }
  rewrite E. fold (parse_lines
    {| questions := [];
       current_question :=
         Some {| number := group 1 m;
                 text_of := re_sub question_lead [] (strip h) |};
       current_options := [] |} ls).
  rewrite (parse_lines_block Hls). cbn [app].
  unfold save. cbn [current_question current_options questions number text_of].
  destruct (filter option_line ls) as [|o os] eqn:F; [reflexivity|].
  cbn [map app]. f_equal. f_equal.
  assert (S1 : forall x, strip (option_text x) = option_text x).
  { intros x. unfold option_text. destruct (option_match (strip x)).
    - apply strip_strip.
    - reflexivity. }
  rewrite S1. f_equal. rewrite map_map. apply map_ext. exact S1.
Qed.

Lemma extract_questions_block_witness :
  extract_questions
    (join_lines [utf8 "Q.7 Which city"; utf8 "(क) Delhi"; utf8 " is the capital?";
                 utf8 ""; utf8 "b. Agra "])
  = [ {| question_number := Some (utf8 "7");
         question_text := utf8 "Which city is the capital?";
         options := [utf8 "Delhi"; utf8 "Agra"];
         correct_answer := None |} ].
Proof.
  destruct (question_match (U := ascii_devanagari) (strip (utf8 "Q.7 Which city")))
    as [m|] eqn:Hm; [|vm_compute in Hm; discriminate Hm].
  rewrite (@extract_questions_block ascii_devanagari (utf8 "Q.7 Which city")
             [utf8 "(क) Delhi"; utf8 " is the capital?"; utf8 ""; utf8 "b. Agra "] m).
  - vm_compute in Hm. injection Hm as <-. vm_compute. reflexivity.
  - repeat constructor; vm_compute; intuition discriminate.
  - vm_compute. discriminate.
  - exact Hm.
  - vm_compute. reflexivity.
Defined.

(** ** normalize_answer *)

Lemma lstrip_chars_snoc (cs s : text) (p : N) :
  existsb (N.eqb p) cs = true ->
  lstrip_chars cs (s ++ [p])
  = match lstrip_chars cs s with
    | [] => []
    | _ :: _ => lstrip_chars cs s ++ [p]
    end.
Proof.
  intros Hp. induction s as [|c s IH]; cbn [app lstrip_chars].
  - now rewrite Hp.
  - destruct (existsb (N.eqb c) cs); [exact IH|reflexivity].
Qed.

Lemma strip_chars_cons (cs s : text) (p : N) :
  existsb (N.eqb p) cs = true -> strip_chars cs (p :: s) = strip_chars cs s.
Proof.
  intros Hp. unfold strip_chars. cbn [rev]. rewrite (lstrip_chars_snoc _ Hp).
  destruct (lstrip_chars cs (rev s)) as [|c l]; [reflexivity|].
  rewrite rev_app_distr. cbn [rev app lstrip_chars]. now rewrite Hp.
Qed.

Lemma strip_chars_snoc (cs s : text) (p : N) :
  existsb (N.eqb p) cs = true -> strip_chars cs (s ++ [p]) = strip_chars cs s.
Proof.
  intros Hp. unfold strip_chars. rewrite rev_app_distr.
  cbn [rev app lstrip_chars]. now rewrite Hp.
Qed.

Lemma strip_chars_around (cs ps qs s : text) :
  Forall (fun p => existsb (N.eqb p) cs = true) ps ->
  Forall (fun p => existsb (N.eqb p) cs = true) qs ->
  strip_chars cs (ps ++ s ++ qs) = strip_chars cs s.
Proof.
  intros Hps Hqs. induction Hps as [|p ps Hp _ IH].
  - cbn [app]. revert s.
    induction Hqs as [|q qs Hq _ IH]; intros s.
    + now rewrite app_nil_r.
    + change (q :: qs) with ([q] ++ qs). rewrite app_assoc, IH.
      now apply strip_chars_snoc.
  - cbn [app]. now rewrite strip_chars_cons.
Qed.

Lemma In_lstrip_chars (cs s : text) (c : N) :
  In c s -> existsb (N.eqb c) cs = false -> In c (lstrip_chars cs s).
Proof.
  intros Hin Hc. induction s as [|x s IH]; [destruct Hin|].
  cbn [lstrip_chars]. destruct (existsb (N.eqb x) cs) eqn:E; [|exact Hin].
  destruct Hin as [->|Hin]; [congruence|exact (IH Hin)].
Qed.

Lemma In_strip_chars (cs s : text) (c : N) :
  In c s -> existsb (N.eqb c) cs = false -> In c (strip_chars cs s).
Proof.
  intros Hin Hc. unfold strip_chars.
  apply In_lstrip_chars; [|exact Hc]. apply in_rev. rewrite rev_involutive.
  apply In_lstrip_chars; [|exact Hc]. apply in_rev. now rewrite rev_involutive.
Qed.

Lemma dict_get_answer_map (k l : text) :
  dict_get k answer_map = Some l <-> In (k, l) answer_map.
Proof.
  let m := eval vm_compute in answer_map in change answer_map with m.
  split.
  - destruct k as [|c [|c2 k]]; cbn [dict_get text_eqb]; [discriminate| |].
    + repeat match goal with
             | |- context [N.eqb ?x c] =>
                 destruct (N.eqb_spec x c);
                 [subst c; cbn [andb]; intros H; injection H as <-; cbn; tauto|]
             end.
      discriminate.
    + rewrite !andb_false_r. discriminate.
  - intros H. cbn [In] in H.
    repeat match type of H with
           | _ \/ _ => destruct H as [H|H]
           end;
      try (injection H as <- <-; reflexivity).
    destruct H.
Qed.

Lemma answer_map_keys (k l : text) :
  In (k, l) answer_map ->
  exists c, k = [c]
            /\ In c [65; 66; 67; 68; 0x915; 0x916; 0x917; 0x918;
                     0x91A; 0x91B; 0x91C; 0x91D]
            /\ In l [utf8 "A"; utf8 "B"; utf8 "C"; utf8 "D";
                     utf8 "E"; utf8 "F"; utf8 "G"; utf8 "H"].
Proof.
  let m := eval vm_compute in answer_map in change answer_map with m.
  intros H. cbn [In] in H.
  repeat match type of H with
         | _ \/ _ => destruct H as [H|H]
         end;
    try (injection H as <- <-; eexists; split; [reflexivity|]; split; cbn; tauto).
  destruct H.
Qed.

(** X14.  normalize_answer ignores parentheses around the answer,
    however many and of either kind, and nothing else: it answers the
    letter of the row of its table whose key is exactly what is left, a
    single character among A B C D क ख ग घ च छ ज झ, and nothing in every
    other case.  It folds no case and strips no whitespace: an answer
    that holds a lower-case Latin letter or a whitespace character gives
    nothing. *)
Theorem normalize_answer_parentheses (ps qs a : text) :
  Forall (fun p => p = 40 \/ p = 41) ps ->
  Forall (fun p => p = 40 \/ p = 41) qs ->
  normalize_answer (ps ++ a ++ qs) = normalize_answer a
  /\ (forall l, normalize_answer a = Some l ->
                length (strip_chars (utf8 "()") a) = 1%nat
                /\ In l [utf8 "A"; utf8 "B"; utf8 "C"; utf8 "D";
                         utf8 "E"; utf8 "F"; utf8 "G"; utf8 "H"])
  /\ (forall l, normalize_answer a = Some l
                <-> In (strip_chars (utf8 "()") a, l) answer_map)
  /\ (forall l, normalize_answer a = Some l ->
                exists c, strip_chars (utf8 "()") a = [c]
                          /\ In c [65; 66; 67; 68; 0x915; 0x916; 0x917; 0x918;
                                   0x91A; 0x91B; 0x91C; 0x91D])
  /\ (forall c, In c a -> Range 97 122 c = true -> normalize_answer a = None)
  /\ (forall c, In c a -> isspace c = true -> normalize_answer a = None).
Proof.
  intros Hps Hqs.
  assert (K : forall l, normalize_answer a = Some l ->
                exists c, strip_chars (utf8 "()") a = [c]
                          /\ In c [65; 66; 67; 68; 0x915; 0x916; 0x917; 0x918;
                                   0x91A; 0x91B; 0x91C; 0x91D]
                          /\ In l [utf8 "A"; utf8 "B"; utf8 "C"; utf8 "D";
                                   utf8 "E"; utf8 "F"; utf8 "G"; utf8 "H"]).
  { intros l H. unfold normalize_answer in H. apply dict_get_answer_map in H.
    exact (answer_map_keys H). }
  assert (N : forall c (P : N -> bool),
             In c a -> P c = true -> existsb (N.eqb c) (utf8 "()") = false ->
             forallb (fun k => negb (P k))
               [65; 66; 67; 68; 0x915; 0x916; 0x917; 0x918;
                0x91A; 0x91B; 0x91C; 0x91D] = true ->
             normalize_answer a = None).
  { intros c P Hin HP Hc Hk.
    destruct (normalize_answer a) as [l|] eqn:E; [|reflexivity].
    destruct (K l eq_refl) as (k & Es & Hkin & _).
    apply (In_strip_chars (cs := utf8 "()")) in Hin; [|exact Hc].
    rewrite Es in Hin. destruct Hin as [<-|[]].
    rewrite forallb_forall in Hk. specialize (Hk k Hkin).
    rewrite HP in Hk. discriminate Hk. }
  split; [|split; [|split; [|split; [|split]]]].
  - unfold normalize_answer. f_equal. apply strip_chars_around.
    + eapply Forall_impl; [|exact Hps]. intros p [->| ->]; reflexivity.
    + eapply Forall_impl; [|exact Hqs]. intros p [->| ->]; reflexivity.
  - intros l H. destruct (K l H) as (c & Es & _ & Hl).
    split; [now rewrite Es|exact Hl].
  - intros l. unfold normalize_answer. apply dict_get_answer_map.
  - intros l H. destruct (K l H) as (c & Es & Hc & _). eauto.
  - intros c Hin Hc. apply (N c (Range 97 122) Hin Hc); [|reflexivity].
    unfold Range in Hc. apply andb_prop in Hc. destruct Hc as [H1 H2].
    apply N.leb_le in H1, H2. cbn [existsb utf8].
    change (utf8 "()") with [40; 41]. cbn [existsb].
    rewrite !orb_false_r. apply orb_false_intro; apply N.eqb_neq; lia.
  - intros c Hin Hc. apply (N c isspace Hin Hc); [|reflexivity].
    change (utf8 "()") with [40; 41]. cbn [existsb].
    rewrite !orb_false_r.
    apply orb_false_intro; apply N.eqb_neq; intros ->; discriminate Hc.
Qed.

Lemma normalize_answer_parentheses_witness :
  normalize_answer (utf8 "((" ++ utf8 "ख" ++ utf8 ")") = normalize_answer (utf8 "ख")
  /\ normalize_answer (utf8 "ख") = Some (utf8 "B")
  /\ normalize_answer (utf8 "(b)") = None
  /\ normalize_answer (utf8 " B") = None.
Proof.
  pose proof (@normalize_answer_parentheses (utf8 "((") (utf8 ")") (utf8 "ख")) as T1.
  pose proof (@normalize_answer_parentheses [] [] (utf8 "(b)")) as T2.
  pose proof (@normalize_answer_parentheses [] [] (utf8 " B")) as T3.
  split.
  - assert (F1 : Forall (fun p => p = 40 \/ p = 41) (utf8 "(("))
      by (repeat constructor).
    assert (F2 : Forall (fun p => p = 40 \/ p = 41) (utf8 ")"))
      by (constructor; [now right|constructor]).
    exact (proj1 (T1 F1 F2)).
  - split; [reflexivity|]. split.
    + destruct (T2 (Forall_nil _) (Forall_nil _)) as (_ & _ & _ & _ & L & _).
      apply (L 98); [cbn; tauto|reflexivity].
    + destruct (T3 (Forall_nil _) (Forall_nil _)) as (_ & _ & _ & _ & _ & W).
      apply (W 32); [cbn; tauto|reflexivity].
Defined.

(** ** Page numbers in decimal *)

Lemma uint_text_digits (d : Decimal.uint) :
  Forall (fun c => Range 48 57 c = true) (uint_text d).
Proof. induction d; cbn [uint_text]; constructor; auto. Qed.

Lemma uint_text_inj (d d' : Decimal.uint) :
  uint_text d = uint_text d' -> d = d'.
Proof.
  revert d'. induction d; intros [] H; cbn [uint_text] in H;
    try discriminate H; try reflexivity;
    injection H as H; f_equal; auto.
Qed.

Lemma str_of_nat_inj (n n' : nat) : str_of_nat n = str_of_nat n' -> n = n'.
Proof.
  unfold str_of_nat. intros H. apply uint_text_inj in H.
  now apply DecimalNat.Unsigned.to_uint_inj.
Qed.

Lemma page_file_eq (i : nat) :
  page_file i = 112 :: 97 :: 103 :: 101 :: 95 :: str_of_nat (i + 1) ++ [46; 112; 110; 103].
Proof. reflexivity. Qed.

Lemma os_path_join_page_file (temp_dir : text) (i : nat) :
  exists prefix, forall j,
    os_path_join temp_dir (page_file j) = prefix ++ page_file j.
Proof.
  unfold os_path_join. destruct (rev temp_dir) as [|c r].
  - exists []. intros j. now rewrite page_file_eq.
  - destruct (c =? 47).
    + exists temp_dir. intros j. now rewrite page_file_eq.
    + exists (temp_dir ++ [47]). intros j. rewrite page_file_eq.
      cbn [starts_with N.eqb Pos.eqb andb]. now rewrite <- app_assoc.
Qed.

Lemma page_path_inj (temp_dir : text) (i j : nat) :
  os_path_join temp_dir (page_file i) = os_path_join temp_dir (page_file j) ->
  i = j.
Proof.
  destruct (os_path_join_page_file temp_dir 0) as (prefix & E).
  rewrite !E. intros H. apply app_inv_head in H.
  rewrite !page_file_eq in H. injection H as H.
  apply app_inv_tail in H. apply str_of_nat_inj in H. lia.
Qed.

Lemma NoDup_map_injective (A B : Type) (f : A -> B) (l : list A) :
  (forall x y, f x = f y -> x = y) -> NoDup l -> NoDup (map f l).
Proof.
  intros Hf. induction 1 as [|x l Hx _ IH]; cbn [map]; constructor; [|exact IH].
  intros H. apply in_map_iff in H. destruct H as (y & E & Hy).
  apply Hf in E. subst y. contradiction.
Qed.

(** ** convert_scanned_pdf_to_images *)

Section ConvertFacts.
Variable pdf_image : Type.
Variable save_png : pdf_image -> text -> outcome unit.

Lemma save_pages_paths (temp_dir : text) (images : list pdf_image) :
  forall i image_paths paths,
    save_pages save_png temp_dir i images image_paths = Returns paths ->
    paths = image_paths
            ++ map (fun k => os_path_join temp_dir (page_file k))
                 (seq i (length images)).
Proof.
  induction images as [|img images IH]; intros i acc paths H;
    cbn [save_pages] in H.
  - injection H as <-. cbn. now rewrite app_nil_r.
  - destruct (save_png img (os_path_join temp_dir (page_file i))); [|discriminate H].
    cbn [bind] in H. apply IH in H. rewrite H, <- app_assoc. reflexivity.
Qed.

Lemma save_pages_raises (temp_dir : text) (images : list pdf_image) :
  forall i image_paths k img,
    nth_error images k = Some img ->
    save_png img (os_path_join temp_dir (page_file (i + k))) = Raises ->
    (forall k' img', (k' < k)%nat -> nth_error images k' = Some img' ->
       save_png img' (os_path_join temp_dir (page_file (i + k'))) <> Raises) ->
    save_pages save_png temp_dir i images image_paths = Raises.
Proof.
  induction images as [|img0 images IH]; intros i acc k img Hk Hr Hbefore.
  - destruct k; discriminate Hk.
  - cbn [save_pages]. destruct k as [|k].
    + cbn in Hk. injection Hk as ->. rewrite Nat.add_0_r in Hr. now rewrite Hr.
    + destruct (save_png img0 (os_path_join temp_dir (page_file i))) eqn:E.
      * cbn [bind]. apply (IH (S i) _ k img).
        -- exact Hk.
        -- now rewrite Nat.add_succ_comm.
        -- intros k' img' Hlt Hn. rewrite Nat.add_succ_comm.
           apply (Hbefore (S k') img'); [lia|exact Hn].
      * reflexivity.
Qed.

End ConvertFacts.

Section ConvertSuccess.
Variable pdf_image : Type.
Variable save_png : pdf_image -> text -> outcome unit.

Lemma save_pages_returns (temp_dir : text) (images : list pdf_image) :
  forall i image_paths,
    (forall k img, nth_error images k = Some img ->
       save_png img (os_path_join temp_dir (page_file (i + k))) <> Raises) ->
    save_pages save_png temp_dir i images image_paths
    = Returns (image_paths
               ++ map (fun k => os_path_join temp_dir (page_file k))
                    (seq i (length images))).
Proof.
  induction images as [|img images IH]; intros i acc H; cbn [save_pages].
  - cbn. now rewrite app_nil_r.
  - destruct (save_png img (os_path_join temp_dir (page_file i))) as [u|] eqn:E.
    + cbn [bind]. rewrite IH.
      * cbn [length seq map]. now rewrite <- app_assoc.
      * intros k img' Hk. rewrite Nat.add_succ_comm. apply (H (S k) img'). exact Hk.
    + exfalso. apply (H 0%nat img); [reflexivity|]. now rewrite Nat.add_0_r.
Qed.

End ConvertSuccess.

(** X15.  convert_scanned_pdf_to_images is all or nothing.  When the
    conversion and every save succeed, it returns one path per page image,
    in page order: page_1.png, page_2.png, ... joined to the temporary
    directory, no two of them equal.  When the conversion fails, or the
    save of any page does, it returns the empty list, also when earlier
    pages were saved. *)
Theorem convert_scanned_pdf_to_images_paths (pdf_image : Type)
  (save_png : pdf_image -> text -> outcome unit) (temp_dir : text)
  (images : outcome (list pdf_image)) :
  let image_paths := convert_scanned_pdf_to_images save_png temp_dir images in
  NoDup image_paths
  /\ (image_paths = []
      \/ exists imgs,
           images = Returns imgs
           /\ image_paths
              = map (fun k => os_path_join temp_dir (page_file k))
                  (seq 0 (length imgs)))
  /\ (forall imgs,
         images = Returns imgs ->
         (forall k img, nth_error imgs k = Some img ->
            save_png img (os_path_join temp_dir (page_file k)) <> Raises) ->
         image_paths
         = map (fun k => os_path_join temp_dir (page_file k))
             (seq 0 (length imgs))
         /\ length image_paths = length imgs)
  /\ (images = Raises -> image_paths = [])
  /\ (forall imgs k img,
         images = Returns imgs -> nth_error imgs k = Some img ->
         save_png img (os_path_join temp_dir (page_file k)) = Raises ->
         image_paths = []).
Proof.
  cbv zeta. unfold convert_scanned_pdf_to_images.
  assert (P : forall imgs paths,
             save_pages save_png temp_dir 0 imgs [] = Returns paths ->
             paths = map (fun k => os_path_join temp_dir (page_file k))
                       (seq 0 (length imgs))).
  { intros imgs paths H. now apply save_pages_paths in H. }
  split; [|split; [|split; [|split]]].
  - destruct images as [imgs|]; cbn [bind]; [|constructor].
    destruct (save_pages save_png temp_dir 0 imgs []) as [paths|] eqn:E; [|constructor].
    rewrite (P _ _ E). apply NoDup_map_injective; [|apply seq_NoDup].
    intros i j. apply page_path_inj.
  - destruct images as [imgs|]; cbn [bind]; [|now left].
    destruct (save_pages save_png temp_dir 0 imgs []) as [paths|] eqn:E; [|now left].
    right. exists imgs. split; [reflexivity|]. exact (P _ _ E).
  - intros imgs -> Hs. cbn [bind].
    rewrite (@save_pages_returns pdf_image save_png temp_dir imgs 0 []) by exact Hs.
    cbn [app]. split; [reflexivity|]. now rewrite length_map, length_seq.
  - intros ->. reflexivity.
  - intros imgs k img -> Hk Hr. cbn [bind].
    destruct (save_pages save_png temp_dir 0 imgs []) as [paths|] eqn:E; [|reflexivity].
    exfalso. revert k img Hk Hr.
    induction k as [k IHk] using lt_wf_ind. intros img Hk Hr.
    rewrite (@save_pages_raises pdf_image save_png temp_dir imgs 0 [] k img) in E.
    + discriminate E.
    + exact Hk.
    + exact Hr.
    + intros k' img' Hlt Hn Hr'. exact (IHk k' Hlt img' Hn Hr').
Qed.

Lemma convert_scanned_pdf_to_images_paths_witness :
  convert_scanned_pdf_to_images (fun (_ : unit) _ => Returns tt)
    (utf8 "/tmp/tmpq8") (Returns [tt; tt; tt])
  = [utf8 "/tmp/tmpq8/page_1.png"; utf8 "/tmp/tmpq8/page_2.png";
     utf8 "/tmp/tmpq8/page_3.png"]
  /\ convert_scanned_pdf_to_images
       (fun (_ : unit) path =>
          if text_eqb path (utf8 "/tmp/tmpq8/page_3.png") then Raises
          else Returns tt)
       (utf8 "/tmp/tmpq8") (Returns [tt; tt; tt])
     = [].
Proof.
  split.
  - pose proof (@convert_scanned_pdf_to_images_paths unit
                  (fun _ _ => Returns tt) (utf8 "/tmp/tmpq8")
                  (Returns [tt; tt; tt])) as T.
    cbv zeta in T. destruct T as (_ & _ & S & _).
    destruct (S [tt; tt; tt] eq_refl) as [E _]; [discriminate|].
    rewrite E. vm_compute. reflexivity.
  - pose proof (@convert_scanned_pdf_to_images_paths unit
                  (fun _ path =>
                     if text_eqb path (utf8 "/tmp/tmpq8/page_3.png") then Raises
                     else Returns tt)
                  (utf8 "/tmp/tmpq8") (Returns [tt; tt; tt])) as T.
    cbv zeta in T. destruct T as (_ & _ & _ & _ & R).
    apply (R [tt; tt; tt] 2%nat tt); [reflexivity|reflexivity|].
    vm_compute. reflexivity.
Defined.

(** ** extract_text and the pages of a scanned PDF *)

Lemma normal_form_nil : normal_form [].
Proof. split; try reflexivity; constructor. Qed.

Lemma extract_questions_single_line {U : UnicodeData} (t : text) :
  ~ In 10 t -> extract_questions t = [].
Proof.
  intros H. unfold extract_questions. rewrite (split_lines_single H).
  apply save_step_start.
Qed.

Lemma extract_questions_normal_form {U : UnicodeData} (t : text) :
  normal_form t -> extract_questions t = [].
Proof.
  intros H. apply extract_questions_single_line. apply spaced_no_newline.
  exact (nf_spaced H).
Qed.

Section EngineFacts.
Context {U : UnicodeData} {cv : OpenCV} {ts : Tesseract}.

Lemma extract_text_returns (image_path : text) (enhance : bool) (lang t : text) :
  extract_text image_path enhance lang = Returns t ->
  exists img pil raw,
    preprocess_image image_path enhance = Returns img
    /\ fromarray img = Returns pil
    /\ image_to_string pil lang = Returns raw
    /\ t = normalize_text raw.
Proof.
  unfold extract_text.
  destruct (preprocess_image image_path enhance) as [img|] eqn:E1; [|discriminate].
  cbn [bind]. destruct (fromarray img) as [pil|] eqn:E2; [|discriminate].
  cbn [bind]. destruct (image_to_string pil lang) as [raw|] eqn:E3; [|discriminate].
  cbn [bind]. intros H. injection H as <-.
  exists img, pil, raw. repeat split; assumption.
Qed.

Lemma ocr_page_number (i : nat) (img_path : text) :
  page_number (ocr_page i img_path) = (i + 1)%nat.
Proof. unfold ocr_page. now destruct (extract_text img_path false (utf8 "hin")). Qed.

Lemma ocr_page_normal_form (i : nat) (img_path : text) :
  normal_form (page_text (ocr_page i img_path)).
Proof.
  unfold ocr_page.
  destruct (extract_text img_path false (utf8 "hin")) as [t|] eqn:E; cbn [page_text].
  - apply extract_text_returns in E. destruct E as (img & pil & raw & _ & _ & _ & ->).
    apply normalize_text_normal_form.
  - apply normal_form_nil.
Qed.

Lemma ocr_pages_spec (image_paths : list text) :
  forall i page_texts,
    ocr_pages i image_paths page_texts
    = page_texts
      ++ map (fun kp => ocr_page (fst kp) (snd kp))
           (combine (seq i (length image_paths)) image_paths).
Proof.
  induction image_paths as [|p ps IH]; intros i acc; cbn [ocr_pages].
  - cbn. now rewrite app_nil_r.
  - rewrite IH, <- app_assoc. reflexivity.
Qed.

Lemma ocr_pages_numbers (image_paths : list text) (i : nat) :
  map page_number
    (map (fun kp => ocr_page (fst kp) (snd kp))
       (combine (seq i (length image_paths)) image_paths))
  = seq (S i) (length image_paths).
Proof.
  revert i. induction image_paths as [|p ps IH]; intros i; [reflexivity|].
  cbn [length seq combine map fst snd]. rewrite ocr_page_number, IH.
  f_equal. lia.
Qed.

Lemma ocr_pages_nth (image_paths : list text) (k : nat) (img_path : text) :
  forall i,
    nth_error image_paths k = Some img_path ->
    nth_error (map (fun kp => ocr_page (fst kp) (snd kp))
                 (combine (seq i (length image_paths)) image_paths)) k
    = Some (ocr_page (i + k) img_path).
Proof.
  revert k. induction image_paths as [|p ps IH]; intros k i H.
  - destruct k; discriminate H.
  - destruct k as [|k]; cbn [length seq combine map fst snd nth_error] in *.
    + injection H as ->. now rewrite Nat.add_0_r.
    + rewrite (IH k (S i) H). now rewrite Nat.add_succ_comm.
Qed.

End EngineFacts.

(** X16.  extract_text returns only normalized text: whenever it returns,
    the result is normalize_text of what Tesseract read, hence a single
    line in the normalizer's output form, in which extract_questions
    finds no question. *)
Theorem extract_text_normalized {U : UnicodeData} {cv : OpenCV} {ts : Tesseract}
  (image_path : text) (enhance : bool) (lang t : text) :
  extract_text image_path enhance lang = Returns t ->
  (exists raw, t = normalize_text raw)
  /\ normal_form t /\ ~ In 10 t /\ extract_questions t = [].
Proof.
  intros H. apply extract_text_returns in H.
  destruct H as (img & pil & raw & _ & _ & _ & ->).
  pose proof (normalize_text_normal_form raw) as N.
  split; [now exists raw|]. split; [exact N|].
  split.
  - apply spaced_no_newline. exact (nf_spaced N).
  - exact (extract_questions_normal_form N).
Qed.

Lemma extract_text_normalized_witness :
  extract_text (utf8 "page.png") false (utf8 "hin") = Returns (normalize_text raw_sample)
  /\ ~ In 10 (normalize_text raw_sample)
  /\ extract_questions (normalize_text raw_sample) = [].
Proof.
  assert (H : extract_text (utf8 "page.png") false (utf8 "hin")
              = Returns (normalize_text raw_sample)) by reflexivity.
  split; [exact H|].
  exact (proj2 (proj2 (extract_text_normalized H))).
Defined.

(** X17.  The pages of a scanned PDF.  extract_text_from_scanned_pdf
    returns one record per image path, numbered 1, 2, ... in page order;
    the record of the page at index i is the one the engine gives for the
    i-th path, and a page whose OCR raises is kept with empty text and
    confidence 0.  Every page text is in the normalizer's output form. *)
Theorem extract_text_from_scanned_pdf_pages
  {U : UnicodeData} {cv : OpenCV} {ts : Tesseract} (pdf_image : Type)
  (save_png : pdf_image -> text -> outcome unit) (temp_dir : text)
  (images : outcome (list pdf_image)) :
  let image_paths := convert_scanned_pdf_to_images save_png temp_dir images in
  let page_texts := extract_text_from_scanned_pdf save_png temp_dir images in
  map page_number page_texts = seq 1 (length image_paths)
  /\ (forall i img_path,
         nth_error image_paths i = Some img_path ->
         extract_text img_path false (utf8 "hin") = Raises ->
         nth_error page_texts i
         = Some {| page_number := i + 1; page_text := []; confidence := 0 |})
  /\ (forall i img_path t,
         nth_error image_paths i = Some img_path ->
         extract_text img_path false (utf8 "hin") = Returns t ->
         nth_error page_texts i
         = Some {| page_number := i + 1; page_text := t;
                   confidence := get_ocr_confidence_at img_path |})
  /\ Forall (fun p => normal_form (page_text p)) page_texts.
Proof.
  cbv zeta. unfold extract_text_from_scanned_pdf.
  generalize (convert_scanned_pdf_to_images save_png temp_dir images).
  intros image_paths. rewrite ocr_pages_spec. cbn [app].
  split; [apply ocr_pages_numbers|].
  split; [|split].
  - intros i p Hp Hr. rewrite (ocr_pages_nth 0 Hp). cbn [Nat.add].
    unfold ocr_page. now rewrite Hr.
  - intros i p t Hp Hr. rewrite (ocr_pages_nth 0 Hp). cbn [Nat.add].
    unfold ocr_page. now rewrite Hr.
  - apply Forall_forall. intros p Hp. apply in_map_iff in Hp.
    destruct Hp as ([k path] & <- & _). apply ocr_page_normal_form.
Qed.

(** ** Characters a line must hold *)

Lemma reach_needs (c : N) (r : regex) (a b : mstate) :
  reach r a b -> needs c r = true -> In c (rest a).
Proof.
  induction 1 as
    [a|c' a xs E|p a x xs E Hp|r1 r2 a b d H1 IH1 H2 IH2|r1 r2 a b _ IH|r1 r2 a b _ IH
    |r a b _ IH|r a|r a|r a b d _ IH1 _ IH2|r a|r a b d _ IH1 _ IH2
    |n r a b _ IH|r a b _ IH|a E]; cbn [needs]; intros N; try discriminate N.
  - apply N.eqb_eq in N. subst c'. rewrite E. now left.
  - apply orb_prop in N. destruct N as [N|N]; [exact (IH1 N)|].
    apply reach_offset in H1. destruct H1 as (k & _ & R & _).
    specialize (IH2 N). rewrite R in IH2.
    rewrite <- (firstn_skipn k (rest a)). apply in_or_app. now right.
  - apply andb_prop in N. exact (IH (proj1 N)).
  - apply andb_prop in N. exact (IH (proj2 N)).
  - exact (IH N).
Qed.

Lemma search_go_suffix (r : regex) (s : text) :
  forall f p b st,
    search_go r f p s = Some (b, st) ->
    exists p' k, reach r {| pos := p'; rest := skipn k s; caps := [] |} st.
Proof.
  induction s as [|c s IH]; intros f p b st H; cbn [search_go] in H.
  - destruct (match_at r f p []) eqn:E; [|discriminate].
    injection H as _ <-. apply match_at_sound in E. exists p, 0%nat. exact E.
  - destruct (match_at r f p (c :: s)) eqn:E.
    + injection H as _ <-. apply match_at_sound in E. exists p, 0%nat. exact E.
    + apply IH in H. destruct H as (p' & k & H). exists p', (S k). exact H.
Qed.

Lemma In_skipn (A : Type) (x : A) (k : nat) (l : list A) :
  In x (skipn k l) -> In x l.
Proof.
  intros H. rewrite <- (firstn_skipn k l). apply in_or_app. now right.
Qed.

Lemma re_search_needs (c : N) (r : regex) (s : text) :
  needs c r = true -> ~ In c s -> re_search r s = None.
Proof.
  intros N Hc. unfold re_search.
  destruct (search_go r false 0 s) as [[b st]|] eqn:E; [|reflexivity].
  apply search_go_suffix in E. destruct E as (p' & k & E).
  apply (reach_needs (c := c)) in E; [|exact N].
  cbn [rest] in E. apply In_skipn in E. contradiction.
Qed.

Lemma re_match_needs (c : N) (r : regex) (s : text) :
  needs c r = true -> ~ In c s -> re_match r s = None.
Proof.
  intros N Hc. unfold re_match.
  destruct (match_at r false 0 s) as [st|] eqn:E; [|reflexivity].
  apply match_at_sound in E.
  apply (reach_needs (c := c)) in E; [|exact N]. contradiction.
Qed.

Section LineNeeds.
Context {U : UnicodeData}.

Lemma question_match_needs (line : text) :
  ~ In 46 line -> ~ In 81 line -> ~ In 40 line -> question_match line = None.
Proof.
  intros H46 H81 H40. unfold question_match, question_patterns.
  cbn [first_match].
  rewrite (@re_search_needs 46 _ line); [|reflexivity|exact H46].
  rewrite (@re_search_needs 81 _ line); [|reflexivity|exact H81].
  rewrite (@re_search_needs 46 _ line); [|reflexivity|exact H46].
  rewrite (@re_search_needs 40 _ line); [|reflexivity|exact H40].
  reflexivity.
Qed.

Lemma option_match_needs (line : text) :
  ~ In 41 line -> ~ In 46 line -> option_match line = None.
Proof.
  intros H41 H46. unfold option_match, option_patterns.
  cbn [first_match].
  rewrite (@re_match_needs 41 _ line); [|reflexivity|exact H41].
  rewrite (@re_match_needs 46 _ line); [|reflexivity|exact H46].
  rewrite (@re_match_needs 41 _ line); [|reflexivity|exact H41].
  rewrite (@re_match_needs 46 _ line); [|reflexivity|exact H46].
  reflexivity.
Qed.

Lemma In_strip (c : N) (raw : text) : In c (strip raw) -> In c raw.
Proof.
  intros H. destruct (strip_infix raw) as (pre & post & E). rewrite E.
  apply in_or_app. right. apply in_or_app. now left.
Qed.

End LineNeeds.

(** X18.  Characters a line must hold.  A line opens a question only if
    it holds a full stop, a capital Q or an opening parenthesis, and is
    read as an option only if it holds a closing parenthesis or a full
    stop; any other non-blank line met while a question is open is
    appended to the text of that question. *)
Theorem line_needs {U : UnicodeData} (raw : text) :
  (header raw = true -> In 46 raw \/ In 81 raw \/ In 40 raw)
  /\ (option_line raw = true -> In 41 raw \/ In 46 raw)
  /\ (~ In 46 raw -> ~ In 81 raw -> ~ In 40 raw -> ~ In 41 raw ->
      forall st cq,
        current_question st = Some cq -> strip raw <> [] ->
        step st raw
        = {| questions := questions st;
             current_question :=
               Some {| number := number cq;
                       text_of := text_of cq ++ 32 :: strip raw |};
             current_options := current_options st |}).
Proof.
  assert (D : forall c, In c raw \/ ~ In c raw).
  { intros c. destruct (in_dec N.eq_dec c raw); [now left|now right]. }
  split; [|split].
  - intros H.
    destruct (D 46) as [|H46]; [tauto|].
    destruct (D 81) as [|H81]; [tauto|].
    destruct (D 40) as [|H40]; [tauto|].
    exfalso. unfold header in H.
    destruct (strip raw) as [|c l] eqn:E; [discriminate H|].
    rewrite question_match_needs in H; [discriminate H| | |];
      rewrite <- E; intros Hin; apply In_strip in Hin; contradiction.
  - intros H.
    destruct (D 41) as [|H41]; [tauto|].
    destruct (D 46) as [|H46]; [tauto|].
    exfalso. unfold option_line in H.
    destruct (strip raw) as [|c l] eqn:E; [discriminate H|].
    rewrite option_match_needs in H.
    + destruct (question_match (c :: l)); discriminate H.
    + rewrite <- E. intros Hin. apply In_strip in Hin. contradiction.
    + rewrite <- E. intros Hin. apply In_strip in Hin. contradiction.
  - intros H46 H81 H40 H41 st cq Hcq Hne. unfold step.
    destruct (strip raw) as [|c l] eqn:E; [contradiction|].
    rewrite question_match_needs, option_match_needs, Hcq; try reflexivity;
      rewrite <- E; intros Hin; apply In_strip in Hin; contradiction.
Qed.

Lemma line_needs_witness :
  step in_question (utf8 "  see the map overleaf ")
  = {| questions := [];
       current_question :=
         Some {| number := Some (utf8 "1");
                 text_of := utf8 "How far is it? see the map overleaf" |};
       current_options := [] |}.
Proof.
  rewrite (proj2 (proj2 (@line_needs ascii_devanagari (utf8 "  see the map overleaf ")))
             ltac:(vm_compute; intuition discriminate)
             ltac:(vm_compute; intuition discriminate)
             ltac:(vm_compute; intuition discriminate)
             ltac:(vm_compute; intuition discriminate)
             in_question
             {| number := Some (utf8 "1"); text_of := utf8 "How far is it?" |}
             ltac:(vm_compute; reflexivity)
             ltac:(vm_compute; discriminate)).
  vm_compute. reflexivity.
Defined.

(** ** The text of a text-native PDF *)

Lemma page_marker_chars (c : N) (page_num : nat) :
  In c (page_marker page_num) ->
  Range 48 57 c = true \/ In c [61; 32; 80; 97; 103; 101].
Proof.
  unfold page_marker. intros H. apply in_app_or in H. destruct H as [H|H].
  - right. cbn in H. cbn. tauto.
  - apply in_app_or in H. destruct H as [H|H].
    + left. pose proof (uint_text_digits (Nat.to_uint (page_num + 1))) as D.
      rewrite Forall_forall in D. exact (D c H).
    + right. cbn in H. cbn. tauto.
Qed.

Lemma page_marker_lacks (c : N) (page_num : nat) :
  Range 48 57 c = false -> existsb (N.eqb c) [61; 32; 80; 97; 103; 101] = false ->
  ~ In c (page_marker page_num).
Proof.
  intros R E H. apply page_marker_chars in H. destruct H as [H|H].
  - rewrite R in H. discriminate H.
  - assert (X : existsb (N.eqb c) [61; 32; 80; 97; 103; 101] = true).
    { apply existsb_exists. exists c. split; [exact H|apply N.eqb_refl]. }
    rewrite E in X. discriminate X.
Qed.

Lemma strip_page_marker (page_num : nat) :
  strip (page_marker page_num) = page_marker page_num.
Proof.
  unfold strip, rstrip.
  rewrite (@lstrip_fixed (rev (page_marker page_num))).
  - rewrite rev_involutive. apply lstrip_fixed. reflexivity.
  - unfold page_marker. rewrite !rev_app_distr. reflexivity.
Qed.

Lemma split_lines_page_marker (page_num : nat) (t : text) :
  split_lines (page_marker page_num ++ 10 :: t)
  = page_marker page_num :: split_lines t.
Proof.
  apply split_lines_app. apply page_marker_lacks; reflexivity.
Qed.

Lemma split_lines_full_text (pages : list text) :
  forall i t,
    split_lines (join_lines (full_text i (t :: pages)))
    = concat (map (fun kt => page_marker (fst kt) :: split_lines (snd kt))
                (combine (seq i (S (length pages))) (t :: pages))).
Proof.
  induction pages as [|t' pages IH]; intros i t.
  - cbn [full_text join_lines length seq combine map concat fst snd].
    rewrite split_lines_page_marker. now rewrite app_nil_r.
  - change (full_text i (t :: t' :: pages))
      with ((page_marker i ++ 10 :: t) :: full_text (S i) (t' :: pages)).
    change (join_lines ((page_marker i ++ 10 :: t) :: full_text (S i) (t' :: pages)))
      with ((page_marker i ++ 10 :: t) ++ 10 :: join_lines (full_text (S i) (t' :: pages))).
    rewrite split_lines_newline, IH, split_lines_page_marker.
    reflexivity.
Qed.

(** X19.  The text of a text-native PDF and the parser.  When PyMuPDF
    fails the text is empty.  Otherwise its lines are, page after page,
    the marker [=== Page k ===] (k counted from 1) followed by the lines
    of the page.  The parser never takes a marker for a question header
    or an option: it appends the marker to the text of the question that
    is open at the page break, and drops it when none is. *)
Theorem page_markers_join_question {U : UnicodeData} (pages : list text)
  (page_num : nat) (st : parser) :
  extract_text_from_text_pdf Raises = []
  /\ (pages <> [] ->
      split_lines (extract_text_from_text_pdf (Returns pages))
      = concat (map (fun kt => page_marker (fst kt) :: split_lines (snd kt))
                  (combine (seq 0 (length pages)) pages)))
  /\ header (page_marker page_num) = false
  /\ option_line (page_marker page_num) = false
  /\ step st (page_marker page_num)
     = match current_question st with
       | Some cq =>
           {| questions := questions st;
              current_question :=
                Some {| number := number cq;
                        text_of := text_of cq ++ 32 :: page_marker page_num |};
              current_options := current_options st |}
       | None => st
       end.
Proof.
  assert (Q : question_match (page_marker page_num) = None).
  { apply question_match_needs; apply page_marker_lacks; reflexivity. }
  assert (O : option_match (page_marker page_num) = None).
  { apply option_match_needs; apply page_marker_lacks; reflexivity. }
  assert (E : exists c l, page_marker page_num = c :: l).
  { unfold page_marker. cbn [utf8 app]. eexists. eexists. reflexivity. }
  destruct E as (c & l & E).
  split; [reflexivity|]. split; [|split; [|split]].
  - intros Hp. destruct pages as [|t pages]; [contradiction|].
    unfold extract_text_from_text_pdf. apply split_lines_full_text.
  - unfold header. rewrite strip_page_marker, Q. now rewrite E.
  - unfold option_line. rewrite strip_page_marker, Q, O. now rewrite E.
  - unfold step. rewrite strip_page_marker, Q, O. rewrite E.
    destruct (current_question st); reflexivity.
Qed.

Lemma page_markers_join_question_witness :
  split_lines (extract_text_from_text_pdf
                 (Returns [utf8 "1. One?"; utf8 "A) yes"]))
  = [utf8 "=== Page 1 ==="; utf8 "1. One?"; utf8 "=== Page 2 ==="; utf8 "A) yes"]
  /\ map question_text
       (extract_questions (extract_text_from_text_pdf
                             (Returns [utf8 "1. One?"; utf8 "A) yes"])))
     = [utf8 "One? === Page 2 ==="].
Proof.
  split.
  - rewrite (proj1 (proj2 (@page_markers_join_question ascii_devanagari
                             [utf8 "1. One?"; utf8 "A) yes"] 0 start)));
      [|discriminate].
    vm_compute. reflexivity.
  - vm_compute. reflexivity.
Defined.

(** ** extract_text_from_pdf *)

(** X20.  What extract_text_from_pdf returns.  The pages are numbered
    1, 2, ... in both branches.  A PDF classified as text-native gives
    type "text" and a single page with confidence 100, whatever the number
    of pages of the document and without any OCR (the result does not
    depend on the page images); when PyMuPDF then fails, that page has
    empty text and still confidence 100.  Any other PDF gives type
    "scanned" and the pages of the OCR. *)
Theorem extract_text_from_pdf_pages
  {U : UnicodeData} {cv : OpenCV} {ts : Tesseract} (pdf_image : Type)
  (save_png : pdf_image -> text -> outcome unit)
  (pdfminer : outcome text) (fitz_pages fitz_again : outcome (list text))
  (temp_dir : text) (images : outcome (list pdf_image)) :
  let result := extract_text_from_pdf save_png pdfminer fitz_pages fitz_again
                  temp_dir images in
  map page_number (pages result) = seq 1 (length (pages result))
  /\ (is_text_based pdfminer fitz_pages = true ->
      type result = utf8 "text"
      /\ length (pages result) = 1%nat
      /\ Forall (fun p => confidence p = 100%Q) (pages result)
      /\ (forall temp_dir' images',
             extract_text_from_pdf save_png pdfminer fitz_pages fitz_again
               temp_dir' images' = result)
      /\ (fitz_again = Raises ->
          pages result
          = [ {| page_number := 1; page_text := []; confidence := 100 |} ]))
  /\ (is_text_based pdfminer fitz_pages = false ->
      type result = utf8 "scanned"
      /\ pages result = extract_text_from_scanned_pdf save_png temp_dir images
      /\ length (pages result)
         = length (convert_scanned_pdf_to_images save_png temp_dir images)).
Proof.
  cbv zeta. unfold extract_text_from_pdf.
  destruct (is_text_based pdfminer fitz_pages); cbn [pages type].
  - split; [reflexivity|]. split; [|discriminate].
    intros _. split; [reflexivity|]. split; [reflexivity|].
    split; [repeat constructor|]. split; [reflexivity|].
    intros ->. reflexivity.
  - assert (N : map page_number (extract_text_from_scanned_pdf save_png temp_dir images)
                = seq 1 (length (convert_scanned_pdf_to_images save_png temp_dir images))).
    { unfold extract_text_from_scanned_pdf. rewrite ocr_pages_spec. cbn [app].
      apply ocr_pages_numbers. }
    assert (L : length (extract_text_from_scanned_pdf save_png temp_dir images)
                = length (convert_scanned_pdf_to_images save_png temp_dir images)).
    { apply (f_equal (@length _)) in N. now rewrite length_map, length_seq in N. }
    split; [now rewrite L|]. split; [discriminate|].
    intros _. split; [reflexivity|]. split; [reflexivity|exact L].
Qed.

Lemma extract_text_from_pdf_pages_witness :
  extract_text_from_pdf (fun (_ : unit) _ => Returns tt) (Returns spread_100)
    Raises Raises (utf8 "/tmp/tmpq8") (Returns [tt; tt])
  = {| type := utf8 "text";
       pages := [ {| page_number := 1; page_text := []; confidence := 100 |} ] |}
  /\ map page_number
       (pages (extract_text_from_pdf (fun (_ : unit) _ => Returns tt)
                 (Returns (utf8 "scan")) Raises Raises (utf8 "/tmp/tmpq8")
                 (Returns [tt; tt])))
     = [1%nat; 2%nat].
Proof.
  pose proof (@extract_text_from_pdf_pages ascii_devanagari channel_count_cv
                one_page_tesseract unit (fun _ _ => Returns tt)
                (Returns spread_100) Raises Raises (utf8 "/tmp/tmpq8")
                (Returns [tt; tt])) as T.
  pose proof (@extract_text_from_pdf_pages ascii_devanagari channel_count_cv
                one_page_tesseract unit (fun _ _ => Returns tt)
                (Returns (utf8 "scan")) Raises Raises (utf8 "/tmp/tmpq8")
                (Returns [tt; tt])) as S.
  cbv zeta in T, S. split.
  - destruct T as (_ & T & _).
    destruct (T ltac:(vm_compute; reflexivity)) as (Ty & _ & _ & _ & P).
    specialize (P eq_refl).
    destruct (extract_text_from_pdf _ _ _ _ _ _) as [ty pg].
    cbn [type pages] in Ty, P. now subst.
  - destruct S as (N & _ & S).
    destruct (S ltac:(vm_compute; reflexivity)) as (_ & _ & L).
    rewrite N, L. vm_compute. reflexivity.
Defined.

(** ** The skew correction *)

(** X21.  correct_angle keeps the rotation within 45 degrees exactly for
    the detected angles from -135 to 45, so for every angle of the range
    [-90, 0]; an angle above 45 is answered by a rotation of more than 45
    degrees the other way. *)
Theorem correct_angle_within_45 (angle : Q) :
  ((-45 <= correct_angle angle /\ correct_angle angle <= 45)
   <-> (-135 <= angle /\ angle <= 45))%Q
  /\ ((-90 <= angle /\ angle <= 0) ->
      (-45 < correct_angle angle /\ correct_angle angle <= 45))%Q
  /\ (45 < angle -> correct_angle angle < -45)%Q.
Proof.
  unfold correct_angle.
  destruct (Qle_bool (-45) angle) eqn:E.
  - apply Qle_bool_iff in E. repeat split; intros; lra.
  - assert (L : (angle < -45)%Q).
    { apply Qnot_le_lt. intros H. apply Qle_bool_iff in H. congruence. }
    repeat split; intros; lra.
Qed.

Lemma correct_angle_within_45_witness :
  (-90 <= -60 /\ -60 <= 0)%Q
  /\ (-45 < correct_angle (-60) /\ correct_angle (-60) <= 45)%Q.
Proof.
  assert (H : (-90 <= -60 /\ -60 <= 0)%Q) by (split; vm_compute; discriminate).
  split; [exact H|].
  exact (proj1 (proj2 (correct_angle_within_45 (-60))) H).
Defined.

(** ** The text of a question: what the lead pattern removes *)

Section QuestionLead.
Context {U : UnicodeData}.

Lemma to_letter_length (s t : text) :
  to_letter s = Some t -> (length t <= length s)%nat.
Proof.
  induction s as [|c s IH]; cbn [to_letter]; [discriminate|].
  destruct (is_letter c).
  - intros H. injection H as <-. lia.
  - intros H. apply IH in H. cbn [length]. lia.
Qed.

Lemma lazy_dot_letter (K : mstate -> option mstate) (l : text) :
  forall n p cs,
    ~ In 10 l -> (length l <= n)%nat ->
    (forall st', (p <= pos st')%nat -> K st' = Some st') ->
    lazy_loop (run Dot) (run (Ahead letter) K) n
      {| pos := p; rest := l; caps := cs |}
    = match to_letter l with
      | Some t => Some {| pos := p + (length l - length t); rest := t; caps := cs |}
      | None => None
      end.
Proof.
  induction l as [|c l IH]; intros n p cs Hnl Hn HK.
  - destruct n; reflexivity.
  - cbn [length] in Hn. destruct n as [|n]; [lia|].
    assert (Hk : run (Ahead letter) K {| pos := p; rest := c :: l; caps := cs |}
                 = if is_letter c
                   then K {| pos := p; rest := c :: l; caps := cs |}
                   else None).
    { cbn [run letter rest]. unfold is_letter. now destruct (negb _). }
    assert (Hb : forall k',
               run Dot k' {| pos := p; rest := c :: l; caps := cs |}
               = if negb (c =? 10)
                 then k' {| pos := S p; rest := l; caps := cs |}
                 else None) by reflexivity.
    set (k := run (Ahead letter) K) in *.
    set (body := run Dot) in *.
    cbn [lazy_loop to_letter]. rewrite Hk.
    destruct (is_letter c).
    + rewrite HK by (cbn [pos]; lia).
      now rewrite Nat.sub_diag, Nat.add_0_r.
    + rewrite Hb.
      assert (Hc : (c =? 10) = false).
      { apply N.eqb_neq. intros ->. apply Hnl. now left. }
      rewrite Hc. cbn [negb pos].
      assert (Hlt : (p <? S p)%nat = true) by (apply Nat.ltb_lt; lia).
      rewrite Hlt.
      rewrite (IH n (S p) cs).
      * destruct (to_letter l) as [t|] eqn:E; [|reflexivity].
        apply to_letter_length in E. cbn [length]. do 2 f_equal. lia.
      * intros H. apply Hnl. now right.
      * lia.
      * intros st' Hp. apply HK. lia.
Qed.

Lemma match_at_lead_later (f : bool) (p : nat) (s : text) :
  match_at question_lead f (S p) s = None.
Proof. reflexivity. Qed.

Lemma search_go_lead_later (s : text) :
  forall f p, search_go question_lead f (S p) s = None.
Proof.
  induction s as [|c s IH]; intros f p; cbn [search_go];
    rewrite match_at_lead_later; [reflexivity|apply IH].
Qed.

Lemma sub_go_lead_later (fuel : nat) (f : bool) (p : nat) (s : text) :
  sub_go fuel question_lead [] f (S p) s = s.
Proof. destruct fuel; cbn [sub_go]; [|rewrite search_go_lead_later]; reflexivity. Qed.

Lemma match_at_lead (f : bool) (c : N) (l : text) :
  ~ In 10 (c :: l) -> (f = true \/ is_letter c = false) ->
  match_at question_lead f 0 (c :: l)
  = match to_letter l with
    | Some t => Some {| pos := 1 + (length l - length t); rest := t; caps := [] |}
    | None => None
    end.
Proof.
  intros Hnl Hf. unfold match_at, question_lead.
  cbn [run pos Nat.eqb rest length lazy_loop letter].
  change (negb (isdecimal c || negb (is_word c))) with (is_letter c).
  assert (Hc : (c =? 10) = false).
  { apply N.eqb_neq. intros ->. apply Hnl. now left. }
  assert (A : forall g : bool,
             run Dot
               (fun st' : mstate =>
                  if (0 <? pos st')%nat
                  then lazy_loop (run Dot)
                         (run (Ahead letter)
                            (fun st => if g && (pos st =? 0)%nat then None else Some st))
                         (length l) st'
                  else None)
               {| pos := 0; rest := c :: l; caps := [] |}
             = match to_letter l with
               | Some t => Some {| pos := 1 + (length l - length t); rest := t; caps := [] |}
               | None => None
               end).
  { intros g. cbn [Dot run rest]. rewrite Hc. cbn [negb advance pos caps Nat.ltb Nat.leb].
    apply (@lazy_dot_letter
             (fun st => if g && (pos st =? 0)%nat then None else Some st)).
    - intros H. apply Hnl. now right.
    - lia.
    - intros st' Hp. destruct (pos st'); [lia|]. cbn. now rewrite andb_false_r. }
  destruct Hf as [-> | ->]; [destruct (is_letter c); exact (A true)|exact (A f)].
Qed.

End QuestionLead.

(** X22.  What the question text keeps of its header line.  The lead
    pattern [^.*?(?=[^\d\W])] is substituted twice at the start of the
    line (an empty match before a leading letter is followed by a match
    that has to advance), so that the text of a question is the line from
    the first letter after its first character on: the numbering is
    dropped, and so are the first character of a line that begins with a
    letter and all that stands between it and the next letter.  A line
    with no letter after its first character is kept whole. *)
Theorem question_text_drops_lead {U : UnicodeData} (line : text) :
  ~ In 10 line -> re_sub question_lead [] line = drop_lead line.
Proof.
  intros Hnl. destruct line as [|c l]; [reflexivity|].
  unfold re_sub, drop_lead.
  replace (2 * length (c :: l) + 2)%nat with (S (S (S (S (2 * length l)))))
    by (cbn [length]; lia).
  cbn [sub_go search_go].
  destruct (is_letter c) eqn:Ec.
  - assert (M : match_at question_lead false 0 (c :: l)
                = Some {| pos := 0; rest := c :: l; caps := [] |}).
    { unfold match_at, question_lead.
      cbn [run pos Nat.eqb rest length lazy_loop letter].
      change (negb (isdecimal c || negb (is_word c))) with (is_letter c).
      now rewrite Ec. }
    rewrite M. cbn [pos rest Nat.eqb Nat.sub firstn app sub_go search_go].
    rewrite (match_at_lead (f := true) Hnl) by now left.
    destruct (to_letter l) as [t|].
    + cbn [pos rest Nat.add Nat.eqb Nat.sub firstn app].
      now rewrite search_go_lead_later.
    + now rewrite search_go_lead_later.
  - rewrite (match_at_lead (f := false) Hnl) by now right.
    destruct (to_letter l) as [t|].
    + cbn [pos rest Nat.add Nat.eqb Nat.sub firstn app].
      now rewrite search_go_lead_later.
    + now rewrite search_go_lead_later.
Qed.

Lemma question_text_drops_lead_witness :
  re_sub question_lead [] (utf8 "(12) Which planet?") = utf8 "Which planet?"
  /\ re_sub question_lead [] (utf8 "Q.3. Which planet?") = utf8 "Which planet?"
  /\ re_sub question_lead [] (utf8 "What is 2 + 2?") = utf8 "hat is 2 + 2?"
  /\ re_sub question_lead [] (utf8 "7. 2 + 2 = ?") = utf8 "7. 2 + 2 = ?".
Proof.
  assert (T : forall line : text,
             ~ In 10 line -> re_sub question_lead [] line = drop_lead line)
    by exact (@question_text_drops_lead ascii_devanagari).
  split; [|split; [|split]];
    (rewrite T; [vm_compute; reflexivity|vm_compute; intuition discriminate]).
Defined.
